(** * Certificate batch generator: a shallow embedding of
      [src/lib/batch-generator.ts] and the properties of its
      placeholder engine, recipient loader, recipient validator and
      batch orchestrator.

    Modelling conventions.
    - A JavaScript string is a list of code units; the model covers the
      code units below 256 (Latin-1), represented by [ascii].
    - The regular expressions of the program run on a model of the
      ECMAScript backtracking matcher (ECMA-262 22.2, non-unicode mode,
      flags [g] and [gi]).  Pattern syntax outside the modelled fragment
      (look-around, back-references, named groups, hexadecimal, unicode
      and control-letter escapes, word-boundary assertions) is reported
      as [Unmodelled], never guessed.
    - A computation that can throw returns an [Outcome]; a promise is
      the [Outcome] it settles with.
    - Numbers of the layout and of JSON documents are integers.
    - The browser is a [World]: it decides which images load, which
      frames encode, whether the compression succeeds, and the time.
      Drawing on the canvas, the progress callback and the download of
      the finished archive do not throw.
    - The state of a React component is the record of the values of its
      [useState] hooks.  An event handler reads the state of the render
      that created it and its result is what it gave to the setters;
      handlers compose over events that have a render in between. *)

From Stdlib Require Import Ascii String NArith ZArith Lia DecimalString DecimalN
  DecimalPos.
From stdpp Require Import gmap strings list sorting.

Local Open Scope list_scope.
Set Warnings "-clear-no-such-hyp".

(** ** JavaScript strings and values *)

Abbreviation jsstring := (list ascii).

Definition str (s : string) : jsstring := list_ascii_of_string s.
Arguments str : simpl never.

Definition codeUnit (c : ascii) : N := N_of_ascii c.

Definition charOf (n : N) : ascii := ascii_of_N n.

(** The decimal rendering of an integer ([String(n)]). *)
Definition showNat (n : nat) : jsstring :=
  str (NilZero.string_of_uint (Nat.to_uint n)).

Definition showN (n : N) : jsstring :=
  str (NilZero.string_of_uint (N.to_uint n)).

Definition showZ (z : Z) : jsstring :=
  str (NilZero.string_of_int (Z.to_int z)).

(** A thrown value: an [Error] instance carrying its message, or any
    other value. *)
Inductive Thrown : Type :=
| ErrorObject (message : jsstring)
| NotAnError.

Inductive Outcome (A : Type) : Type :=
| Returns (a : A)
| Throws (e : Thrown)
| Unmodelled.
Arguments Returns {A} a.
Arguments Throws {A} e.
Arguments Unmodelled {A}.

Definition bindO {A B : Type} (m : Outcome A) (k : A -> Outcome B) : Outcome B :=
  match m with
  | Returns a => k a
  | Throws e => Throws e
  | Unmodelled => Unmodelled
  end.

Declare Scope js_scope.
Delimit Scope js_scope with js.
Notation "'let*' x ':=' m 'in' k" := (bindO m (fun x => k))
  (at level 10, x pattern, m at level 100, k at level 200) : js_scope.
Local Open Scope js_scope.

(** Messages of the errors raised by the JavaScript engine itself; their
    wording differs between engines. *)
Record Engine : Type := {
  regexpSyntaxErrorMessage : jsstring -> jsstring;
  nullPropertyMessage : jsstring -> jsstring
}.

(** ** Regular expressions *)

Module RegExp.

(** Canonicalize (ECMA-262 22.2.5.6) for a non-unicode, ignore-case
    pattern: the upper-case mapping when it is a single code unit, except
    that a code unit of 128 or more never maps below 128.  On Latin-1 the
    letters a-z and 0xE0-0xFE (0xF7 apart) lose 32; 0xB5 and 0xFF map to
    U+039C and U+0178; 0xDF has a two-unit upper case and stays.  Without
    the [i] flag a code unit is its own canonical form. *)
Definition Canonicalize (ignoreCase : bool) (c : ascii) : N :=
  let n := codeUnit c in
  if negb ignoreCase then n
  else if ((97 <=? n) && (n <=? 122))%N then (n - 32)%N
  else if ((224 <=? n) && (n <=? 254) && negb (n =? 247))%N then (n - 32)%N
  else if (n =? 181)%N then 924%N
  else if (n =? 255)%N then 376%N
  else n.

Definition sameCanonical (ignoreCase : bool) (a b : ascii) : bool :=
  (Canonicalize ignoreCase a =? Canonicalize ignoreCase b)%N.

Inductive EscapeClass : Type := Digit | Word | Space.

Inductive ClassItem : Type :=
| CChar (c : ascii)
| CRange (lo hi : ascii)
| CEscape (k : EscapeClass) (complement : bool).

Inductive regex : Type :=
| REmpty
| RChar (c : ascii)
| RDot
| RSet (invert : bool) (items : list ClassItem)
| RSeq (r1 r2 : regex)
| RAlt (r1 r2 : regex)
| RGroup (index : nat) (r : regex)
| RRepeat (r : regex) (min : nat) (max : option nat) (greedy : bool)
          (parenIndex parenCount : nat)
| RBol
| REol.

(** *** Character sets *)

Definition inEscapeClass (k : EscapeClass) (m : ascii) : bool :=
  let n := codeUnit m in
  match k with
  | Digit => ((48 <=? n) && (n <=? 57))%N
  | Word => ((48 <=? n) && (n <=? 57) || (65 <=? n) && (n <=? 90)
             || (97 <=? n) && (n <=? 122) || (n =? 95))%N
  | Space => ((9 <=? n) && (n <=? 13) || (n =? 32) || (n =? 160))%N
  end.

Definition itemHas (it : ClassItem) (m : ascii) : bool :=
  match it with
  | CChar c => (codeUnit c =? codeUnit m)%N
  | CRange lo hi => ((codeUnit lo <=? codeUnit m) && (codeUnit m <=? codeUnit hi))%N
  | CEscape k complement => xorb complement (inEscapeClass k m)
  end.

Definition allCodeUnits : list ascii :=
  List.map (fun n => ascii_of_nat n) (seq 0 256).

(** CharacterSetMatcher: [ch] is accepted when some member of the set has
    the same canonical form, the verdict being flipped by [invert]. *)
Definition setMatches (ignoreCase invert : bool) (items : list ClassItem) (ch : ascii)
  : bool :=
  xorb invert
    (existsb (fun m => existsb (fun it => itemHas it m) items
                       && sameCanonical ignoreCase m ch)
             allCodeUnits).

Definition isLineTerminator (c : ascii) : bool :=
  ((codeUnit c =? 10) || (codeUnit c =? 13))%N.

(** *** The backtracking matcher *)

Record MatchState : Type := {
  endIndex : nat;
  remaining : jsstring;
  captures : list (nat * jsstring)
}.

Inductive MatchResult : Type :=
| failure
| matched (y : MatchState)
| exhausted.

Definition Continuation : Type := MatchState -> MatchResult.
Definition Matcher : Type := MatchState -> Continuation -> MatchResult.

Definition orElse (a : MatchResult) (b : unit -> MatchResult) : MatchResult :=
  match a with
  | failure => b tt
  | _ => a
  end.

Definition consume (x : MatchState) (rest : jsstring) : MatchState :=
  {| endIndex := S (endIndex x); remaining := rest; captures := captures x |}.

Definition characterMatcher (accepts : ascii -> bool) : Matcher :=
  fun x c =>
    match remaining x with
    | [] => failure
    | ch :: rest => if accepts ch then c (consume x rest) else failure
    end.

Definition setCapture (i : nat) (x y : MatchState) : MatchState :=
  {| endIndex := endIndex y;
     remaining := remaining y;
     captures := (i, firstn (endIndex y - endIndex x) (remaining x))
                   :: List.filter (fun p => negb (fst p =? i)) (captures y) |}.

Definition clearCaptures (parenIndex parenCount : nat) (x : MatchState) : MatchState :=
  {| endIndex := endIndex x;
     remaining := remaining x;
     captures := List.filter
                   (fun p => negb ((parenIndex <? fst p) && (fst p <=? parenIndex + parenCount)))
                   (captures x) |}.

(** RepeatMatcher (ECMA-262 22.2.2.3.1).  An iteration that has no minimum
    left must consume input, so [min] plus the remaining length bounds the
    number of iterations; [fuel] is that bound. *)
Fixpoint RepeatMatcher (fuel : nat) (m : Matcher) (min : nat) (max : option nat)
    (greedy : bool) (x : MatchState) (c : Continuation)
    (parenIndex parenCount : nat) : MatchResult :=
  match fuel with
  | 0 => exhausted
  | S fuel' =>
      match max with
      | Some 0 => c x
      | _ =>
          let d : Continuation := fun y =>
            if (min =? 0) && (endIndex y =? endIndex x) then failure
            else RepeatMatcher fuel' m (pred min) (option_map pred max) greedy y c
                               parenIndex parenCount in
          let xr := clearCaptures parenIndex parenCount x in
          if negb (min =? 0) then m xr d
          else if negb greedy then orElse (c x) (fun _ => m xr d)
          else orElse (m xr d) (fun _ => c x)
      end
  end.

Fixpoint compile (ignoreCase : bool) (r : regex) : Matcher :=
  match r with
  | REmpty => fun x c => c x
  | RChar p => characterMatcher (sameCanonical ignoreCase p)
  | RDot => characterMatcher (fun ch => negb (isLineTerminator ch))
  | RSet invert items => characterMatcher (setMatches ignoreCase invert items)
  | RSeq r1 r2 => fun x c => compile ignoreCase r1 x (fun y => compile ignoreCase r2 y c)
  | RAlt r1 r2 =>
      fun x c => orElse (compile ignoreCase r1 x c) (fun _ => compile ignoreCase r2 x c)
  | RGroup i r1 => fun x c => compile ignoreCase r1 x (fun y => c (setCapture i x y))
  | RRepeat r1 min max greedy parenIndex parenCount =>
      fun x c =>
        RepeatMatcher (S (min + List.length (remaining x))) (compile ignoreCase r1)
                      min max greedy x c parenIndex parenCount
  | RBol => fun x c => if endIndex x =? 0 then c x else failure
  | REol => fun x c => match remaining x with [] => c x | _ => failure end
  end.

(** *** The pattern parser

    [new RegExp(source, flags)] parses [source] with the grammar of
    ECMA-262 22.2.1 as extended by Annex B.1.2 (no [u] flag). *)

Inductive Parsed (A : Type) : Type :=
| POk (a : A)
| PSyntaxError
| PUnsupported.
Arguments POk {A} a.
Arguments PSyntaxError {A}.
Arguments PUnsupported {A}.

Definition bindP {A B : Type} (m : Parsed A) (k : A -> Parsed B) : Parsed B :=
  match m with
  | POk a => k a
  | PSyntaxError => PSyntaxError
  | PUnsupported => PUnsupported
  end.

Notation "'do' x '<-' m ';' k" := (bindP m (fun x => k))
  (at level 10, x pattern, m at level 100, k at level 200).

Definition isDigit (c : ascii) : bool := inEscapeClass Digit c.
Definition isAlphaNum (c : ascii) : bool :=
  inEscapeClass Word c && negb (codeUnit c =? 95)%N.

Definition digitValue (c : ascii) : nat := N.to_nat (codeUnit c) - 48.

(** Decimal digits at the head of the input, their value and the rest. *)
Fixpoint readDigits (acc : nat) (s : jsstring) : nat * jsstring :=
  match s with
  | c :: s' => if isDigit c then readDigits (10 * acc + digitValue c) s' else (acc, s)
  | [] => (acc, [])
  end.

Definition startsWithDigit (s : jsstring) : bool :=
  match s with
  | c :: _ => isDigit c
  | [] => false
  end.

(** The text after an opening brace, when it completes a braced quantifier
    [{n}], [{n,}] or [{n,m}]. *)
Definition bracedQuantifier (s : jsstring) : option (nat * option nat * jsstring) :=
  if startsWithDigit s then
    let '(lo, s1) := readDigits 0 s in
    match s1 with
    | "}"%char :: s2 => Some (lo, Some lo, s2)
    | ","%char :: "}"%char :: s2 => Some (lo, None, s2)
    | ","%char :: s2 =>
        if startsWithDigit s2 then
          let '(hi, s3) := readDigits 0 s2 in
          match s3 with
          | "}"%char :: s4 => Some (lo, Some hi, s4)
          | _ => None
          end
        else None
    | _ => None
    end
  else None.

(** QuantifierPrefix, when the input starts with one. *)
Definition quantifierPrefix (s : jsstring) : option (nat * option nat * jsstring) :=
  match s with
  | "*"%char :: s' => Some (0, None, s')
  | "+"%char :: s' => Some (1, None, s')
  | "?"%char :: s' => Some (0, Some 1, s')
  | "{"%char :: s' => bracedQuantifier s'
  | _ => None
  end.

Definition outOfOrder (lo : nat) (hi : option nat) : bool :=
  match hi with
  | Some h => h <? lo
  | None => false
  end.

(** An atom followed by its optional quantifier; [ng0] and [ng] are the
    numbers of capturing groups opened before and after the atom. *)
Definition quantified (atom : regex) (ng0 ng : nat) (s : jsstring)
  : Parsed (regex * nat * jsstring) :=
  match quantifierPrefix s with
  | None => POk (atom, ng, s)
  | Some (lo, hi, s') =>
      if outOfOrder lo hi then PSyntaxError
      else match s' with
           | "?"%char :: s'' => POk (RRepeat atom lo hi false ng0 (ng - ng0), ng, s'')
           | _ => POk (RRepeat atom lo hi true ng0 (ng - ng0), ng, s')
           end
  end.

(** An assertion takes no quantifier. *)
Definition unquantified (assertion : regex) (ng : nat) (s : jsstring)
  : Parsed (regex * nat * jsstring) :=
  match quantifierPrefix s with
  | None => POk (assertion, ng, s)
  | Some _ => PSyntaxError
  end.

Definition escapeClassOf (c : ascii) : option (EscapeClass * bool) :=
  match c with
  | "d"%char => Some (Digit, false)
  | "D"%char => Some (Digit, true)
  | "w"%char => Some (Word, false)
  | "W"%char => Some (Word, true)
  | "s"%char => Some (Space, false)
  | "S"%char => Some (Space, true)
  | _ => None
  end.

Definition controlEscapeOf (c : ascii) : option ascii :=
  match c with
  | "t"%char => Some (charOf 9)
  | "n"%char => Some (charOf 10)
  | "v"%char => Some (charOf 11)
  | "f"%char => Some (charOf 12)
  | "r"%char => Some (charOf 13)
  | _ => None
  end.

(** The atom denoted by the character after a backslash, inside or outside
    a character class. *)
Definition escapedAtom (c : ascii) : Parsed ClassItem :=
  match escapeClassOf c with
  | Some (k, complement) => POk (CEscape k complement)
  | None =>
      match controlEscapeOf c with
      | Some ctl => POk (CChar ctl)
      | None => if isAlphaNum c then PUnsupported else POk (CChar c)
      end
  end.

Definition classAtom (s : jsstring) : Parsed (ClassItem * jsstring) :=
  match s with
  | [] => PSyntaxError
  | "\"%char :: [] => PSyntaxError
  | "\"%char :: c :: s' => do it <- escapedAtom c; POk (it, s')
  | c :: s' => POk (CChar c, s')
  end.

(** ClassRanges up to the closing bracket. *)
Fixpoint classRanges (fuel : nat) (s : jsstring) : Parsed (list ClassItem * jsstring) :=
  match fuel with
  | 0 => PUnsupported
  | S fuel' =>
      match s with
      | [] => PSyntaxError
      | "]"%char :: s' => POk ([], s')
      | _ =>
          do (a, s1) <- classAtom s;
          match s1 with
          | "-"%char :: "]"%char :: _ =>
              do (items, s2) <- classRanges fuel' s1; POk (a :: items, s2)
          | "-"%char :: ((_ :: _) as s1') =>
              do (b, s2) <- classAtom s1';
              match a, b with
              | CChar lo, CChar hi =>
                  if (codeUnit hi <? codeUnit lo)%N then PSyntaxError
                  else do (items, s3) <- classRanges fuel' s2; POk (CRange lo hi :: items, s3)
              | _, _ => PUnsupported
              end
          | _ => do (items, s2) <- classRanges fuel' s1; POk (a :: items, s2)
          end
      end
  end.

Definition characterClass (s : jsstring) : Parsed (regex * jsstring) :=
  match s with
  | "^"%char :: s' =>
      do (items, s2) <- classRanges (S (List.length s')) s'; POk (RSet true items, s2)
  | _ => do (items, s2) <- classRanges (S (List.length s)) s; POk (RSet false items, s2)
  end.

Definition itemRegex (it : ClassItem) : regex :=
  match it with
  | CChar c => RChar c
  | _ => RSet false [it]
  end.

Section Terms.

(** The parser of a parenthesised Disjunction, supplied by [disjunction]
    below; it stops in front of the closing parenthesis. *)
Variable group : nat -> jsstring -> Parsed (regex * nat * jsstring).

Definition closeGroup (wrap : regex -> regex) (ng0 : nat)
    (inner : Parsed (regex * nat * jsstring)) : Parsed (regex * nat * jsstring) :=
  do (r, ng, s) <- inner;
  match s with
  | ")"%char :: s' => quantified (wrap r) ng0 ng s'
  | _ => PSyntaxError
  end.

Definition term (ng : nat) (s : jsstring) : Parsed (regex * nat * jsstring) :=
  match s with
  | [] => PSyntaxError
  | "^"%char :: s' => unquantified RBol ng s'
  | "$"%char :: s' => unquantified REol ng s'
  | "("%char :: "?"%char :: ":"%char :: s' => closeGroup (fun r => r) ng (group ng s')
  | "("%char :: "?"%char :: _ => PUnsupported
  | "("%char :: s' => closeGroup (RGroup (S ng)) ng (group (S ng) s')
  | ")"%char :: _ => PSyntaxError
  | "|"%char :: _ => PSyntaxError
  | "*"%char :: _ => PSyntaxError
  | "+"%char :: _ => PSyntaxError
  | "?"%char :: _ => PSyntaxError
  | "{"%char :: s' =>
      match bracedQuantifier s' with
      | Some _ => PSyntaxError
      | None => quantified (RChar "{"%char) ng ng s'
      end
  | "["%char :: s' => do (r, s2) <- characterClass s'; quantified r ng ng s2
  | "."%char :: s' => quantified RDot ng ng s'
  | "\"%char :: [] => PSyntaxError
  | "\"%char :: c :: s' => do it <- escapedAtom c; quantified (itemRegex it) ng ng s'
  | c :: s' => quantified (RChar c) ng ng s'
  end.

(** Alternative: terms up to a bar, a closing parenthesis or the end. *)
Fixpoint alternative (fuel : nat) (ng : nat) (s : jsstring)
  : Parsed (regex * nat * jsstring) :=
  match fuel with
  | 0 => PUnsupported
  | S fuel' =>
      match s with
      | [] => POk (REmpty, ng, s)
      | ")"%char :: _ => POk (REmpty, ng, s)
      | "|"%char :: _ => POk (REmpty, ng, s)
      | _ =>
          do (t, ng1, s1) <- term ng s;
          do (r, ng2, s2) <- alternative fuel' ng1 s1;
          POk (RSeq t r, ng2, s2)
      end
  end.

End Terms.

Fixpoint disjunction (fuel : nat) (ng : nat) (s : jsstring)
  : Parsed (regex * nat * jsstring) :=
  match fuel with
  | 0 => PUnsupported
  | S fuel' =>
      do (a, ng1, s1) <- alternative (disjunction fuel') (S (List.length s)) ng s;
      match s1 with
      | "|"%char :: s2 =>
          do (b, ng2, s3) <- disjunction fuel' ng1 s2; POk (RAlt a b, ng2, s3)
      | _ => POk (a, ng1, s1)
      end
  end.

(** A compiled pattern: its syntax tree and its number of capturing
    groups. *)
Record RegExpObject : Type := {
  tree : regex;
  nCaptures : nat;
  ignoreCase : bool
}.

(** The patterns of the program all carry the [g] flag; [i] is the only
    flag that varies. *)
Definition parsePattern (source : jsstring) (i : bool) : Parsed RegExpObject :=
  do (r, ng, s) <- disjunction (S (List.length source)) 0 source;
  match s with
  | [] => POk {| tree := r; nCaptures := ng; ignoreCase := i |}
  | _ => PSyntaxError
  end.

(** *** Execution and replacement *)

Definition startState (index : nat) (rest : jsstring) : MatchState :=
  {| endIndex := index; remaining := rest; captures := [] |}.

Inductive ExecResult : Type :=
| notFound
| foundAt (index : nat) (rest : jsstring) (y : MatchState)
| execExhausted.

(** RegExpBuiltinExec for a global pattern: the first index from
    [lastIndex] on at which the pattern matches; [rest] is the input from
    [lastIndex]. *)
Fixpoint execFrom (rx : RegExpObject) (lastIndex : nat) (rest : jsstring) : ExecResult :=
  match compile (ignoreCase rx) (tree rx) (startState lastIndex rest) matched with
  | matched y => foundAt lastIndex rest y
  | exhausted => execExhausted
  | failure =>
      match rest with
      | [] => notFound
      | _ :: rest' => execFrom rx (S lastIndex) rest'
      end
  end.

Definition captureOf (caps : list (nat * jsstring)) (i : nat) : jsstring :=
  match List.find (fun p => fst p =? i) caps with
  | Some p => snd p
  | None => []
  end.

(** GetSubstitution (ECMA-262 22.1.3.19.1) without named captures: the
    expansion of the dollar patterns of a replacement template. *)
Fixpoint GetSubstitution (matchedText before after : jsstring)
    (caps : list (nat * jsstring)) (captureLen : nat) (template : jsstring) : jsstring :=
  match template with
  | [] => []
  | "$"%char :: t1 =>
      let go := GetSubstitution matchedText before after caps captureLen in
      match t1 with
      | "$"%char :: t2 => "$"%char :: go t2
      | "&"%char :: t2 => matchedText ++ go t2
      | "`"%char :: t2 => before ++ go t2
      | "'"%char :: t2 => after ++ go t2
      | d1 :: t2 =>
          if isDigit d1 then
            let one :=
              if (1 <=? digitValue d1) && (digitValue d1 <=? captureLen)
              then captureOf caps (digitValue d1) ++ go t2
              else "$"%char :: d1 :: go t2 in
            match t2 with
            | d2 :: t3 =>
                if isDigit d2 then
                  let index := 10 * digitValue d1 + digitValue d2 in
                  if captureLen <? index then one
                  else if 1 <=? index then captureOf caps index ++ go t3
                  else "$"%char :: d1 :: d2 :: go t3
                else one
            | [] => one
            end
          else "$"%char :: go t1
      | [] => ["$"%char]
      end
  | c :: t1 => c :: GetSubstitution matchedText before after caps captureLen t1
  end.

Section Replace.

Variable rx : RegExpObject.
Variable replaceValue : jsstring.
Variable input : jsstring.

Definition substitution (index : nat) (rest : jsstring) (y : MatchState) : jsstring :=
  GetSubstitution (firstn (endIndex y - index) rest) (firstn index input) (remaining y)
                  (captures y) (nCaptures rx) replaceValue.

(** The loop of RegExp.prototype[Symbol.replace] for a global pattern,
    from [lastIndex] on: the text between the matches is copied, each
    match is replaced by its substitution, and an empty match advances
    [lastIndex] by one. *)
Fixpoint replaceFrom (fuel : nat) (lastIndex : nat) (rest : jsstring) : Outcome jsstring :=
  match fuel with
  | 0 => Unmodelled
  | S fuel' =>
      match execFrom rx lastIndex rest with
      | execExhausted => Unmodelled
      | notFound => Returns rest
      | foundAt index irest y =>
          let head := firstn (index - lastIndex) rest ++ substitution index irest y in
          if endIndex y =? index then
            match remaining y with
            | [] => Returns head
            | ch :: rest' =>
                let* tail := replaceFrom fuel' (S (endIndex y)) rest' in
                Returns (head ++ ch :: tail)
            end
          else
            let* tail := replaceFrom fuel' (endIndex y) (remaining y) in
            Returns (head ++ tail)
      end
  end.

End Replace.

(** [input.replace(rx, replaceValue)] for a pattern with the [g] flag. *)
Definition replace (rx : RegExpObject) (replaceValue input : jsstring) : Outcome jsstring :=
  replaceFrom rx replaceValue input (S (S (List.length input))) 0 input.

End RegExp.

(** ** Data model *)

(** Modelled from the spec: the declaration of [BatchRecipient]
    ([@/types/batch]) is not part of the sources; the fields are those of
    the spec's data model, [customFields] being the entries of the object
    in the order [Object.entries] enumerates them. *)
Module BatchRecipient.
Record t : Type := {
  name : jsstring;
  title : option jsstring;
  date : option jsstring;
  customFields : option (list (jsstring * jsstring))
}.
End BatchRecipient.

(** Modelled from the spec: the declaration of [BatchProgress]
    ([@/types/batch]) is not part of the sources. *)
Module Status.
Inductive t : Type := pending | processing | complete | error.
End Status.

Module BatchProgress.
Record t : Type := {
  total : nat;
  current : nat;
  currentName : option jsstring;
  status : Status.t;
  error : option jsstring
}.
End BatchProgress.

(** Numbers of the layout are restricted to integers. *)
Module Position.
Record t : Type := { x : Z; y : Z }.
End Position.

Module FontWeight.
Inductive t : Type := normal | bold.
Definition toString (w : t) : jsstring :=
  match w with normal => str "normal" | bold => str "bold" end.
End FontWeight.

Module FontStyle.
Inductive t : Type := normal | italic.
Definition toString (w : t) : jsstring :=
  match w with normal => str "normal" | italic => str "italic" end.
End FontStyle.

Module TextAlign.
Inductive t : Type := left | center | right.
End TextAlign.

Module ImageKind.
Inductive t : Type := signature | logo | custom.
End ImageKind.

Module TextElement.
Record t : Type := {
  id : jsstring;
  text : jsstring;
  position : Position.t;
  fontSize : Z;
  fontFamily : jsstring;
  color : jsstring;
  fontWeight : FontWeight.t;
  fontStyle : FontStyle.t;
  textAlign : TextAlign.t
}.
End TextElement.

Module ImageElement.
Record t : Type := {
  id : jsstring;
  src : jsstring;
  position : Position.t;
  width : Z;
  height : Z;
  type : ImageKind.t
}.
End ImageElement.

Module CertificateTemplate.
Record t : Type := {
  id : jsstring;
  name : jsstring;
  backgroundImage : jsstring;
  width : Z;
  height : Z
}.
End CertificateTemplate.

(** *** The browser objects the generator drives *)

(** A loaded [HTMLImageElement], identified by its source. *)
Definition Image : Type := jsstring.

(** The calls received by the 2D context since the canvas was sized; the
    context state in force ([font], [fillStyle], [textAlign],
    [textBaseline]) is recorded with each [fillText]. *)
Inductive DrawCall : Type :=
| clearRect (x y w h : Z)
| drawImage (image : Image) (dx dy dw dh : Z)
| fillText (text : jsstring) (x y : Z) (font fillStyle : jsstring)
           (textAlign : TextAlign.t) (textBaseline : jsstring).

Module Canvas.
Record t : Type := { width : Z; height : Z; calls : list DrawCall }.
End Canvas.

(** The PNG encoding of a canvas, identified by the canvas it encodes. *)
Definition Blob : Type := Canvas.t.

(** The [data:] URL of a canvas, identified by the canvas it encodes. *)
Definition DataURL : Type := Canvas.t.

(** The files of a [JSZip] instance, by name. *)
Abbreviation Archive := (gmap (list ascii) Blob).

Module Download.
Record t : Type := { filename : jsstring; entries : Archive }.
End Download.

(** What the environment of one run decides: which image sources fail to
    load and when, which frames the canvas fails to encode, whether the
    compression of the archive fails, and the clock. *)
Record World : Type := {
  imageFailure : jsstring -> option nat;
  toBlobIsNull : nat -> bool;
  generateAsyncFailure : option Thrown;
  now : N
}.

(** *** JSON documents *)

(** The values [JSON.parse] returns; numbers are restricted to integers. *)
#[warnings="-register-all"] Inductive JSON : Type :=
| JNull
| JBool (b : bool)
| JNumber (n : Z)
| JString (s : jsstring)
| JArray (elements : list JSON)
| JObject (members : list (jsstring * JSON)).

(** A record as the loader returns it; [title], [date] and [customFields]
    are whatever truthy value the document holds. *)
Module LoadedRecipient.
Record t : Type := {
  name : jsstring;
  title : JSON;
  date : JSON;
  customFields : JSON
}.
End LoadedRecipient.

(** The text of a file, by what [JSON.parse] makes of it: a SyntaxError
    with its message, or a document. *)
Inductive FileText : Type :=
| NotJSON (message : jsstring)
| Document (data : JSON).

(** A file, by what [FileReader.readAsText] makes of it. *)
Inductive File : Type :=
| Unreadable
| Readable (content : FileText).

Module ValidationResult.
Record t : Type := { valid : bool; errors : list jsstring }.
End ValidationResult.

(** The value a property read resolves to in the validator. *)
Inductive Resolved : Type :=
| undefined
| stringValue (s : jsstring)
| inherited (property : jsstring).

(** The state of one run: the progress object, mutated in place, and the
    values [onProgress] has received so far. *)
Module Run.
Record t : Type := { progress : BatchProgress.t; emitted : list BatchProgress.t }.
End Run.

Module BatchResult.
Record t : Type := {
  events : list BatchProgress.t;
  settled : Outcome unit;
  downloads : list Download.t
}.
End BatchResult.

Section Runtime.

Variable engine : Engine.

(** [new RegExp(source, "g")] or [new RegExp(source, "gi")]. *)
Definition newRegExp (source : jsstring) (ignoreCase : bool)
  : Outcome RegExp.RegExpObject :=
  match RegExp.parsePattern source ignoreCase with
  | RegExp.POk rx => Returns rx
  | RegExp.PSyntaxError => Throws (ErrorObject (regexpSyntaxErrorMessage engine source))
  | RegExp.PUnsupported => Unmodelled
  end.

(** [input.replace(new RegExp(source, flags), replaceValue)] for the flags
    [g] and [gi]; a regular expression literal [/source/flags] is the same
    pattern. *)
Definition replaceAll (source : jsstring) (ignoreCase : bool)
    (replaceValue input : jsstring) : Outcome jsstring :=
  let* rx := newRegExp source ignoreCase in
  RegExp.replace rx replaceValue input.

(** ** The placeholder engine *)

(** [value || ""] for an optional string. *)
Definition orEmpty (value : option jsstring) : jsstring :=
  match value with
  | Some s => s
  | None => []
  end.

(** The source of the pattern built for a custom field. *)
Definition customPattern (key : jsstring) : jsstring :=
  str "\{\{" ++ key ++ str "\}\}".

(** The [forEach] over [Object.entries(recipient.customFields)], threading
    [result]. *)
Fixpoint replaceCustomFields (entries : list (jsstring * jsstring)) (result : jsstring)
  : Outcome jsstring :=
  match entries with
  | [] => Returns result
  | (key, value) :: entries' =>
      let* result := replaceAll (customPattern key) true value result in
      replaceCustomFields entries' result
  end.

Definition replacePlaceholders (text : jsstring) (recipient : BatchRecipient.t)
  : Outcome jsstring :=
  let result := text in
  let* result := replaceAll (str "\{\{name\}\}") true (BatchRecipient.name recipient) result in
  let* result :=
    replaceAll (str "\{\{title\}\}") true (orEmpty (BatchRecipient.title recipient)) result in
  let* result :=
    replaceAll (str "\{\{date\}\}") true (orEmpty (BatchRecipient.date recipient)) result in
  match BatchRecipient.customFields recipient with
  | Some entries => replaceCustomFields entries result
  | None => Returns result
  end.

(** ** File names *)

Definition toLowerCaseUnit (c : ascii) : ascii :=
  let n := codeUnit c in
  if ((65 <=? n) && (n <=? 90) || (192 <=? n) && (n <=? 222) && negb (n =? 215))%N
  then charOf (n + 32) else c.

Definition toLowerCase (s : jsstring) : jsstring := List.map toLowerCaseUnit s.

Definition sanitizeFilename (name : jsstring) : Outcome jsstring :=
  let* s1 := replaceAll (str "[^a-z0-9]") true (str "_") name in
  let* s2 := replaceAll (str "_+") false (str "_") s1 in
  let* s3 := replaceAll (str "^_|_$") false [] s2 in
  Returns (toLowerCase s3).

(** ** The recipient validator *)

Definition sameString (a b : jsstring) : bool := bool_decide (a = b).

Fixpoint ownProperty {A : Type} (key : jsstring) (members : list (jsstring * A))
  : option A :=
  match members with
  | [] => None
  | (k, v) :: members' => if sameString k key then Some v else ownProperty key members'
  end.

(** The properties every plain object inherits from [Object.prototype]. *)
Definition objectPrototypeProperties : list jsstring :=
  List.map str
    ["constructor"; "hasOwnProperty"; "isPrototypeOf"; "propertyIsEnumerable";
     "toLocaleString"; "toString"; "valueOf"; "__proto__"; "__defineGetter__";
     "__defineSetter__"; "__lookupGetter__"; "__lookupSetter__"]%string.

Definition ofOption (value : option jsstring) : Resolved :=
  match value with
  | Some s => stringValue s
  | None => undefined
  end.

(** [recipient.customFields?.[placeholder]]. *)
Definition customField (recipient : BatchRecipient.t) (placeholder : jsstring) : Resolved :=
  match BatchRecipient.customFields recipient with
  | None => undefined
  | Some entries =>
      match ownProperty placeholder entries with
      | Some v => stringValue v
      | None =>
          if existsb (sameString placeholder) objectPrototypeProperties
          then inherited placeholder else undefined
      end
  end.

Definition resolveValue (recipient : BatchRecipient.t) (placeholder : jsstring) : Resolved :=
  if sameString placeholder (str "name") then stringValue (BatchRecipient.name recipient)
  else if sameString placeholder (str "title") then ofOption (BatchRecipient.title recipient)
  else if sameString placeholder (str "date") then ofOption (BatchRecipient.date recipient)
  else customField recipient placeholder.

(** [!value]. *)
Definition falsy (value : Resolved) : bool :=
  match value with
  | undefined => true
  | stringValue [] => true
  | stringValue (_ :: _) => false
  | inherited _ => false
  end.

Definition missingFieldMessage (index : nat) (recipient : BatchRecipient.t)
    (placeholder : jsstring) : jsstring :=
  str "Recipient " ++ showNat (index + 1) ++ str " (" ++ BatchRecipient.name recipient
  ++ str ") is missing field: " ++ placeholder.

(** The inner [forEach]: [errors] is the array being pushed to. *)
Fixpoint checkPlaceholders (recipient : BatchRecipient.t) (index : nat)
    (requiredPlaceholders : list jsstring) (errors : list jsstring) : list jsstring :=
  match requiredPlaceholders with
  | [] => errors
  | placeholder :: rest =>
      let value := resolveValue recipient placeholder in
      let errors :=
        if falsy value then errors ++ [missingFieldMessage index recipient placeholder]
        else errors in
      checkPlaceholders recipient index rest errors
  end.

(** The outer [forEach], from [index] on. *)
Fixpoint checkRecipients (recipients : list BatchRecipient.t) (index : nat)
    (requiredPlaceholders : list jsstring) (errors : list jsstring) : list jsstring :=
  match recipients with
  | [] => errors
  | recipient :: rest =>
      checkRecipients rest (S index) requiredPlaceholders
        (checkPlaceholders recipient index requiredPlaceholders errors)
  end.

Definition validateRecipientData (recipients : list BatchRecipient.t)
    (requiredPlaceholders : list jsstring) : ValidationResult.t :=
  let errors := checkRecipients recipients 0 requiredPlaceholders [] in
  {| ValidationResult.valid := List.length errors =? 0;
     ValidationResult.errors := errors |}.

(** ** The recipient loader *)

(** [value.property] for the properties the loader reads ([recipients],
    [name], [title], [date], [customFields]), none of which a prototype
    defines: reading them off [null] throws a TypeError, off any other
    value that is not an object with such a member gives undefined. *)
Definition getProperty (value : JSON) (property : jsstring) : Outcome (option JSON) :=
  match value with
  | JNull => Throws (ErrorObject (nullPropertyMessage engine property))
  | JObject members => Returns (ownProperty property members)
  | _ => Returns None
  end.

Definition truthy (value : option JSON) : bool :=
  match value with
  | None => false
  | Some JNull => false
  | Some (JBool b) => b
  | Some (JNumber n) => negb (n =? 0)%Z
  | Some (JString s) => negb (sameString s [])
  | Some (JArray _) => true
  | Some (JObject _) => true
  end.

(** [value || fallback]. *)
Definition orElseJSON (value : option JSON) (fallback : JSON) : JSON :=
  match value with
  | Some v => if truthy value then v else fallback
  | None => fallback
  end.

Definition quote : ascii := charOf 34.

Definition missingNameMessage (index : nat) : jsstring :=
  str "Recipient at index " ++ showNat index ++ str " is missing a valid "
  ++ [quote] ++ str "name" ++ [quote] ++ str " field".

Definition invalidStructureMessage : jsstring :=
  str "Invalid JSON structure. Expected { " ++ [quote] ++ str "recipients" ++ [quote]
  ++ str ": [...] }".

(** The callback of [data.recipients.map]. *)
Definition loadRecipient (recipient : JSON) (index : nat) : Outcome LoadedRecipient.t :=
  let* name := getProperty recipient (str "name") in
  match name with
  | Some (JString (c :: s)) =>
      let* title := getProperty recipient (str "title") in
      let* date := getProperty recipient (str "date") in
      let* customFields := getProperty recipient (str "customFields") in
      Returns {| LoadedRecipient.name := c :: s;
                 LoadedRecipient.title := orElseJSON title (JString []);
                 LoadedRecipient.date := orElseJSON date (JString []);
                 LoadedRecipient.customFields := orElseJSON customFields (JObject []) |}
  | _ => Throws (ErrorObject (missingNameMessage index))
  end.

(** [Array.prototype.map] with a callback that can throw, from [index]. *)
Fixpoint mapRecipients (elements : list JSON) (index : nat)
  : Outcome (list LoadedRecipient.t) :=
  match elements with
  | [] => Returns []
  | recipient :: rest =>
      let* loaded := loadRecipient recipient index in
      let* others := mapRecipients rest (S index) in
      Returns (loaded :: others)
  end.

(** [JSON.parse(content)]. *)
Definition jsonParse (content : FileText) : Outcome JSON :=
  match content with
  | NotJSON message => Throws (ErrorObject message)
  | Document data => Returns data
  end.

(** The body of the [try] block of [reader.onload]. *)
Definition loadDocument (content : FileText) : Outcome (list LoadedRecipient.t) :=
  let* data := jsonParse content in
  let* recipients := getProperty data (str "recipients") in
  match recipients with
  | Some (JArray elements) => mapRecipients elements 0
  | _ => Throws (ErrorObject invalidStructureMessage)
  end.

Definition thrownMessage (e : Thrown) (fallback : jsstring) : jsstring :=
  match e with
  | ErrorObject message => message
  | NotAnError => fallback
  end.

(** The promise [parseRecipientsFile] returns: [Returns] when it resolves,
    [Throws] when it rejects. *)
Definition parseRecipientsFile (file : File) : Outcome (list LoadedRecipient.t) :=
  match file with
  | Unreadable => Throws (ErrorObject (str "Failed to read file"))
  | Readable content =>
      match loadDocument content with
      | Returns recipients => Returns recipients
      | Throws e =>
          Throws (ErrorObject (str "Failed to parse JSON: "
                               ++ thrownMessage e (str "Unknown error")))
      | Unmodelled => Unmodelled
      end
  end.

(** ** The rasterizer and the batch orchestrator *)

Variable world : World.

Definition loadImage (src : jsstring) : Outcome Image :=
  match imageFailure world src with
  | None => Returns src
  | Some _ => Throws (ErrorObject (str "Failed to load image: " ++ src))
  end.

(** The element whose load fails first, the earlier element winning a
    tie: the rejection [Promise.all] settles with. *)
Fixpoint firstFailure (elements : list ImageElement.t) (best : option (nat * jsstring))
  : option (nat * jsstring) :=
  match elements with
  | [] => best
  | element :: rest =>
      let src := ImageElement.src element in
      match imageFailure world src, best with
      | Some time, Some (earliest, _) =>
          firstFailure rest (if time <? earliest then Some (time, src) else best)
      | Some time, None => firstFailure rest (Some (time, src))
      | None, _ => firstFailure rest best
      end
  end.

(** [Promise.all(imageElements.map(async (element) => ...))]. *)
Definition loadImageElements (imageElements : list ImageElement.t)
  : Outcome (list (ImageElement.t * Image)) :=
  match firstFailure imageElements None with
  | Some (_, src) => Throws (ErrorObject (str "Failed to load image: " ++ src))
  | None => Returns (List.map (fun element => (element, ImageElement.src element)) imageElements)
  end.

Definition draw (call : DrawCall) (canvas : Canvas.t) : Canvas.t :=
  {| Canvas.width := Canvas.width canvas;
     Canvas.height := Canvas.height canvas;
     Canvas.calls := Canvas.calls canvas ++ [call] |}.

Definition fontOf (element : TextElement.t) : jsstring :=
  FontStyle.toString (TextElement.fontStyle element) ++ str " "
  ++ FontWeight.toString (TextElement.fontWeight element) ++ str " "
  ++ showZ (TextElement.fontSize element) ++ str "px "
  ++ TextElement.fontFamily element.

(** The [forEach] over the text elements; [replacePlaceholders] can
    throw, which leaves the loop. *)
Fixpoint drawTextElements (textElements : list TextElement.t)
    (recipient : BatchRecipient.t) (canvas : Canvas.t) : Outcome Canvas.t :=
  match textElements with
  | [] => Returns canvas
  | element :: rest =>
      let* text := replacePlaceholders (TextElement.text element) recipient in
      let x := Position.x (TextElement.position element) in
      let y := Position.y (TextElement.position element) in
      drawTextElements rest recipient
        (draw (fillText text x y (fontOf element) (TextElement.color element)
                        (TextElement.textAlign element) (str "top")) canvas)
  end.

Definition drawImageElement (canvas : Canvas.t) (loaded : ImageElement.t * Image)
  : Canvas.t :=
  let element := fst loaded in
  draw (drawImage (snd loaded)
          (Position.x (ImageElement.position element))
          (Position.y (ImageElement.position element))
          (ImageElement.width element) (ImageElement.height element)) canvas.

Definition renderCertificate (canvas : Canvas.t) (template : CertificateTemplate.t)
    (textElements : list TextElement.t) (imageElements : list ImageElement.t)
    (recipient : BatchRecipient.t)
    (loadedTemplate : Image) (loadedElements : list (ImageElement.t * Image))
  : Outcome Canvas.t :=
  let canvas := draw (clearRect 0 0 (Canvas.width canvas) (Canvas.height canvas)) canvas in
  let canvas :=
    draw (drawImage loadedTemplate 0 0 (CertificateTemplate.width template)
                    (CertificateTemplate.height template)) canvas in
  let canvas := List.fold_left drawImageElement loadedElements canvas in
  drawTextElements textElements recipient canvas.

(** [canvasToBlob] for the frame of the recipient at [index]. *)
Definition canvasToBlob (index : nat) (canvas : Canvas.t) : Outcome Blob :=
  if toBlobIsNull world index
  then Throws (ErrorObject (str "Failed to convert canvas to blob"))
  else Returns canvas.

Definition certificateFilename (sanitized : jsstring) : jsstring :=
  str "certificate_" ++ sanitized ++ str ".png".

Section Batch.

Variable template : CertificateTemplate.t.
Variable textElements : list TextElement.t.
Variable imageElements : list ImageElement.t.

(** Whether the caller passed [onProgress]. *)
Variable onProgress : bool.

(** [onProgress(progress)] and [onProgress({ ...progress })]: the value of
    the progress object at the call is what the callback receives.  The
    first call passes the object itself and the later ones a copy; an event
    is recorded as read during the call, so what a callback that keeps the
    first object reads from it afterwards is not part of [emitted]. *)
Definition emit (run : Run.t) : Run.t :=
  if onProgress
  then {| Run.progress := Run.progress run;
          Run.emitted := Run.emitted run ++ [Run.progress run] |}
  else run.

Definition update (f : BatchProgress.t -> BatchProgress.t) (run : Run.t) : Run.t :=
  {| Run.progress := f (Run.progress run); Run.emitted := Run.emitted run |}.

Definition startRecipient (i : nat) (recipientName : jsstring) (p : BatchProgress.t)
  : BatchProgress.t :=
  {| BatchProgress.total := BatchProgress.total p;
     BatchProgress.current := i;
     BatchProgress.currentName := Some recipientName;
     BatchProgress.status := BatchProgress.status p;
     BatchProgress.error := BatchProgress.error p |}.

Definition finish (n : nat) (p : BatchProgress.t) : BatchProgress.t :=
  {| BatchProgress.total := BatchProgress.total p;
     BatchProgress.current := n;
     BatchProgress.currentName := BatchProgress.currentName p;
     BatchProgress.status := Status.complete;
     BatchProgress.error := BatchProgress.error p |}.

Definition fail (message : jsstring) (p : BatchProgress.t) : BatchProgress.t :=
  {| BatchProgress.total := BatchProgress.total p;
     BatchProgress.current := BatchProgress.current p;
     BatchProgress.currentName := BatchProgress.currentName p;
     BatchProgress.status := Status.error;
     BatchProgress.error := Some message |}.

(** One iteration of the loop after its progress event: render, encode,
    name. *)
Definition certificateOf (i : nat) (recipient : BatchRecipient.t) (canvas : Canvas.t)
    (loadedTemplate : Image) (loadedElements : list (ImageElement.t * Image))
  : Outcome (Canvas.t * jsstring * Blob) :=
  let* canvas :=
    renderCertificate canvas template textElements imageElements recipient
                      loadedTemplate loadedElements in
  let* blob := canvasToBlob i canvas in
  let* sanitized := sanitizeFilename (BatchRecipient.name recipient) in
  Returns (canvas, certificateFilename sanitized, blob).

(** The [for] loop from index [i] on, over the recipients still to
    process. *)
Fixpoint generateEach (i : nat) (recipients : list BatchRecipient.t)
    (loadedTemplate : Image) (loadedElements : list (ImageElement.t * Image))
    (canvas : Canvas.t) (zip : Archive) (run : Run.t) : Run.t * Outcome Archive :=
  match recipients with
  | [] => (run, Returns zip)
  | recipient :: rest =>
      let run := emit (update (startRecipient i (BatchRecipient.name recipient)) run) in
      match certificateOf i recipient canvas loadedTemplate loadedElements with
      | Returns (canvas, filename, blob) =>
          generateEach (S i) rest loadedTemplate loadedElements canvas
                       (<[filename := blob]> zip) run
      | Throws e => (run, Throws e)
      | Unmodelled => (run, Unmodelled)
      end
  end.

Definition zipFilename : jsstring :=
  str "certificates_batch_" ++ showN (now world) ++ str ".zip".

(** The body of the [try] block. *)
Definition tryGenerate (recipients : list BatchRecipient.t) (canvas : Canvas.t)
    (run : Run.t) : Run.t * Outcome Download.t :=
  match loadImage (CertificateTemplate.backgroundImage template) with
  | Throws e => (run, Throws e)
  | Unmodelled => (run, Unmodelled)
  | Returns templateImg =>
      match loadImageElements imageElements with
      | Throws e => (run, Throws e)
      | Unmodelled => (run, Unmodelled)
      | Returns imageElementsLoaded =>
          match generateEach 0 recipients templateImg imageElementsLoaded canvas ∅ run with
          | (run, Throws e) => (run, Throws e)
          | (run, Unmodelled) => (run, Unmodelled)
          | (run, Returns zip) =>
              let run := emit (update (finish (List.length recipients)) run) in
              match generateAsyncFailure world with
              | Some e => (run, Throws e)
              | None =>
                  (run, Returns {| Download.filename := zipFilename;
                                   Download.entries := zip |})
              end
          end
      end
  end.

Definition generateBatch (recipients : list BatchRecipient.t) : BatchResult.t :=
  let canvas :=
    {| Canvas.width := CertificateTemplate.width template;
       Canvas.height := CertificateTemplate.height template;
       Canvas.calls := [] |} in
  let progress :=
    {| BatchProgress.total := List.length recipients;
       BatchProgress.current := 0;
       BatchProgress.currentName := None;
       BatchProgress.status := Status.processing;
       BatchProgress.error := None |} in
  let run := emit {| Run.progress := progress; Run.emitted := [] |} in
  match tryGenerate recipients canvas run with
  | (run, Returns download) =>
      {| BatchResult.events := Run.emitted run;
         BatchResult.settled := Returns tt;
         BatchResult.downloads := [download] |}
  | (run, Throws e) =>
      let run := emit (update (fail (thrownMessage e (str "Unknown error occurred"))) run) in
      {| BatchResult.events := Run.emitted run;
         BatchResult.settled := Throws e;
         BatchResult.downloads := [] |}
  | (run, Unmodelled) =>
      {| BatchResult.events := Run.emitted run;
         BatchResult.settled := Unmodelled;
         BatchResult.downloads := [] |}
  end.

End Batch.

(** ** The preview *)

(** [generatePreview]: the canvas is sized, which clears it, the images
    are loaded, the certificate is rendered and the canvas is encoded;
    nothing is caught. *)
Definition generatePreview (recipient : BatchRecipient.t) (template : CertificateTemplate.t)
    (textElements : list TextElement.t) (imageElements : list ImageElement.t)
  : Outcome DataURL :=
  let canvas :=
    {| Canvas.width := CertificateTemplate.width template;
       Canvas.height := CertificateTemplate.height template;
       Canvas.calls := [] |} in
  let* templateImg := loadImage (CertificateTemplate.backgroundImage template) in
  let* imageElementsLoaded := loadImageElements imageElements in
  let* canvas :=
    renderCertificate canvas template textElements imageElements recipient
                      templateImg imageElementsLoaded in
  Returns canvas.

(** ** The placeholder scanner *)

(** [match[i]]: the text of the group [i] of a match, when the group took
    part in it. *)
Definition matchGroup (y : RegExp.MatchState) (i : nat) : option jsstring :=
  option_map snd (List.find (fun p => fst p =? i) (RegExp.captures y)).

(** [placeholders.add(key)]: a [Set] keeps its members in the order of
    their first insertion. *)
Definition setAdd (key : jsstring) (placeholders : list jsstring) : list jsstring :=
  if existsb (sameString key) placeholders then placeholders else placeholders ++ [key].

(** [regex.exec(text)] for a pattern with the [g] flag whose [lastIndex]
    is [lastIndex]: the match, if any, and the value [lastIndex] is left
    with, the end of the match or 0 when there is none. *)
Definition exec (regex : RegExp.RegExpObject) (text : jsstring) (lastIndex : nat)
  : Outcome (option RegExp.MatchState * nat) :=
  if List.length text <? lastIndex then Returns (None, 0)
  else
    match RegExp.execFrom regex lastIndex (skipn lastIndex text) with
    | RegExp.notFound => Returns (None, 0)
    | RegExp.foundAt _ _ y => Returns (Some y, RegExp.endIndex y)
    | RegExp.execExhausted => Unmodelled
    end.

(** The [while] loop over the matches of one text.  The loop ends when
    [exec] finds nothing more; [fuel] bounds its iterations, and a group
    that took no part in a match is [undefined], which the set of the
    model does not hold. *)
Fixpoint collectMatches (fuel : nat) (regex : RegExp.RegExpObject) (text : jsstring)
    (lastIndex : nat) (placeholders : list jsstring) : Outcome (list jsstring * nat) :=
  match fuel with
  | 0 => Unmodelled
  | S fuel' =>
      let* (found, lastIndex) := exec regex text lastIndex in
      match found with
      | None => Returns (placeholders, lastIndex)
      | Some y =>
          match matchGroup y 1 with
          | Some key => collectMatches fuel' regex text lastIndex (setAdd key placeholders)
          | None => Unmodelled
          end
      end
  end.

(** The [forEach] over the text elements: the pattern object, and with it
    [lastIndex], is shared by the iterations. *)
Fixpoint scanElements (regex : RegExp.RegExpObject) (textElements : list TextElement.t)
    (lastIndex : nat) (placeholders : list jsstring) : Outcome (list jsstring * nat) :=
  match textElements with
  | [] => Returns (placeholders, lastIndex)
  | element :: rest =>
      let text := TextElement.text element in
      let* (placeholders, lastIndex) :=
        collectMatches (S (S (List.length text))) regex text lastIndex placeholders in
      scanElements regex rest lastIndex placeholders
  end.

Definition extractPlaceholders (textElements : list TextElement.t)
  : Outcome (list jsstring) :=
  let* regex := newRegExp (str "\{\{([^}]+)\}\}") false in
  let* (placeholders, _) := scanElements regex textElements 0 [] in
  Returns placeholders.

End Runtime.

(** ** The generator page and the canvas *)

Module ElementType.
Inductive t : Type := text | image.
End ElementType.

(** [Partial<TextElement>] and [Partial<ImageElement>]: the fields an
    update gives, each with a value of the type of the field. *)
Module TextUpdates.
Record t : Type := {
  id : option jsstring;
  text : option jsstring;
  position : option Position.t;
  fontSize : option Z;
  fontFamily : option jsstring;
  color : option jsstring;
  fontWeight : option FontWeight.t;
  fontStyle : option FontStyle.t;
  textAlign : option TextAlign.t
}.
End TextUpdates.

Module ImageUpdates.
Record t : Type := {
  id : option jsstring;
  src : option jsstring;
  position : option Position.t;
  width : option Z;
  height : option Z;
  type : option ImageKind.t
}.
End ImageUpdates.

(** A field of [{ ...el, ...updates }]. *)
Definition spread {A : Type} (current : A) (given : option A) : A :=
  match given with
  | Some value => value
  | None => current
  end.

(** [{ ...el, ...updates }]. *)
Definition mergeText (el : TextElement.t) (updates : TextUpdates.t) : TextElement.t :=
  {| TextElement.id := spread (TextElement.id el) (TextUpdates.id updates);
     TextElement.text := spread (TextElement.text el) (TextUpdates.text updates);
     TextElement.position := spread (TextElement.position el) (TextUpdates.position updates);
     TextElement.fontSize := spread (TextElement.fontSize el) (TextUpdates.fontSize updates);
     TextElement.fontFamily :=
       spread (TextElement.fontFamily el) (TextUpdates.fontFamily updates);
     TextElement.color := spread (TextElement.color el) (TextUpdates.color updates);
     TextElement.fontWeight :=
       spread (TextElement.fontWeight el) (TextUpdates.fontWeight updates);
     TextElement.fontStyle := spread (TextElement.fontStyle el) (TextUpdates.fontStyle updates);
     TextElement.textAlign :=
       spread (TextElement.textAlign el) (TextUpdates.textAlign updates) |}.

Definition mergeImage (el : ImageElement.t) (updates : ImageUpdates.t) : ImageElement.t :=
  {| ImageElement.id := spread (ImageElement.id el) (ImageUpdates.id updates);
     ImageElement.src := spread (ImageElement.src el) (ImageUpdates.src updates);
     ImageElement.position :=
       spread (ImageElement.position el) (ImageUpdates.position updates);
     ImageElement.width := spread (ImageElement.width el) (ImageUpdates.width updates);
     ImageElement.height := spread (ImageElement.height el) (ImageUpdates.height updates);
     ImageElement.type := spread (ImageElement.type el) (ImageUpdates.type updates) |}.

(** The state of [GeneratorContent]: the values of its five [useState]
    hooks.  A handler runs on the state of the render that created it,
    and the state after it is what it gave to the setters. *)
Module Generator.
Record t : Type := {
  template : option CertificateTemplate.t;
  textElements : list TextElement.t;
  imageElements : list ImageElement.t;
  selectedElement : option jsstring;
  selectedElementType : option ElementType.t
}.
End Generator.

(** [id === selectedElement], where [selectedElement] is a string or
    [null]. *)
Definition isSelected (selectedElement : option jsstring) (id : jsstring) : bool :=
  match selectedElement with
  | Some selected => sameString id selected
  | None => false
  end.

(** The element [addTextElement] creates when the clock shows [now]. *)
Definition newTextElement (now : N) : TextElement.t :=
  {| TextElement.id := str "text-" ++ showN now;
     TextElement.text := str "New Text";
     TextElement.position := {| Position.x := 100; Position.y := 100 |};
     TextElement.fontSize := 24;
     TextElement.fontFamily := str "Arial";
     TextElement.color := str "#000000";
     TextElement.fontWeight := FontWeight.normal;
     TextElement.fontStyle := FontStyle.normal;
     TextElement.textAlign := TextAlign.left |}.

Definition addTextElement (now : N) (state : Generator.t) : Generator.t :=
  let newText := newTextElement now in
  {| Generator.template := Generator.template state;
     Generator.textElements := Generator.textElements state ++ [newText];
     Generator.imageElements := Generator.imageElements state;
     Generator.selectedElement := Some (TextElement.id newText);
     Generator.selectedElementType := Some ElementType.text |}.

Definition newImageElement (now : N) (src : jsstring) : ImageElement.t :=
  {| ImageElement.id := str "image-" ++ showN now;
     ImageElement.src := src;
     ImageElement.position := {| Position.x := 150; Position.y := 150 |};
     ImageElement.width := 150;
     ImageElement.height := 100;
     ImageElement.type := ImageKind.signature |}.

Definition addImageElement (now : N) (src : jsstring) (state : Generator.t) : Generator.t :=
  let newImage := newImageElement now src in
  {| Generator.template := Generator.template state;
     Generator.textElements := Generator.textElements state;
     Generator.imageElements := Generator.imageElements state ++ [newImage];
     Generator.selectedElement := Some (ImageElement.id newImage);
     Generator.selectedElementType := Some ElementType.image |}.

Definition updateTextElement (id : jsstring) (updates : TextUpdates.t)
    (state : Generator.t) : Generator.t :=
  {| Generator.template := Generator.template state;
     Generator.textElements :=
       List.map (fun el => if sameString (TextElement.id el) id
                           then mergeText el updates else el)
                (Generator.textElements state);
     Generator.imageElements := Generator.imageElements state;
     Generator.selectedElement := Generator.selectedElement state;
     Generator.selectedElementType := Generator.selectedElementType state |}.

Definition updateImageElement (id : jsstring) (updates : ImageUpdates.t)
    (state : Generator.t) : Generator.t :=
  {| Generator.template := Generator.template state;
     Generator.textElements := Generator.textElements state;
     Generator.imageElements :=
       List.map (fun el => if sameString (ImageElement.id el) id
                           then mergeImage el updates else el)
                (Generator.imageElements state);
     Generator.selectedElement := Generator.selectedElement state;
     Generator.selectedElementType := Generator.selectedElementType state |}.

Definition deleteElement (state : Generator.t) : Generator.t :=
  let selected := Generator.selectedElement state in
  {| Generator.template := Generator.template state;
     Generator.textElements :=
       match Generator.selectedElementType state with
       | Some ElementType.text =>
           List.filter (fun el => negb (isSelected selected (TextElement.id el)))
                       (Generator.textElements state)
       | _ => Generator.textElements state
       end;
     Generator.imageElements :=
       match Generator.selectedElementType state with
       | Some ElementType.image =>
           List.filter (fun el => negb (isSelected selected (ImageElement.id el)))
                       (Generator.imageElements state)
       | _ => Generator.imageElements state
       end;
     Generator.selectedElement := None;
     Generator.selectedElementType := None |}.

(** The [onSelectElement] the page gives to the canvas. *)
Definition onSelectElement (id : jsstring) (type : ElementType.t) (state : Generator.t)
  : Generator.t :=
  {| Generator.template := Generator.template state;
     Generator.textElements := Generator.textElements state;
     Generator.imageElements := Generator.imageElements state;
     Generator.selectedElement := Some id;
     Generator.selectedElementType := Some type |}.

Definition selectedTextElement (state : Generator.t) : option TextElement.t :=
  List.find (fun el => isSelected (Generator.selectedElement state) (TextElement.id el))
            (Generator.textElements state).

Definition selectedImageElement (state : Generator.t) : option ImageElement.t :=
  List.find (fun el => isSelected (Generator.selectedElement state) (ImageElement.id el))
            (Generator.imageElements state).

(** The state of a [DraggableElement]: the values of its two [useState]
    hooks. *)
Module Draggable.
Record t : Type := { isDragging : bool; dragStart : Position.t }.
End Draggable.

(** [handleMouseDown] on an element at [position], for a pointer at
    [(clientX, clientY)]; it also calls [onSelect]. *)
Definition handleMouseDown (position : Position.t) (clientX clientY : Z)
    (drag : Draggable.t) : Draggable.t :=
  {| Draggable.isDragging := true;
     Draggable.dragStart := {| Position.x := (clientX - Position.x position)%Z;
                               Position.y := (clientY - Position.y position)%Z |} |}.

(** [handleMouseMove]: the arguments [onDrag] is called with, if it is
    called. *)
Definition handleMouseMove (clientX clientY : Z) (drag : Draggable.t) : option (Z * Z) :=
  if Draggable.isDragging drag then
    let newX := (clientX - Position.x (Draggable.dragStart drag))%Z in
    let newY := (clientY - Position.y (Draggable.dragStart drag))%Z in
    Some (Z.max 0 newX, Z.max 0 newY)
  else None.

Definition handleMouseUp (drag : Draggable.t) : Draggable.t :=
  {| Draggable.isDragging := false; Draggable.dragStart := Draggable.dragStart drag |}.

(** The update [{ position: { x, y } }]. *)
Definition positionUpdate (x y : Z) : TextUpdates.t :=
  {| TextUpdates.id := None; TextUpdates.text := None;
     TextUpdates.position := Some {| Position.x := x; Position.y := y |};
     TextUpdates.fontSize := None; TextUpdates.fontFamily := None;
     TextUpdates.color := None; TextUpdates.fontWeight := None;
     TextUpdates.fontStyle := None; TextUpdates.textAlign := None |}.

(** The page and the element under the pointer: what a mouse event on
    a text element of the canvas works on. *)
Definition Dragging : Type := (Draggable.t * Generator.t)%type.

(** A press on the text element [element]: [handleMouseDown], whose
    [onSelect] is the page's [onSelectElement(element.id, "text")]. *)
Definition pressTextElement (element : TextElement.t) (clientX clientY : Z)
    (page : Dragging) : Dragging :=
  (handleMouseDown (TextElement.position element) clientX clientY (fst page),
   onSelectElement (TextElement.id element) ElementType.text (snd page)).

(** A pointer move: the [onDrag] the canvas gives to the element calls
    [onUpdateTextElement], which is the page's [updateTextElement]. *)
Definition moveTextElement (element : TextElement.t) (clientX clientY : Z)
    (page : Dragging) : Dragging :=
  match handleMouseMove clientX clientY (fst page) with
  | Some (x, y) =>
      (fst page, updateTextElement (TextElement.id element) (positionUpdate x y) (snd page))
  | None => page
  end.

Definition releaseTextElement (page : Dragging) : Dragging :=
  (handleMouseUp (fst page), snd page).

(** What [handleDownload] does to the page, once its timers have run and
    when no other event comes in between: it deselects, and in the
    [finally] block selects the earlier element again.  [canvasReady] is
    [canvasRef.current] being set; the capture itself and the link do not
    touch the state of the page, and the [finally] block runs whether the
    capture succeeds or not.  [if (previousSelection)] holds for a string
    that is not empty. *)
Definition handleDownload (canvasReady : bool) (state : Generator.t) : Generator.t :=
  if canvasReady then
    let previousSelection := Generator.selectedElement state in
    let state := onSelectElement [] ElementType.text state in
    match previousSelection with
    | Some (c :: selected) => onSelectElement (c :: selected) ElementType.text state
    | _ => state
    end
  else state.

(** The page as it is first rendered. *)
Definition initialPage : Generator.t :=
  {| Generator.template := None;
     Generator.textElements := [];
     Generator.imageElements := [];
     Generator.selectedElement := None;
     Generator.selectedElementType := None |}.

(** * Reference definitions

    Definitions that follow the wording of the specification or name the
    notions the properties are stated with, and the sample data of the
    scenarios. *)

(** ** Characters and tokens *)

(** Case analysis over the 256 code units. *)
Ltac each_character c :=
  destruct c as [[] [] [] [] [] [] [] []].

(** The characters with a meaning of their own in a pattern. *)
Definition syntaxCharacters : jsstring := str "^$\.*+?()[]{}|".

(** A character that stands for itself in a pattern. *)
Definition plainChar (c : ascii) : bool :=
  negb (existsb (Ascii.eqb c) syntaxCharacters).

(** A key without syntax characters. *)
Definition plainKey (key : jsstring) : bool := forallb plainChar key.

(** Entries whose keys hold no syntax character. *)
Definition plainKeys (entries : list (jsstring * jsstring)) : bool :=
  forallb (fun entry => plainKey (fst entry)) entries.

(** The token [{{key}}]. *)
Definition token (key : jsstring) : jsstring := str "{{" ++ key ++ str "}}".

(** The pattern that matches the characters of [p] one after the other. *)
Definition literal (p : jsstring) : RegExp.regex :=
  fold_right (fun c r => RegExp.RSeq (RegExp.RChar c) r) RegExp.REmpty p.

(** Whether [text] starts with [p], compared under Canonicalize. *)
Fixpoint startsWith (ignoreCase : bool) (p text : jsstring) : bool :=
  match p, text with
  | [], _ => true
  | c :: p', a :: text' =>
      RegExp.sameCanonical ignoreCase c a && startsWith ignoreCase p' text'
  | _ :: _, [] => false
  end.

(** The length matched by a literal pattern. *)
Definition literalLength (ignoreCase : bool) (p : jsstring) (index : nat) (text : jsstring)
  : option nat :=
  if startsWith ignoreCase p text then Some (List.length p) else None.

(** The state after a match of [n] characters that captures nothing. *)
Definition advance (x : RegExp.MatchState) (n : nat) : RegExp.MatchState :=
  {| RegExp.endIndex := RegExp.endIndex x + n;
     RegExp.remaining := skipn n (RegExp.remaining x);
     RegExp.captures := RegExp.captures x |}.

(** A text up to case: the canonical forms of its code units. *)
Definition canonical (text : jsstring) : list N :=
  List.map (RegExp.Canonicalize true) text.

(** Whether two texts are equal up to case. *)
Definition sameIgnoringCase (a b : jsstring) : bool :=
  (List.length a =? List.length b) && startsWith true a b.

(** A replacement value without dollar sign. *)
Definition dollarFree (value : jsstring) : bool :=
  forallb (fun c => negb (Ascii.eqb c "$"%char)) value.

(** Whether two opening braces occur side by side. *)
Fixpoint hasOpenBraces (text : jsstring) : bool :=
  match text with
  | a :: (b :: _) as text' =>
      (Ascii.eqb a "{"%char && Ascii.eqb b "{"%char) || hasOpenBraces text'
  | _ => false
  end.

(** A text without braces. *)
Definition braceFree (text : jsstring) : bool :=
  forallb (fun c => negb (Ascii.eqb c "{"%char) && negb (Ascii.eqb c "}"%char)) text.

(** ** The specification's substitution *)

(** The specification's replacement for a pattern that, at a position,
    matches a prefix of a known, positive length or nothing: scanning from
    the left, every match is replaced by [value]; [index] is the position
    of [text] in the input and [skip] counts the characters of a match
    still to pass over. *)
Fixpoint replaceMatches (matchLength : nat -> jsstring -> option nat) (value : jsstring)
    (index skip : nat) (text : jsstring) : jsstring :=
  match text with
  | [] => []
  | a :: text' =>
      match skip with
      | S skip' => replaceMatches matchLength value (S index) skip' text'
      | 0 =>
          match matchLength index text with
          | Some n => value ++ replaceMatches matchLength value (S index) (n - 1) text'
          | None => a :: replaceMatches matchLength value (S index) 0 text'
          end
      end
  end.

(** The specification's substitution of one token: scanning from the
    left, every occurrence of [p] is replaced by [value]; [skip] counts
    the characters of an occurrence still to pass over. *)
Fixpoint replaceEvery (ignoreCase : bool) (p value : jsstring) (skip : nat)
    (text : jsstring) : jsstring :=
  match text with
  | [] => []
  | a :: text' =>
      match skip with
      | S skip' => replaceEvery ignoreCase p value skip' text'
      | 0 =>
          if startsWith ignoreCase p text
          then value ++ replaceEvery ignoreCase p value (List.length p - 1) text'
          else a :: replaceEvery ignoreCase p value 0 text'
      end
  end.

(** The specification's substitution of the custom fields, in the order
    of the entries. *)
Definition replaceEveryCustom (entries : list (jsstring * jsstring)) (text : jsstring)
  : jsstring :=
  fold_left (fun result entry => replaceEvery true (token (fst entry)) (snd entry) 0 result)
            entries text.

(** The custom entries of a recipient, none when it has no custom fields. *)
Definition entriesOf (recipient : BatchRecipient.t) : list (jsstring * jsstring) :=
  match BatchRecipient.customFields recipient with
  | Some entries => entries
  | None => []
  end.

(** The entries of a recipient are well-behaved when no key holds a
    syntax character of patterns and no value holds a dollar sign. *)
Definition plainEntries (entries : list (jsstring * jsstring)) : bool :=
  forallb (fun entry => plainKey (fst entry) && dollarFree (snd entry)) entries.

(** A recipient is well-behaved when, moreover, its name, title and date
    hold no dollar sign. *)
Definition plainRecipient (recipient : BatchRecipient.t) : bool :=
  dollarFree (BatchRecipient.name recipient)
  && dollarFree (orEmpty (BatchRecipient.title recipient))
  && dollarFree (orEmpty (BatchRecipient.date recipient))
  && plainEntries (entriesOf recipient).

(** The specification's [substitute]: name, then title, then date, then
    the custom fields, each replacing every occurrence of its token. *)
Definition substitute (text : jsstring) (recipient : BatchRecipient.t) : jsstring :=
  replaceEveryCustom (entriesOf recipient)
    (replaceEvery true (token (str "date")) (orEmpty (BatchRecipient.date recipient)) 0
       (replaceEvery true (token (str "title")) (orEmpty (BatchRecipient.title recipient)) 0
          (replaceEvery true (token (str "name")) (BatchRecipient.name recipient) 0 text))).

(** The unknown keys of claim C9: the keys of the recipient hold no
    syntax character and differ from [k] by more than case. *)
Definition unrelatedKeys (k : jsstring) (entries : list (jsstring * jsstring)) : bool :=
  forallb (fun entry => plainKey (fst entry) && negb (sameIgnoringCase (fst entry) k))
          entries.

(** ** The specification's file names *)

(** The letters and digits of ASCII. *)
Definition isAsciiAlphaNum (c : ascii) : bool :=
  let n := codeUnit c in
  ((48 <=? n) && (n <=? 57) || (65 <=? n) && (n <=? 90) || (97 <=? n) && (n <=? 122))%N.

(** The underscore. *)
Definition isUnderscore (c : ascii) : bool := Ascii.eqb c "_"%char.

(** A character outside the letters and digits becomes an underscore. *)
Definition mask (c : ascii) : ascii := if isAsciiAlphaNum c then c else "_"%char.

(** A run of underscores becomes one underscore: an underscore in front
    of an underscore is dropped. *)
Fixpoint collapse (s : jsstring) : jsstring :=
  match s with
  | [] => []
  | a :: s' =>
      if isUnderscore a && match s' with b :: _ => isUnderscore b | [] => false end
      then collapse s' else a :: collapse s'
  end.

(** An underscore at the front is removed. *)
Definition stripLeading (s : jsstring) : jsstring :=
  match s with
  | a :: s' => if isUnderscore a then s' else s
  | [] => []
  end.

(** An underscore at the end is removed. *)
Fixpoint stripTrailing (s : jsstring) : jsstring :=
  match s with
  | [] => []
  | a :: s' =>
      match s' with
      | [] => if isUnderscore a then [] else [a]
      | _ :: _ => a :: stripTrailing s'
      end
  end.

(** The specification's file-safe name: every run of characters outside
    the letters and digits becomes one underscore, the underscores at the
    two ends are removed, and the letters are lower-cased. *)
Definition sanitized (name : jsstring) : jsstring :=
  toLowerCase (stripTrailing (stripLeading (collapse (List.map mask name)))).

(** The name of the archive entry of a recipient. *)
Definition entryName (recipient : BatchRecipient.t) : jsstring :=
  str "certificate_" ++ sanitized (BatchRecipient.name recipient) ++ str ".png".

(** The length of the run of underscores at the front. *)
Fixpoint leadingUnderscores (s : jsstring) : nat :=
  match s with
  | a :: s' => if isUnderscore a then S (leadingUnderscores s') else 0
  | [] => 0
  end.

(** The lengths matched by the three patterns of [sanitizeFilename]. *)
Definition maskLength (index : nat) (text : jsstring) : option nat :=
  match text with
  | ch :: _ => if isAsciiAlphaNum ch then None else Some 1
  | [] => None
  end.

Definition runLength (index : nat) (text : jsstring) : option nat :=
  match leadingUnderscores text with
  | 0 => None
  | S k => Some (S k)
  end.

Definition endLength (index : nat) (text : jsstring) : option nat :=
  match text with
  | a :: text' =>
      if isUnderscore a && ((index =? 0) || match text' with [] => true | _ => false end)
      then Some 1 else None
  | [] => None
  end.

(** The three patterns of [sanitizeFilename], parsed. *)
Definition maskPattern : RegExp.RegExpObject :=
  {| RegExp.tree :=
       RegExp.RSeq (RegExp.RSet true [RegExp.CRange "a" "z"; RegExp.CRange "0" "9"])
                   RegExp.REmpty;
     RegExp.nCaptures := 0;
     RegExp.ignoreCase := true |}.

Definition runPattern : RegExp.RegExpObject :=
  {| RegExp.tree :=
       RegExp.RSeq (RegExp.RRepeat (RegExp.RChar "_") 1 None true 0 0) RegExp.REmpty;
     RegExp.nCaptures := 0;
     RegExp.ignoreCase := false |}.

Definition endPattern : RegExp.RegExpObject :=
  {| RegExp.tree :=
       RegExp.RAlt
         (RegExp.RSeq RegExp.RBol (RegExp.RSeq (RegExp.RChar "_") RegExp.REmpty))
         (RegExp.RSeq (RegExp.RChar "_") (RegExp.RSeq RegExp.REol RegExp.REmpty));
     RegExp.nCaptures := 0;
     RegExp.ignoreCase := false |}.

(** ** The validator and the loader *)

(** The errors the validator is specified to report for one recipient:
    one per required key whose value is falsy, in the order of the keys. *)
Definition missingFields (recipient : BatchRecipient.t) (index : nat)
    (requiredKeys : list jsstring) : list jsstring :=
  List.map (missingFieldMessage index recipient)
           (List.filter (fun key => falsy (resolveValue recipient key)) requiredKeys).

(** The errors for a whole list, recipient after recipient. *)
Definition allMissingFields (recipients : list BatchRecipient.t)
    (requiredKeys : list jsstring) : list jsstring :=
  List.concat (imap (fun index recipient => missingFields recipient index requiredKeys)
               recipients).

(** The field a recipient has under a key, the key taken as it is
    written: the standard fields under [name], [title] and [date], a
    custom field under its own key. *)
Definition fieldOf (recipient : BatchRecipient.t) (key : jsstring) : option jsstring :=
  if sameString key (str "name") then Some (BatchRecipient.name recipient)
  else if sameString key (str "title") then BatchRecipient.title recipient
  else if sameString key (str "date") then BatchRecipient.date recipient
  else ownProperty key (entriesOf recipient).

(** A field is missing when it is absent or the empty string. *)
Definition isMissing (recipient : BatchRecipient.t) (key : jsstring) : bool :=
  match fieldOf recipient key with
  | Some (_ :: _) => false
  | Some [] => true
  | None => true
  end.

(** A record has a usable name when its [name] member is a non-empty
    string. *)
Definition hasValidName (record : JSON) : bool :=
  match record with
  | JObject members =>
      match ownProperty (str "name") members with
      | Some (JString (_ :: _)) => true
      | _ => false
      end
  | _ => false
  end.

(** The value [null]. *)
Definition isNull (value : JSON) : bool :=
  match value with
  | JNull => true
  | _ => false
  end.

(** The record the loader returns for the members of a valid record. *)
Definition defaulted (name : jsstring) (members : list (jsstring * JSON))
  : LoadedRecipient.t :=
  {| LoadedRecipient.name := name;
     LoadedRecipient.title := orElseJSON (ownProperty (str "title") members) (JString []);
     LoadedRecipient.date := orElseJSON (ownProperty (str "date") members) (JString []);
     LoadedRecipient.customFields :=
       orElseJSON (ownProperty (str "customFields") members) (JObject []) |}.

(** A returned record comes from an element, valid or not. *)
Inductive LoadedFrom : JSON -> LoadedRecipient.t -> Prop :=
| loaded_from members name :
    ownProperty (str "name") members = Some (JString name) ->
    name <> [] ->
    LoadedFrom (JObject members) (defaulted name members).

(** ** The events and the failures of a run *)

(** The failures a run can meet, by the step they come from. *)
Inductive Failure (engine : Engine) (world : World) : Thrown -> Prop :=
| image_load_failure src :
    Failure engine world (ErrorObject (str "Failed to load image: " ++ src))
| render_failure source :
    Failure engine world (ErrorObject (regexpSyntaxErrorMessage engine source))
| encode_failure :
    Failure engine world (ErrorObject (str "Failed to convert canvas to blob"))
| archive_failure e :
    generateAsyncFailure world = Some e -> Failure engine world e.

(** The message the catch block of [generateBatch] records. *)
Definition errorText (e : Thrown) : jsstring :=
  thrownMessage e (str "Unknown error occurred").

(** The event emitted before the images are loaded. *)
Definition initialEvent (total : nat) : BatchProgress.t :=
  {| BatchProgress.total := total;
     BatchProgress.current := 0;
     BatchProgress.currentName := None;
     BatchProgress.status := Status.processing;
     BatchProgress.error := None |}.

(** The event emitted on entering the iteration of the recipient at
    index [i]. *)
Definition recipientEvent (total i : nat) (recipient : BatchRecipient.t)
  : BatchProgress.t :=
  {| BatchProgress.total := total;
     BatchProgress.current := i;
     BatchProgress.currentName := Some (BatchRecipient.name recipient);
     BatchProgress.status := Status.processing;
     BatchProgress.error := None |}.

(** The [current] values of a sequence of events. *)
Definition currents (events : list BatchProgress.t) : list nat :=
  List.map BatchProgress.current events.

(** What the callback receives from a list of values of the progress
    object: nothing when the caller passed none. *)
Definition receivedBy (onProgress : bool) (values : list BatchProgress.t)
  : list BatchProgress.t :=
  if onProgress then values else [].

(** The events of the loop over the first [k] recipients. *)
Definition loopEvents (recipients : list BatchRecipient.t) (k : nat)
  : list BatchProgress.t :=
  imap (recipientEvent (List.length recipients)) (take k recipients).

(** The value of the progress object when the loop stops after [k]
    recipients. *)
Definition afterLoop (recipients : list BatchRecipient.t) (k : nat) : BatchProgress.t :=
  List.last (loopEvents recipients k) (initialEvent (List.length recipients)).

(** Every value is below every later value. *)
Definition strictlyIncreasing (l : list nat) : Prop := StronglySorted lt l.

(** No value is above a later value. *)
Definition neverDecreases (l : list nat) : Prop := StronglySorted le l.

(** ** The placeholders of a text *)

(** The opening brace and the closing brace. *)
Definition isOpening (c : ascii) : bool := Ascii.eqb c "{"%char.

Definition isClosing (c : ascii) : bool := Ascii.eqb c "}"%char.

(** The longest prefix of a text that holds no closing brace. *)
Fixpoint keyRun (text : jsstring) : jsstring :=
  match text with
  | c :: text' => if isClosing c then [] else c :: keyRun text'
  | [] => []
  end.

(** The key of the placeholder a text starts with: two opening braces,
    the longest run of characters other than the closing brace, which is
    not empty, and two closing braces. *)
Definition placeholderAt (text : jsstring) : option jsstring :=
  match text with
  | a :: b :: rest =>
      if isOpening a && isOpening b then
        match keyRun rest with
        | [] => None
        | c :: key =>
            if startsWith false (str "}}") (skipn (List.length (c :: key)) rest)
            then Some (c :: key) else None
        end
      else None
  | _ => None
  end.

(** The keys of the placeholders of a text, scanning from the left; the
    scan goes on behind a placeholder, and [skip] counts the characters of
    a placeholder still to pass over. *)
Fixpoint placeholdersOf (skip : nat) (text : jsstring) : list jsstring :=
  match text with
  | [] => []
  | _ :: text' =>
      match skip with
      | S skip' => placeholdersOf skip' text'
      | 0 =>
          match placeholderAt text with
          | Some key => key :: placeholdersOf (List.length key + 3) text'
          | None => placeholdersOf 0 text'
          end
      end
  end.

(** The keys of the placeholders of the text elements, element after
    element. *)
Definition allPlaceholders (textElements : list TextElement.t) : list jsstring :=
  List.concat (List.map (fun element => placeholdersOf 0 (TextElement.text element))
                        textElements).

(** The set after the keys are added one after the other. *)
Definition addAll (keys placeholders : list jsstring) : list jsstring :=
  fold_left (fun set key => setAdd key set) keys placeholders.

Definition distinct (keys : list jsstring) : list jsstring := addAll keys [].

(** The members of a list in the order of their first occurrence, each
    once. *)
Fixpoint firstOccurrences (keys : list jsstring) : list jsstring :=
  match keys with
  | [] => []
  | key :: keys' =>
      key :: List.filter (fun other => negb (sameString key other)) (firstOccurrences keys')
  end.

(** The members of [keys] that [placeholders] does not hold. *)
Definition newKeys (placeholders keys : list jsstring) : list jsstring :=
  List.filter (fun key => negb (existsb (sameString key) placeholders)) keys.

(** The pattern of [extractPlaceholders], parsed. *)
Definition extractPattern : RegExp.RegExpObject :=
  {| RegExp.tree :=
       RegExp.RSeq (RegExp.RChar "{")
         (RegExp.RSeq (RegExp.RChar "{")
            (RegExp.RSeq
               (RegExp.RGroup 1
                  (RegExp.RSeq
                     (RegExp.RRepeat (RegExp.RSet true [RegExp.CChar "}"]) 1 None true 1 0)
                     RegExp.REmpty))
               (literal (str "}}"))));
     RegExp.nCaptures := 1;
     RegExp.ignoreCase := false |}.

(** The state a match of the pattern ends in: the key is the first
    group. *)
Definition placeholderMatch (index : nat) (rest key : jsstring) : RegExp.MatchState :=
  {| RegExp.endIndex := index + (List.length key + 4);
     RegExp.remaining := skipn (List.length key + 4) rest;
     RegExp.captures := [(1, key)] |}.

(** A text written as a sequence of parts: literal text and
    placeholders. *)
Inductive Part : Type :=
| Literal (text : jsstring)
| Placeholder (key : jsstring).

Definition partText (part : Part) : jsstring :=
  match part with
  | Literal text => text
  | Placeholder key => token key
  end.

Definition templateText (parts : list Part) : jsstring :=
  List.concat (List.map partText parts).

(** A literal part holds no opening brace; the key of a placeholder is
    not empty and holds no closing brace. *)
Definition wellFormedPart (part : Part) : bool :=
  match part with
  | Literal text => forallb (fun c => negb (isOpening c)) text
  | Placeholder key =>
      match key with
      | [] => false
      | _ :: _ => forallb (fun c => negb (isClosing c)) key
      end
  end.

(** The keys of the placeholders among the parts, in order. *)
Definition keysOf (parts : list Part) : list jsstring :=
  List.concat (List.map (fun part => match part with
                                    | Literal _ => []
                                    | Placeholder key => [key]
                                    end) parts).

(** ** Dollar patterns *)

(** The characters that, behind a dollar sign, make a pattern of
    [String.prototype.replace] whatever the regular expression. *)
Definition isDollarPattern (c : ascii) : bool :=
  existsb (Ascii.eqb c) (str "$&`'").

(** A replacement value in which no dollar sign is followed by [$], [&],
    a backquote or a quote. *)
Fixpoint dollarSafe (value : jsstring) : bool :=
  match value with
  | [] => true
  | c :: value' =>
      negb (Ascii.eqb c "$"%char
            && match value' with d :: _ => isDollarPattern d | [] => false end)
      && dollarSafe value'
  end.

(** Entries whose keys hold no syntax character of patterns and whose
    values hold no dollar pattern. *)
Definition safeEntries (entries : list (jsstring * jsstring)) : bool :=
  forallb (fun entry => plainKey (fst entry) && dollarSafe (snd entry)) entries.

(** A recipient whose name, title and date hold no dollar pattern
    either. *)
Definition safeRecipient (recipient : BatchRecipient.t) : bool :=
  dollarSafe (BatchRecipient.name recipient)
  && dollarSafe (orEmpty (BatchRecipient.title recipient))
  && dollarSafe (orEmpty (BatchRecipient.date recipient))
  && safeEntries (entriesOf recipient).

(** ** The shape of a file name *)

(** A character of a file-safe name: a lower-case letter of ASCII, a
    digit or the underscore. *)
Definition isFileSafe (c : ascii) : bool :=
  let n := codeUnit c in
  ((48 <=? n) && (n <=? 57) || (97 <=? n) && (n <=? 122) || (n =? 95))%N.

(** Whether a name starts with an underscore, ends with one, holds two
    side by side. *)
Definition headUnderscore (s : jsstring) : bool :=
  match s with
  | a :: _ => isUnderscore a
  | [] => false
  end.

Fixpoint lastUnderscore (s : jsstring) : bool :=
  match s with
  | [] => false
  | a :: s' => match s' with [] => isUnderscore a | _ :: _ => lastUnderscore s' end
  end.

Fixpoint hasUnderscoreRun (s : jsstring) : bool :=
  match s with
  | a :: s' => (isUnderscore a && headUnderscore s') || hasUnderscoreRun s'
  | [] => false
  end.

(** The characters left by the first replacement: letters and digits of
    ASCII, and the underscore. *)
Definition isMasked (c : ascii) : bool := isAsciiAlphaNum c || isUnderscore c.

(** The characters of a name other than the underscore. *)
Definition lettersOf (s : jsstring) : jsstring :=
  List.filter (fun c => negb (isUnderscore c)) s.

(** The lower-case form of a capital of ASCII; any other character is
    itself. *)
Definition asciiLowerCase (c : ascii) : ascii :=
  let n := codeUnit c in
  if ((65 <=? n) && (n <=? 90))%N then charOf (n + 32) else c.

(** ** The drawing of a certificate *)

(** The call that draws a loaded image element. *)
Definition imageCall (loaded : ImageElement.t * Image) : DrawCall :=
  drawImage (snd loaded)
            (Position.x (ImageElement.position (fst loaded)))
            (Position.y (ImageElement.position (fst loaded)))
            (ImageElement.width (fst loaded)) (ImageElement.height (fst loaded)).

(** The call that draws a text element with the text [text]. *)
Definition textCall (element : TextElement.t) (text : jsstring) : DrawCall :=
  fillText text (Position.x (TextElement.position element))
           (Position.y (TextElement.position element))
           (fontOf element) (TextElement.color element) (TextElement.textAlign element)
           (str "top").

(** The texts of the elements with the placeholders replaced, element
    after element; the first replacement that throws ends the list. *)
Fixpoint textsOf (engine : Engine) (textElements : list TextElement.t)
    (recipient : BatchRecipient.t) : Outcome (list jsstring) :=
  match textElements with
  | [] => Returns []
  | element :: rest =>
      let* text := replacePlaceholders engine (TextElement.text element) recipient in
      let* texts := textsOf engine rest recipient in
      Returns (text :: texts)
  end.

(** The texts of the elements as the specification's [substitute] gives
    them. *)
Definition substitutedTexts (textElements : list TextElement.t)
    (recipient : BatchRecipient.t) : list jsstring :=
  List.map (fun element => substitute (TextElement.text element) recipient) textElements.

(** The calls of one certificate on a canvas of the size of the
    template: the canvas is cleared, the background is drawn, then the
    image elements in order, then the texts in order. *)
Definition certificateCalls (template : CertificateTemplate.t) (background : Image)
    (loaded : list (ImageElement.t * Image)) (textElements : list TextElement.t)
    (texts : list jsstring) : list DrawCall :=
  clearRect 0 0 (CertificateTemplate.width template) (CertificateTemplate.height template)
  :: drawImage background 0 0 (CertificateTemplate.width template)
                             (CertificateTemplate.height template)
  :: List.map imageCall loaded ++ zip_with textCall textElements texts.

(** A canvas of the size of the template that has received [calls]. *)
Definition canvasWith (template : CertificateTemplate.t) (calls : list DrawCall) : Canvas.t :=
  {| Canvas.width := CertificateTemplate.width template;
     Canvas.height := CertificateTemplate.height template;
     Canvas.calls := calls |}.

(** ** The environment of a run *)

(** Whether the source of an image loads. *)
Definition loads (world : World) (src : jsstring) : bool :=
  match imageFailure world src with
  | None => true
  | Some _ => false
  end.

(** The image elements as [Promise.all] returns them when all load. *)
Definition loadedElements (imageElements : list ImageElement.t)
  : list (ImageElement.t * Image) :=
  List.map (fun element => (element, ImageElement.src element)) imageElements.

(** A world in which no step of a run over the given layout fails: the
    background and the image elements load, every frame is encoded and the
    archive is compressed. *)
Definition calm (world : World) (template : CertificateTemplate.t)
    (imageElements : list ImageElement.t) : Prop :=
  loads world (CertificateTemplate.backgroundImage template) = true
  /\ forallb (fun element => loads world (ImageElement.src element)) imageElements = true
  /\ (forall i, toBlobIsNull world i = false)
  /\ generateAsyncFailure world = None.

(** ** The steps of a run *)

(** The steps of a run that can fail: the loading of the images, and for
    the recipient at an index the rendering and the encoding of its frame,
    and the compression of the archive. *)
Inductive Step : Type :=
| LoadImages
| RenderFrame (index : nat)
| EncodeFrame (index : nat)
| CompressArchive.

(** The background and the image elements all load. *)
Definition imagesLoad (world : World) (template : CertificateTemplate.t)
    (imageElements : list ImageElement.t) : bool :=
  loads world (CertificateTemplate.backgroundImage template)
  && forallb (fun element => loads world (ImageElement.src element)) imageElements.

(** The recipient at [index] gets its frame: the placeholders of every
    text are replaced and the canvas is encoded. *)
Definition framed (engine : Engine) (world : World) (textElements : list TextElement.t)
    (index : nat) (recipient : BatchRecipient.t) : Prop :=
  (exists texts, textsOf engine textElements recipient = Returns texts)
  /\ toBlobIsNull world index = false.

(** Nothing fails before the recipient at [index]: the images load and
    the recipients before it get their frames. *)
Definition reaches (engine : Engine) (world : World) (template : CertificateTemplate.t)
    (textElements : list TextElement.t) (imageElements : list ImageElement.t)
    (recipients : list BatchRecipient.t) (index : nat) : Prop :=
  imagesLoad world template imageElements = true
  /\ forall j recipient,
       j < index -> recipients !! j = Some recipient ->
       framed engine world textElements j recipient.

(** The step is the first of the run to fail, by what the environment and
    the data decide. *)
Definition failsFirst (engine : Engine) (world : World) (template : CertificateTemplate.t)
    (textElements : list TextElement.t) (imageElements : list ImageElement.t)
    (recipients : list BatchRecipient.t) (step : Step) : Prop :=
  match step with
  | LoadImages => imagesLoad world template imageElements = false
  | RenderFrame index =>
      reaches engine world template textElements imageElements recipients index
      /\ exists recipient e,
           recipients !! index = Some recipient
           /\ textsOf engine textElements recipient = Throws e
  | EncodeFrame index =>
      reaches engine world template textElements imageElements recipients index
      /\ exists recipient texts,
           recipients !! index = Some recipient
           /\ textsOf engine textElements recipient = Returns texts
           /\ toBlobIsNull world index = true
  | CompressArchive =>
      reaches engine world template textElements imageElements recipients
              (List.length recipients)
      /\ generateAsyncFailure world <> None
  end.

(** The failure of a step: the error of an image that does not load, what
    the replacement of a placeholder throws, the error of the encoding,
    what the compression rejects with. *)
Definition failureOf (engine : Engine) (world : World) (template : CertificateTemplate.t)
    (textElements : list TextElement.t) (imageElements : list ImageElement.t)
    (recipients : list BatchRecipient.t) (step : Step) (e : Thrown) : Prop :=
  match step with
  | LoadImages =>
      exists src,
        loads world src = false
        /\ (src = CertificateTemplate.backgroundImage template
            \/ exists element, In element imageElements /\ src = ImageElement.src element)
        /\ e = ErrorObject (str "Failed to load image: " ++ src)
  | RenderFrame index =>
      exists recipient source,
        recipients !! index = Some recipient
        /\ textsOf engine textElements recipient = Throws e
        /\ e = ErrorObject (regexpSyntaxErrorMessage engine source)
  | EncodeFrame index => e = ErrorObject (str "Failed to convert canvas to blob")
  | CompressArchive => generateAsyncFailure world = Some e
  end.


(** ** The shape of a document *)

(** The array a document holds under [recipients], when the document is
    an object that holds one. *)
Definition recipientsOf (data : JSON) : option (list JSON) :=
  match data with
  | JObject members =>
      match ownProperty (str "recipients") members with
      | Some (JArray elements) => Some elements
      | _ => None
      end
  | _ => None
  end.

(** ** The elements of a page *)

Definition textIds (state : Generator.t) : list jsstring :=
  List.map TextElement.id (Generator.textElements state).

Definition moveTo (x y : Z) (el : TextElement.t) : TextElement.t :=
  {| TextElement.id := TextElement.id el;
     TextElement.text := TextElement.text el;
     TextElement.position := {| Position.x := x; Position.y := y |};
     TextElement.fontSize := TextElement.fontSize el;
     TextElement.fontFamily := TextElement.fontFamily el;
     TextElement.color := TextElement.color el;
     TextElement.fontWeight := TextElement.fontWeight el;
     TextElement.fontStyle := TextElement.fontStyle el;
     TextElement.textAlign := TextElement.textAlign el |}.

Definition deselected (state : Generator.t) : Generator.t :=
  {| Generator.template := Generator.template state;
     Generator.textElements := Generator.textElements state;
     Generator.imageElements := Generator.imageElements state;
     Generator.selectedElement := None;
     Generator.selectedElementType := None |}.

(** Where a drag that took hold of [element] at [(downX, downY)] puts
    an element of the page when the pointer is at [(clientX, clientY)]. *)
Definition dragged (element : TextElement.t) (downX downY clientX clientY : Z)
    (el : TextElement.t) : TextElement.t :=
  if sameString (TextElement.id el) (TextElement.id element)
  then moveTo (Z.max 0 (Position.x (TextElement.position element) + (clientX - downX)))
              (Z.max 0 (Position.y (TextElement.position element) + (clientY - downY))) el
  else el.

(** The pointer moves of a drag, one [mousemove] event each, with a
    render between two events. *)
Definition dragAlong (element : TextElement.t) (path : list (Z * Z)) (page : Dragging)
  : Dragging :=
  List.fold_left (fun page move => moveTextElement element (fst move) (snd move) page)
                 path page.

(** ** Sample data *)

(** An engine with messages in the style of V8. *)
Definition sampleEngine : Engine :=
  {| regexpSyntaxErrorMessage :=
       fun source => str "Invalid regular expression: /" ++ source ++ str "/";
     nullPropertyMessage :=
       fun property => str "Cannot read properties of null (reading '" ++ property
                       ++ str "')" |}.

(** A world in which nothing fails. *)
Definition calmWorld : World :=
  {| imageFailure := fun _ => None;
     toBlobIsNull := fun _ => false;
     generateAsyncFailure := None;
     now := 1700000000000%N |}.

(** A world in which the background image does not load. *)
Definition brokenBackgroundWorld : World :=
  {| imageFailure := fun src => if sameString src (str "missing.png") then Some 0 else None;
     toBlobIsNull := fun _ => false;
     generateAsyncFailure := None;
     now := 1700000000000%N |}.


(** An 800 by 600 template over the given background image. *)
Definition sampleTemplate (background : jsstring) : CertificateTemplate.t :=
  {| CertificateTemplate.id := str "t1";
     CertificateTemplate.name := str "Classic";
     CertificateTemplate.backgroundImage := background;
     CertificateTemplate.width := 800;
     CertificateTemplate.height := 600 |}.

(** The text element of the end-to-end scenario. *)
Definition sampleText : TextElement.t :=
  {| TextElement.id := str "e1";
     TextElement.text := str "Certificate for {{name}}";
     TextElement.position := {| Position.x := 10; Position.y := 10 |};
     TextElement.fontSize := 24;
     TextElement.fontFamily := str "Arial";
     TextElement.color := str "#000000";
     TextElement.fontWeight := FontWeight.bold;
     TextElement.fontStyle := FontStyle.normal;
     TextElement.textAlign := TextAlign.center |}.

(** A recipient with a name only. *)
Definition named (name : string) : BatchRecipient.t :=
  {| BatchRecipient.name := str name;
     BatchRecipient.title := None;
     BatchRecipient.date := None;
     BatchRecipient.customFields := None |}.

(** A recipient written with string literals. *)
Definition recipientOf (name : string) (title date : option string)
    (customFields : option (list (string * string))) : BatchRecipient.t :=
  {| BatchRecipient.name := str name;
     BatchRecipient.title := option_map str title;
     BatchRecipient.date := option_map str date;
     BatchRecipient.customFields :=
       option_map (List.map (fun entry => (str (fst entry), str (snd entry)))) customFields |}.

(** A text element over a given text. *)
Definition textElementOf (text : string) : TextElement.t :=
  {| TextElement.id := str "e2";
     TextElement.text := str text;
     TextElement.position := {| Position.x := 10; Position.y := 50 |};
     TextElement.fontSize := 16;
     TextElement.fontFamily := str "Arial";
     TextElement.color := str "#000000";
     TextElement.fontWeight := FontWeight.normal;
     TextElement.fontStyle := FontStyle.normal;
     TextElement.textAlign := TextAlign.left |}.

Definition sampleSignature : ImageElement.t :=
  newImageElement 1700000000000 (str "data:image/png;base64,AAAA").

(** * Properties *)

(** ** The placeholder engine: properties *)

(** *** Parsing a literal token *)

Lemma quantifierPrefix_plain c s :
  plainChar c = true -> RegExp.quantifierPrefix (c :: s) = None.
Proof. intros H. each_character c; try discriminate H; reflexivity. Qed.

Lemma term_plain group ng c s :
  plainChar c = true ->
  RegExp.term group ng (c :: s) = RegExp.quantified (RegExp.RChar c) ng ng s.
Proof. intros H. each_character c; try discriminate H; reflexivity. Qed.

Lemma alternative_plain group fuel ng c s :
  plainChar c = true ->
  RegExp.quantifierPrefix s = None ->
  RegExp.alternative group (S fuel) ng (c :: s)
  = RegExp.bindP (RegExp.alternative group fuel ng s)
                 (fun '(r, ng2, s2) => RegExp.POk (RegExp.RSeq (RegExp.RChar c) r, ng2, s2)).
Proof.
  intros Hplain Hquantifier.
  assert (Hterm := term_plain group ng c s Hplain).
  unfold RegExp.quantified in Hterm. rewrite Hquantifier in Hterm.
  each_character c; try discriminate Hplain;
    (cbn [RegExp.alternative]; rewrite Hterm; reflexivity).
Qed.

Lemma alternative_escaped group fuel ng c s :
  c = "{"%char \/ c = "}"%char ->
  RegExp.quantifierPrefix s = None ->
  RegExp.alternative group (S fuel) ng ("\"%char :: c :: s)
  = RegExp.bindP (RegExp.alternative group fuel ng s)
                 (fun '(r, ng2, s2) => RegExp.POk (RegExp.RSeq (RegExp.RChar c) r, ng2, s2)).
Proof.
  intros [-> | ->] Hquantifier; cbn [RegExp.alternative RegExp.term];
    cbn; unfold RegExp.quantified; rewrite Hquantifier; reflexivity.
Qed.

Lemma alternative_plain_key group key :
  plainKey key = true ->
  forall fuel ng s,
    RegExp.quantifierPrefix s = None ->
    RegExp.alternative group (List.length key + fuel) ng (key ++ s)
    = RegExp.bindP (RegExp.alternative group fuel ng s)
        (fun '(r, ng2, s2) =>
           RegExp.POk (fold_right (fun c r => RegExp.RSeq (RegExp.RChar c) r) r key,
                       ng2, s2)).
Proof.
  induction key as [|c key IH]; intros Hplain fuel ng s Hs.
  - simpl. by destruct (RegExp.alternative group fuel ng s) as [[[r ng2] s2]| |].
  - simpl in Hplain. apply andb_true_iff in Hplain as [Hc Hkey].
    cbn [List.length Nat.add app fold_right].
    rewrite alternative_plain; [|exact Hc|].
    + rewrite (IH Hkey fuel ng s Hs).
      by destruct (RegExp.alternative group fuel ng s) as [[[r ng2] s2]| |].
    + destruct key as [|c' key']; [exact Hs|].
      simpl in Hkey. apply andb_true_iff in Hkey as [Hc' _].
      by apply quantifierPrefix_plain.
Qed.

(** The pattern built for a key without syntax characters is the literal
    token. *)
Lemma parsePattern_plain_key key i :
  plainKey key = true ->
  RegExp.parsePattern (customPattern key) i
  = RegExp.POk {| RegExp.tree := literal (token key);
                  RegExp.nCaptures := 0;
                  RegExp.ignoreCase := i |}.
Proof.
  intros Hplain. unfold RegExp.parsePattern, customPattern.
  change (str "\{\{" ++ key ++ str "\}\}")
    with ("\"%char :: "{"%char :: "\"%char :: "{"%char :: key ++ str "\}\}").
  set (source := "\"%char :: "{"%char :: "\"%char :: "{"%char :: key ++ str "\}\}").
  assert (Hlength : List.length source = List.length key + 8).
  { unfold source. simpl. rewrite length_app. simpl. lia. }
  rewrite Hlength. cbn [RegExp.disjunction].
  replace (S (List.length source)) with (S (S (List.length key + 7))) by lia.
  unfold source.
  assert (Hq : forall s, RegExp.quantifierPrefix (key ++ "\"%char :: s) = None).
  { intros s. destruct key as [|c key']; [reflexivity|].
    simpl in Hplain. apply andb_true_iff in Hplain as [Hc _].
    by apply quantifierPrefix_plain. }
  rewrite alternative_escaped; [|by left|reflexivity].
  rewrite alternative_escaped; [|by left|apply Hq].
  rewrite (alternative_plain_key _ key Hplain 7); [|reflexivity].
  unfold literal, token.
  change (str "{{" ++ key ++ str "}}") with ("{"%char :: "{"%char :: key ++ str "}}").
  cbn [fold_right]. rewrite fold_right_app. reflexivity.
Qed.

(** *** Matching and replacing a literal token *)

Lemma compile_literal i p :
  forall x c,
    RegExp.compile i (literal p) x c
    = if startsWith i p (RegExp.remaining x) then c (advance x (List.length p))
      else RegExp.failure.
Proof.
  induction p as [|a p IH]; intros x c.
  - simpl. unfold advance. simpl. rewrite Nat.add_0_r. by destruct x.
  - cbn [literal fold_right RegExp.compile]. unfold RegExp.characterMatcher.
    destruct x as [index rest caps]. simpl.
    destruct rest as [|ch rest]; [done|].
    destruct (RegExp.sameCanonical i a ch); [|done]. simpl.
    fold (literal p). rewrite IH. unfold advance, RegExp.consume. simpl.
    by replace (index + S (List.length p)) with (S (index + List.length p)) by lia.
Qed.

Lemma execFrom_index rx :
  forall rest lastIndex index irest y,
    RegExp.execFrom rx lastIndex rest = RegExp.foundAt index irest y ->
    lastIndex <= index.
Proof.
  induction rest as [|a rest IH]; intros lastIndex index irest y; simpl;
    destruct (RegExp.compile _ _ _ _); try congruence.
  - intros [= <- _ _]. lia.
  - intros H. apply IH in H. lia.
  - intros [= <- _ _]. lia.
Qed.

(** When the pattern does not match at [lastIndex], the first character
    is copied and the replacement goes on behind it. *)
Lemma replaceFrom_skip rx replaceValue input fuel lastIndex a rest :
  RegExp.compile (RegExp.ignoreCase rx) (RegExp.tree rx)
                 (RegExp.startState lastIndex (a :: rest)) RegExp.matched
  = RegExp.failure ->
  RegExp.replaceFrom rx replaceValue input (S fuel) lastIndex (a :: rest)
  = bindO (RegExp.replaceFrom rx replaceValue input (S fuel) (S lastIndex) rest)
          (fun tail => Returns (a :: tail)).
Proof.
  intros Hfail. cbn [RegExp.replaceFrom RegExp.execFrom]. rewrite Hfail.
  destruct (RegExp.execFrom rx (S lastIndex) rest) as [|index irest y|] eqn:Hexec;
    try done.
  apply execFrom_index in Hexec.
  replace (index - lastIndex) with (S (index - S lastIndex)) by lia.
  cbn [firstn app].
  destruct (RegExp.endIndex y =? index).
  - destruct (RegExp.remaining y) as [|ch rest']; [done|].
    by destruct (RegExp.replaceFrom rx replaceValue input fuel _ rest').
  - by destruct (RegExp.replaceFrom rx replaceValue input fuel _ _).
Qed.

Lemma GetSubstitution_dollarFree matchedText before after caps captureLen template :
  dollarFree template = true ->
  RegExp.GetSubstitution matchedText before after caps captureLen template = template.
Proof.
  induction template as [|c template IH]; [done|].
  simpl. intros H. apply andb_true_iff in H as [Hc Htemplate].
  rewrite IH by done.
  each_character c; try discriminate Hc; reflexivity.
Qed.

Lemma replaceEvery_skip i p value :
  forall text skip,
    replaceEvery i p value skip text = replaceEvery i p value 0 (skipn skip text).
Proof.
  induction text as [|a text IH]; intros skip.
  - by destruct skip.
  - destruct skip as [|skip]; [done|]. simpl. apply IH.
Qed.

Lemma replaceMatches_skip matchLength value :
  forall text index skip,
    replaceMatches matchLength value index skip text
    = replaceMatches matchLength value (index + skip) 0 (skipn skip text).
Proof.
  induction text as [|a text IH]; intros index skip.
  - by destruct skip.
  - destruct skip as [|skip]; [by rewrite Nat.add_0_r|].
    simpl. rewrite IH. f_equal. lia.
Qed.

Section MatchLengthReplace.

Variable rx : RegExp.RegExpObject.
Variable matchLength : nat -> jsstring -> option nat.
Variable replaceValue : jsstring.
Variable input : jsstring.

Hypothesis rx_matches :
  forall index rest,
    RegExp.compile (RegExp.ignoreCase rx) (RegExp.tree rx)
                   (RegExp.startState index rest) RegExp.matched
    = match matchLength index rest with
      | Some n => RegExp.matched (advance (RegExp.startState index rest) n)
      | None => RegExp.failure
      end.
Hypothesis matches_bounded :
  forall index rest n, matchLength index rest = Some n -> 0 < n <= List.length rest.
Hypothesis replaceValue_dollarFree : dollarFree replaceValue = true.

(** The loop of [replace], on a pattern whose matches are described by
    [matchLength], computes the specification's replacement. *)
Lemma replaceFrom_matchLength :
  forall n rest fuel lastIndex,
    List.length rest <= n ->
    List.length rest < fuel ->
    RegExp.replaceFrom rx replaceValue input fuel lastIndex rest
    = Returns (replaceMatches matchLength replaceValue lastIndex 0 rest).
Proof.
  induction n as [|n IH]; intros rest fuel lastIndex Hn Hfuel.
  - destruct rest as [|a rest]; [|simpl in Hn; lia].
    destruct fuel as [|fuel]; [simpl in Hfuel; lia|].
    cbn [RegExp.replaceFrom RegExp.execFrom]. rewrite rx_matches.
    destruct (matchLength lastIndex []) as [m|] eqn:Hlength; [|done].
    apply matches_bounded in Hlength. simpl in Hlength. lia.
  - destruct rest as [|a rest].
    { apply IH; simpl in *; lia. }
    destruct fuel as [|fuel]; [simpl in Hfuel; lia|].
    destruct (matchLength lastIndex (a :: rest)) as [m|] eqn:Hlength.
    + pose proof (matches_bounded _ _ _ Hlength) as Hm.
      cbn [RegExp.replaceFrom RegExp.execFrom]. rewrite rx_matches, Hlength.
      unfold RegExp.substitution. rewrite GetSubstitution_dollarFree by done.
      cbn [advance RegExp.endIndex RegExp.remaining RegExp.startState].
      replace (lastIndex + m =? lastIndex) with false
        by (symmetry; apply Nat.eqb_neq; lia).
      rewrite Nat.sub_diag. cbn [firstn app].
      rewrite IH.
      * cbn [bindO replaceMatches]. rewrite Hlength.
        rewrite (replaceMatches_skip _ _ rest (S lastIndex) (m - 1)).
        do 3 f_equal; [lia|].
        destruct m as [|m]; [lia|]. simpl. by rewrite Nat.sub_0_r.
      * rewrite length_skipn. simpl in *. lia.
      * rewrite length_skipn. simpl in *. lia.
    + rewrite replaceFrom_skip.
      * rewrite IH by (simpl in *; lia).
        cbn [bindO replaceMatches]. by rewrite Hlength.
      * by rewrite rx_matches, Hlength.
Qed.

Lemma replace_matchLength :
  RegExp.replace rx replaceValue input
  = Returns (replaceMatches matchLength replaceValue 0 0 input).
Proof.
  unfold RegExp.replace. apply (replaceFrom_matchLength (List.length input)); lia.
Qed.

End MatchLengthReplace.

Lemma startsWith_length i p :
  forall text, startsWith i p text = true -> List.length p <= List.length text.
Proof.
  induction p as [|c p IH]; intros [|a text]; simpl; try done; try lia.
  intros H. apply andb_true_iff in H as [_ H]. apply IH in H. lia.
Qed.

Lemma replaceMatches_literal i p value :
  forall text index skip,
    replaceMatches (literalLength i p) value index skip text
    = replaceEvery i p value skip text.
Proof.
  induction text as [|a text IH]; intros index skip; [done|].
  cbn [replaceMatches replaceEvery]. destruct skip as [|skip]; [|apply IH].
  unfold literalLength at 1.
  destruct (startsWith i p (a :: text)); by rewrite IH.
Qed.

(** The loop of [replace] on a literal pattern replaces every occurrence
    of the text of the pattern. *)
Lemma replace_literal rx p replaceValue input :
  RegExp.tree rx = literal p ->
  p <> [] ->
  dollarFree replaceValue = true ->
  RegExp.replace rx replaceValue input
  = Returns (replaceEvery (RegExp.ignoreCase rx) p replaceValue 0 input).
Proof.
  intros Htree Hp Hvalue.
  rewrite (replace_matchLength rx (literalLength (RegExp.ignoreCase rx) p)).
  - by rewrite replaceMatches_literal.
  - intros index rest. rewrite Htree, compile_literal. unfold literalLength.
    cbn [RegExp.startState RegExp.remaining].
    by destruct (startsWith (RegExp.ignoreCase rx) p rest).
  - intros index rest n. unfold literalLength.
    destruct (startsWith (RegExp.ignoreCase rx) p rest) eqn:Hstarts; [|done].
    intros [= <-]. apply startsWith_length in Hstarts.
    destruct p; [done | simpl in *; lia].
  - exact Hvalue.
Qed.

(** [replaceAll] with the pattern of a key without syntax characters and
    a value without dollar sign replaces every occurrence of the token,
    ignoring case, by the value. *)
Lemma replaceAll_plain_key engine key value text :
  plainKey key = true ->
  dollarFree value = true ->
  replaceAll engine (customPattern key) true value text
  = Returns (replaceEvery true (token key) value 0 text).
Proof.
  intros Hkey Hvalue. unfold replaceAll, newRegExp.
  rewrite parsePattern_plain_key by done. simpl.
  by rewrite (replace_literal _ (token key)).
Qed.

(** *** The specification's substitution *)

Lemma sameCanonical_brace_r i c b :
  b = "{"%char \/ b = "}"%char -> RegExp.sameCanonical i c b = true -> c = b.
Proof.
  intros [-> | ->] H; destruct i; each_character c;
    solve [reflexivity | vm_compute in H; discriminate H].
Qed.

Lemma sameCanonical_brace_l i c b :
  c = "{"%char \/ c = "}"%char -> RegExp.sameCanonical i c b = true -> b = c.
Proof.
  intros [-> | ->] H; destruct i; each_character b;
    solve [reflexivity | vm_compute in H; discriminate H].
Qed.

Lemma replaceEvery_no_occurrence i p value :
  forall text,
    (forall n, startsWith i p (skipn n text) = false) ->
    replaceEvery i p value 0 text = text.
Proof.
  induction text as [|a text IH]; intros Hnone; [done|].
  pose proof (Hnone 0) as Hhead. simpl in Hhead.
  cbn [replaceEvery]. rewrite Hhead. f_equal.
  apply IH. intros n. apply (Hnone (S n)).
Qed.

Lemma replaceEvery_whole i p value text :
  p <> [] ->
  startsWith i p text = true ->
  List.length text = List.length p ->
  replaceEvery i p value 0 text = value.
Proof.
  intros Hp Hstarts Hlength.
  destruct text as [|a text]; [by destruct p|].
  cbn [replaceEvery]. rewrite Hstarts, replaceEvery_skip.
  rewrite skipn_all2 by (simpl in Hlength; lia).
  apply app_nil_r.
Qed.

Lemma hasOpenBraces_cons a b text :
  hasOpenBraces (a :: b :: text)
  = (Ascii.eqb a "{"%char && Ascii.eqb b "{"%char) || hasOpenBraces (b :: text).
Proof. reflexivity. Qed.

Lemma hasOpenBraces_skipn text :
  forall n, hasOpenBraces (skipn n text) = true -> hasOpenBraces text = true.
Proof.
  induction text as [|a text IH]; intros n.
  - by destruct n.
  - destruct n as [|n]; [done|]. simpl skipn. intros H. apply IH in H.
    destruct text as [|b text]; [done|].
    rewrite hasOpenBraces_cons, H. apply orb_true_r.
Qed.

Lemma startsWith_token_open i key text :
  startsWith i (token key) text = true -> hasOpenBraces text = true.
Proof.
  unfold token.
  change (str "{{" ++ key ++ str "}}") with ("{"%char :: "{"%char :: key ++ str "}}").
  destruct text as [|a [|b text]]; simpl; try done.
  - by rewrite andb_false_r.
  - intros H. apply andb_true_iff in H as [Ha H]. apply andb_true_iff in H as [Hb _].
    apply sameCanonical_brace_l in Ha as ->; [|by left].
    apply sameCanonical_brace_l in Hb as ->; [|by left]. done.
Qed.

(** A text without two opening braces side by side holds no token. *)
Lemma replaceEvery_token_free i key value text :
  hasOpenBraces text = false ->
  replaceEvery i (token key) value 0 text = text.
Proof.
  intros Hfree. apply replaceEvery_no_occurrence. intros n.
  destruct (startsWith i (token key) (skipn n text)) eqn:Hstarts; [|done].
  apply startsWith_token_open, hasOpenBraces_skipn in Hstarts. congruence.
Qed.

Lemma replaceEveryCustom_token_free entries text :
  hasOpenBraces text = false -> replaceEveryCustom entries text = text.
Proof.
  intros Hfree. unfold replaceEveryCustom.
  induction entries as [|entry entries IH]; [done|].
  simpl. by rewrite replaceEvery_token_free.
Qed.

Section Substitution.

Variable engine : Engine.

Lemma replaceCustomFields_plain entries :
  plainEntries entries = true ->
  forall text,
    replaceCustomFields engine entries text = Returns (replaceEveryCustom entries text).
Proof.
  induction entries as [|[key value] entries IH]; intros Hplain text; [done|].
  simpl in Hplain. apply andb_true_iff in Hplain as [Hentry Hentries].
  apply andb_true_iff in Hentry as [Hkey Hvalue].
  cbn [replaceCustomFields]. rewrite replaceAll_plain_key by done.
  cbn [bindO]. by rewrite IH.
Qed.

(** On a well-behaved recipient the program computes the specification's
    [substitute]. *)
Lemma replacePlaceholders_substitute text recipient :
  plainRecipient recipient = true ->
  replacePlaceholders engine text recipient = Returns (substitute text recipient).
Proof.
  unfold plainRecipient. intros H.
  apply andb_true_iff in H as [H Hentries]. apply andb_true_iff in H as [H Hdate].
  apply andb_true_iff in H as [Hname Htitle].
  unfold replacePlaceholders, substitute, entriesOf in *.
  change (str "\{\{name\}\}") with (customPattern (str "name")).
  change (str "\{\{title\}\}") with (customPattern (str "title")).
  change (str "\{\{date\}\}") with (customPattern (str "date")).
  rewrite !replaceAll_plain_key by done. cbn [bindO].
  rewrite replaceAll_plain_key by done. cbn [bindO].
  rewrite replaceAll_plain_key by done. cbn [bindO].
  destruct (BatchRecipient.customFields recipient) as [entries|]; [|done].
  by apply replaceCustomFields_plain.
Qed.

(** The token of a standard field, in any case, resolves to the field. *)
Lemma substitute_name text recipient :
  sameIgnoringCase (token (str "name")) text = true ->
  hasOpenBraces (BatchRecipient.name recipient) = false ->
  substitute text recipient = BatchRecipient.name recipient.
Proof.
  intros Htext Hfree. unfold substitute.
  apply andb_true_iff in Htext as [Hlength Hstarts]. apply Nat.eqb_eq in Hlength.
  rewrite (replaceEvery_whole true (token (str "name"))); [|done|done|done].
  rewrite (replaceEvery_token_free true (str "title")) by done.
  rewrite (replaceEvery_token_free true (str "date")) by done.
  by apply replaceEveryCustom_token_free.
Qed.

End Substitution.

(** *** Tokens that do not occur *)

Lemma sameIgnoringCase_canonical a b :
  sameIgnoringCase a b = true <-> canonical a = canonical b.
Proof.
  unfold sameIgnoringCase. revert b.
  induction a as [|x a IH]; intros [|y b]; simpl; try done.
  specialize (IH b). unfold RegExp.sameCanonical.
  destruct (N.eqb_spec (RegExp.Canonicalize true x) (RegExp.Canonicalize true y))
    as [Hhead | Hhead]; simpl.
  - rewrite Hhead. split.
    + intros H. f_equal. by apply IH.
    + intros [= H]. by apply IH.
  - rewrite andb_false_r. split; [done|]. by intros [= H _].
Qed.

Lemma plainKey_braceFree key : plainKey key = true -> braceFree key = true.
Proof.
  induction key as [|c key IH]; [done|]. simpl.
  rewrite !andb_true_iff. intros [Hc Hkey]. split; [|by apply IH].
  each_character c; try discriminate Hc; split; reflexivity.
Qed.

Lemma braceFree_no_open text : braceFree text = true -> hasOpenBraces text = false.
Proof.
  induction text as [|a text IH]; [done|]. simpl braceFree.
  rewrite !andb_true_iff. intros [[Ha _] Htext].
  destruct text as [|b text]; [done|].
  rewrite hasOpenBraces_cons, IH by done.
  apply negb_true_iff in Ha. by rewrite Ha.
Qed.

(** Past its first character, a token with a key free of braces holds no
    two opening braces side by side. *)
Lemma token_tail_no_open k :
  forall c, braceFree k = true -> hasOpenBraces (c :: k ++ str "}}") = false.
Proof.
  induction k as [|d k IH]; intros c Hk.
  - change (c :: [] ++ str "}}") with (c :: "}"%char :: ["}"%char]).
    rewrite hasOpenBraces_cons. simpl. by rewrite andb_false_r.
  - change (c :: (d :: k) ++ str "}}") with (c :: d :: k ++ str "}}").
    rewrite hasOpenBraces_cons.
    simpl in Hk. apply andb_true_iff in Hk as [Hd Hk].
    apply andb_true_iff in Hd as [Hopen _]. apply negb_true_iff in Hopen.
    rewrite Hopen, andb_false_r. simpl orb. by apply IH.
Qed.

(** A pattern key and a text key, both free of braces: when the pattern
    followed by the closing braces starts the text followed by the closing
    braces, the keys are equal up to case. *)
Lemma startsWith_closing key :
  forall k,
    braceFree key = true ->
    braceFree k = true ->
    startsWith true (key ++ str "}}") (k ++ str "}}") = true ->
    sameIgnoringCase key k = true.
Proof.
  induction key as [|a key IH]; intros [|b k] Hkey Hk Hstarts.
  - reflexivity.
  - exfalso. simpl in Hk. apply andb_true_iff in Hk as [Hb _].
    simpl in Hstarts. apply andb_true_iff in Hstarts as [Hhead _].
    apply sameCanonical_brace_l in Hhead as ->; [|by right]. discriminate Hb.
  - exfalso. simpl in Hkey. apply andb_true_iff in Hkey as [Ha _].
    simpl in Hstarts. apply andb_true_iff in Hstarts as [Hhead _].
    apply sameCanonical_brace_r in Hhead as ->; [|by right]. discriminate Ha.
  - simpl in Hkey, Hk, Hstarts.
    apply andb_true_iff in Hkey as [_ Hkey]. apply andb_true_iff in Hk as [_ Hk].
    apply andb_true_iff in Hstarts as [Hhead Hstarts].
    specialize (IH k Hkey Hk Hstarts).
    unfold sameIgnoringCase in *. simpl. rewrite Hhead.
    apply andb_true_iff in IH as [Hlength Htail]. by rewrite Hlength, Htail.
Qed.

(** The token of a key occurs nowhere in the token of a key that differs
    from it by more than case. *)
Lemma token_no_occurrence key k n :
  braceFree key = true ->
  braceFree k = true ->
  sameIgnoringCase key k = false ->
  startsWith true (token key) (skipn n (token k)) = false.
Proof.
  intros Hkey Hk Hdiffer.
  destruct (startsWith true (token key) (skipn n (token k))) eqn:Hstarts; [|done].
  destruct n as [|n].
  - unfold token in Hstarts. simpl in Hstarts.
    change (str "{{" ++ key ++ str "}}")
      with ("{"%char :: "{"%char :: key ++ str "}}") in Hstarts.
    change (str "{{" ++ k ++ str "}}") with ("{"%char :: "{"%char :: k ++ str "}}") in Hstarts.
    simpl in Hstarts.
    apply startsWith_closing in Hstarts; [congruence | done | done].
  - apply startsWith_token_open in Hstarts.
    unfold token in Hstarts.
    change (str "{{" ++ k ++ str "}}") with ("{"%char :: "{"%char :: k ++ str "}}") in Hstarts.
    simpl skipn in Hstarts. apply hasOpenBraces_skipn in Hstarts.
    by rewrite token_tail_no_open in Hstarts.
Qed.

(** A text that is a token up to case is the token of a key equal up to
    case. *)
Lemma token_variant k text :
  sameIgnoringCase (token k) text = true ->
  exists k', text = token k' /\ sameIgnoringCase k k' = true.
Proof.
  intros H. apply sameIgnoringCase_canonical in H.
  unfold token in H.
  change (str "{{" ++ k ++ str "}}") with ("{"%char :: "{"%char :: k ++ str "}}") in H.
  destruct text as [|a [|b text]]; try discriminate H.
  injection H as Ha Hb H.
  assert (a = "{"%char) as ->.
  { apply (sameCanonical_brace_l true); [by left|].
    unfold RegExp.sameCanonical. by rewrite Ha, N.eqb_refl. }
  assert (b = "{"%char) as ->.
  { apply (sameCanonical_brace_l true); [by left|].
    unfold RegExp.sameCanonical. by rewrite Hb, N.eqb_refl. }
  clear Ha Hb. unfold canonical in H. rewrite map_app in H.
  assert (Hsplit : exists k' closing,
             text = k' ++ closing /\ canonical k = canonical k'
             /\ canonical (str "}}") = canonical closing).
  { exists (firstn (List.length k) text), (skipn (List.length k) text).
    assert (Hlength : List.length text = List.length k + 2).
    { apply (f_equal (@List.length N)) in H.
      rewrite length_app, !length_map in H. simpl in H. lia. }
    split; [by rewrite firstn_skipn|].
    rewrite <- (firstn_skipn (List.length k) text) in H at 1.
    rewrite map_app in H.
    apply app_inj_1 in H as [H1 H2]; [done|].
    rewrite !length_map, length_firstn. lia. }
  destruct Hsplit as (k' & closing & -> & Hk & Hclosing).
  destruct closing as [|c [|d [|? ?]]]; try discriminate Hclosing.
  injection Hclosing as Hc Hd.
  assert (c = "}"%char) as ->.
  { apply (sameCanonical_brace_l true); [by right|].
    unfold RegExp.sameCanonical. by rewrite <- Hc, N.eqb_refl. }
  assert (d = "}"%char) as ->.
  { apply (sameCanonical_brace_l true); [by right|].
    unfold RegExp.sameCanonical. by rewrite <- Hd, N.eqb_refl. }
  exists k'. split; [reflexivity|]. by apply sameIgnoringCase_canonical.
Qed.

Lemma braceFree_variant k k' :
  braceFree k = true -> sameIgnoringCase k k' = true -> braceFree k' = true.
Proof.
  unfold sameIgnoringCase. revert k'.
  induction k as [|a k IH]; intros [|b k']; simpl; try done.
  rewrite !andb_true_iff, Nat.eqb_eq.
  intros [[Hopen Hclose] Hk] (Hlength & Hhead & Htail).
  split.
  - split; apply negb_true_iff, Ascii.eqb_neq; intros ->.
    + apply sameCanonical_brace_r in Hhead as ->; [|by left]. discriminate Hopen.
    + apply sameCanonical_brace_r in Hhead as ->; [|by right]. discriminate Hclose.
  - apply IH; [done|]. rewrite Htail, andb_true_r. apply Nat.eqb_eq. lia.
Qed.

(** *** Replacements that leave the text alone *)

Lemma replaceFrom_no_occurrence rx p replaceValue input :
  RegExp.tree rx = literal p ->
  forall rest fuel lastIndex,
    (forall n, startsWith (RegExp.ignoreCase rx) p (skipn n rest) = false) ->
    RegExp.replaceFrom rx replaceValue input (S fuel) lastIndex rest = Returns rest.
Proof.
  intros Htree.
  induction rest as [|a rest IH]; intros fuel lastIndex Hnone.
  - pose proof (Hnone 0) as Hhead. simpl in Hhead.
    cbn [RegExp.replaceFrom RegExp.execFrom]. rewrite Htree, compile_literal.
    cbn [RegExp.startState RegExp.remaining]. by rewrite Hhead.
  - pose proof (Hnone 0) as Hhead. simpl in Hhead.
    rewrite replaceFrom_skip.
    + rewrite IH; [done|]. intros n. apply (Hnone (S n)).
    + rewrite Htree, compile_literal. cbn [RegExp.startState RegExp.remaining].
      by rewrite Hhead.
Qed.

Lemma replaceAll_no_occurrence engine key value text :
  plainKey key = true ->
  (forall n, startsWith true (token key) (skipn n text) = false) ->
  replaceAll engine (customPattern key) true value text = Returns text.
Proof.
  intros Hkey Hnone. unfold replaceAll, newRegExp.
  rewrite parsePattern_plain_key by done. simpl. unfold RegExp.replace.
  by apply (replaceFrom_no_occurrence _ (token key)).
Qed.

Lemma replaceAll_token_free engine key value text :
  plainKey key = true ->
  hasOpenBraces text = false ->
  replaceAll engine (customPattern key) true value text = Returns text.
Proof.
  intros Hkey Hfree. apply replaceAll_no_occurrence; [done|]. intros n.
  destruct (startsWith true (token key) (skipn n text)) eqn:Hstarts; [|done].
  apply startsWith_token_open, hasOpenBraces_skipn in Hstarts. congruence.
Qed.

Lemma replaceAll_whole engine key value text :
  plainKey key = true ->
  dollarFree value = true ->
  sameIgnoringCase (token key) text = true ->
  replaceAll engine (customPattern key) true value text = Returns value.
Proof.
  intros Hkey Hvalue Htext. rewrite replaceAll_plain_key by done.
  apply andb_true_iff in Htext as [Hlength Hstarts]. apply Nat.eqb_eq in Hlength.
  by rewrite replaceEvery_whole.
Qed.

Lemma replaceCustomFields_token_free engine entries text :
  plainKeys entries = true ->
  hasOpenBraces text = false ->
  replaceCustomFields engine entries text = Returns text.
Proof.
  intros Hkeys Hfree.
  induction entries as [|[key value] entries IH]; [done|].
  simpl in Hkeys. apply andb_true_iff in Hkeys as [Hkey Hkeys].
  cbn [replaceCustomFields]. rewrite replaceAll_token_free by done.
  by apply IH.
Qed.

(** The token of another key, up to case, is left alone by the pattern of
    a key. *)
Lemma replaceAll_other_token engine key value k text :
  plainKey key = true ->
  braceFree k = true ->
  sameIgnoringCase (token k) text = true ->
  sameIgnoringCase key k = false ->
  replaceAll engine (customPattern key) true value text = Returns text.
Proof.
  intros Hkey Hk Htext Hdiffer.
  apply token_variant in Htext as (k' & -> & Hk').
  apply replaceAll_no_occurrence; [done|]. intros n.
  apply token_no_occurrence.
  - by apply plainKey_braceFree.
  - by eapply braceFree_variant.
  - destruct (sameIgnoringCase key k') eqn:Hsame; [|done].
    apply sameIgnoringCase_canonical in Hsame, Hk'.
    rewrite <- Hk' in Hsame. apply sameIgnoringCase_canonical in Hsame. congruence.
Qed.

Section StandardTokens.

Variable engine : Engine.
Variable recipient : BatchRecipient.t.

Hypothesis keys_plain : plainKeys (entriesOf recipient) = true.

Lemma replaceCustomFields_of_recipient text :
  hasOpenBraces text = false ->
  match BatchRecipient.customFields recipient with
  | Some entries => replaceCustomFields engine entries text
  | None => Returns text
  end = Returns text.
Proof.
  intros Hfree. unfold entriesOf in keys_plain.
  destruct (BatchRecipient.customFields recipient) as [entries|]; [|done].
  by apply replaceCustomFields_token_free.
Qed.

(** The token of the name, in any case, resolves to the name. *)
Lemma replacePlaceholders_name text :
  sameIgnoringCase (token (str "name")) text = true ->
  dollarFree (BatchRecipient.name recipient) = true ->
  hasOpenBraces (BatchRecipient.name recipient) = false ->
  replacePlaceholders engine text recipient = Returns (BatchRecipient.name recipient).
Proof.
  intros Htext Hdollar Hfree. unfold replacePlaceholders.
  change (str "\{\{name\}\}") with (customPattern (str "name")).
  change (str "\{\{title\}\}") with (customPattern (str "title")).
  change (str "\{\{date\}\}") with (customPattern (str "date")).
  rewrite replaceAll_whole by done. cbn [bindO].
  rewrite replaceAll_token_free by done. cbn [bindO].
  rewrite replaceAll_token_free by done. cbn [bindO].
  by apply replaceCustomFields_of_recipient.
Qed.

(** The token of the title, in any case, resolves to the title, or to the
    empty string when there is none. *)
Lemma replacePlaceholders_title text :
  sameIgnoringCase (token (str "title")) text = true ->
  dollarFree (orEmpty (BatchRecipient.title recipient)) = true ->
  hasOpenBraces (orEmpty (BatchRecipient.title recipient)) = false ->
  replacePlaceholders engine text recipient
  = Returns (orEmpty (BatchRecipient.title recipient)).
Proof.
  intros Htext Hdollar Hfree. unfold replacePlaceholders.
  change (str "\{\{name\}\}") with (customPattern (str "name")).
  change (str "\{\{title\}\}") with (customPattern (str "title")).
  change (str "\{\{date\}\}") with (customPattern (str "date")).
  rewrite (replaceAll_other_token engine (str "name") _ (str "title")) by done.
  cbn [bindO]. rewrite replaceAll_whole by done. cbn [bindO].
  rewrite replaceAll_token_free by done. cbn [bindO].
  by apply replaceCustomFields_of_recipient.
Qed.

(** The token of the date, in any case, resolves to the date, or to the
    empty string when there is none. *)
Lemma replacePlaceholders_date text :
  sameIgnoringCase (token (str "date")) text = true ->
  dollarFree (orEmpty (BatchRecipient.date recipient)) = true ->
  hasOpenBraces (orEmpty (BatchRecipient.date recipient)) = false ->
  replacePlaceholders engine text recipient
  = Returns (orEmpty (BatchRecipient.date recipient)).
Proof.
  intros Htext Hdollar Hfree. unfold replacePlaceholders.
  change (str "\{\{name\}\}") with (customPattern (str "name")).
  change (str "\{\{title\}\}") with (customPattern (str "title")).
  change (str "\{\{date\}\}") with (customPattern (str "date")).
  rewrite (replaceAll_other_token engine (str "name") _ (str "date")) by done.
  cbn [bindO].
  rewrite (replaceAll_other_token engine (str "title") _ (str "date")) by done.
  cbn [bindO]. rewrite replaceAll_whole by done. cbn [bindO].
  by apply replaceCustomFields_of_recipient.
Qed.

(** A text without two opening braces side by side is returned as it
    is. *)
Lemma replacePlaceholders_token_free text :
  hasOpenBraces text = false ->
  replacePlaceholders engine text recipient = Returns text.
Proof.
  intros Hfree. unfold replacePlaceholders.
  change (str "\{\{name\}\}") with (customPattern (str "name")).
  change (str "\{\{title\}\}") with (customPattern (str "title")).
  change (str "\{\{date\}\}") with (customPattern (str "date")).
  rewrite !replaceAll_token_free by done. cbn [bindO].
  rewrite replaceAll_token_free by done. cbn [bindO].
  rewrite replaceAll_token_free by done. cbn [bindO].
  by apply replaceCustomFields_of_recipient.
Qed.

End StandardTokens.

(** *** The claims about [substitute] *)

(** C3.  The claim fails on a recipient with the custom field [C++]: the
    key is spliced unescaped into a pattern, [\{\{C++\}\}] is not a valid
    pattern, and [substitute] throws on a text that holds no placeholder,
    whatever the engine.  With the custom field [A|B|C] no error is thrown
    but the text, which holds no placeholder, is changed. *)
Theorem replacePlaceholders_unescaped_key :
  forall engine : Engine,
    replacePlaceholders engine (str "Well done!")
      (recipientOf "Ann" None None (Some [("C++", "expert")]))
    = Throws (ErrorObject (regexpSyntaxErrorMessage engine (str "\{\{C++\}\}")))
    /\ replacePlaceholders engine (str "Best in class")
         (recipientOf "Ann" None None (Some [("A|B|C", "pass")]))
       = Returns (str "passest in class").
Proof. intros engine. split; vm_compute; reflexivity. Qed.

Lemma sameIgnoringCase_refl a : sameIgnoringCase a a = true.
Proof. by apply sameIgnoringCase_canonical. Qed.

Lemma replaceCustomFields_unrelated engine k entries :
  braceFree k = true ->
  unrelatedKeys k entries = true ->
  replaceCustomFields engine entries (token k) = Returns (token k).
Proof.
  intros Hk Hkeys.
  induction entries as [|[key value] entries IH]; [done|].
  simpl in Hkeys. apply andb_true_iff in Hkeys as [Hentry Hkeys].
  apply andb_true_iff in Hentry as [Hkey Hdiffer]. apply negb_true_iff in Hdiffer.
  cbn [replaceCustomFields].
  rewrite (replaceAll_other_token engine key value k);
    [| done | done | apply sameIgnoringCase_refl | done].
  by apply IH.
Qed.

(** C9 (as amended).  For every recipient whose custom keys hold no syntax
    character of patterns, and every key [k] without braces that differs
    by more than case from [name], [title], [date] and every custom key,
    [substitute] returns the token [{{k}}] unchanged, and throws
    nothing. *)
Theorem replacePlaceholders_unknown_key :
  forall engine recipient k,
    braceFree k = true ->
    sameIgnoringCase (str "name") k = false ->
    sameIgnoringCase (str "title") k = false ->
    sameIgnoringCase (str "date") k = false ->
    unrelatedKeys k (entriesOf recipient) = true ->
    replacePlaceholders engine (token k) recipient = Returns (token k).
Proof.
  intros engine recipient k Hk Hname Htitle Hdate Hkeys. unfold replacePlaceholders.
  change (str "\{\{name\}\}") with (customPattern (str "name")).
  change (str "\{\{title\}\}") with (customPattern (str "title")).
  change (str "\{\{date\}\}") with (customPattern (str "date")).
  rewrite (replaceAll_other_token engine (str "name") _ k);
    [| done | done | apply sameIgnoringCase_refl | done].
  cbn [bindO].
  rewrite (replaceAll_other_token engine (str "title") _ k);
    [| done | done | apply sameIgnoringCase_refl | done].
  cbn [bindO].
  rewrite (replaceAll_other_token engine (str "date") _ k);
    [| done | done | apply sameIgnoringCase_refl | done].
  cbn [bindO]. unfold entriesOf in Hkeys.
  destruct (BatchRecipient.customFields recipient) as [entries|]; [|done].
  by apply replaceCustomFields_unrelated.
Qed.

(** The unknown-key scenario of the specification: [{{foo}}] with a
    recipient that has the custom field [org]. *)
Lemma replacePlaceholders_unknown_key_witness :
  replacePlaceholders sampleEngine (str "{{foo}}")
    (recipientOf "Ann" (Some "Dr") None (Some [("org", "Acme")]))
  = Returns (str "{{foo}}").
Proof.
  apply (replacePlaceholders_unknown_key sampleEngine
           (recipientOf "Ann" (Some "Dr") None (Some [("org", "Acme")])) (str "foo"));
    reflexivity.
Defined.

(** C9, as stated, fails: the recipient has no custom field named [org],
    only one named [ORG], and the token [{{org}}] is replaced. *)
Lemma replacePlaceholders_key_case :
  let recipient := recipientOf "Ann" None None (Some [("ORG", "Acme")]) in
  ownProperty (str "org") (entriesOf recipient) = None
  /\ replacePlaceholders sampleEngine (str "{{org}}") recipient = Returns (str "Acme")
  /\ replacePlaceholders sampleEngine (str "{{org}}") recipient
     <> Returns (str "{{org}}").
Proof. cbn zeta. repeat split; vm_compute; congruence. Qed.

(** C4 (as amended).  For every recipient whose name, title, date and
    custom values hold no dollar sign and whose custom keys hold no syntax
    character of patterns, the program computes the specification's
    [substitute]: every occurrence of [{{name}}], in any case, is replaced
    by the name, then likewise [{{title}}] and [{{date}}] by the title and
    the date or the empty string, then each custom token.  When the name
    holds no two opening braces side by side, a text that is [{{name}}] up
    to case, such as [{{name}}] and [{{NAME}}], yields the name; likewise
    for the title and the date. *)
Theorem replacePlaceholders_standard_tokens :
  forall engine recipient,
    plainRecipient recipient = true ->
    (forall text,
        replacePlaceholders engine text recipient = Returns (substitute text recipient))
    /\ (hasOpenBraces (BatchRecipient.name recipient) = false ->
        replacePlaceholders engine (str "{{name}}") recipient
        = Returns (BatchRecipient.name recipient)
        /\ replacePlaceholders engine (str "{{NAME}}") recipient
           = Returns (BatchRecipient.name recipient)
        /\ forall text,
             sameIgnoringCase (str "{{name}}") text = true ->
             replacePlaceholders engine text recipient
             = Returns (BatchRecipient.name recipient))
    /\ (hasOpenBraces (orEmpty (BatchRecipient.title recipient)) = false ->
        forall text,
          sameIgnoringCase (str "{{title}}") text = true ->
          replacePlaceholders engine text recipient
          = Returns (orEmpty (BatchRecipient.title recipient)))
    /\ (hasOpenBraces (orEmpty (BatchRecipient.date recipient)) = false ->
        forall text,
          sameIgnoringCase (str "{{date}}") text = true ->
          replacePlaceholders engine text recipient
          = Returns (orEmpty (BatchRecipient.date recipient))).
Proof.
  intros engine recipient Hplain.
  split; [intros text; by apply replacePlaceholders_substitute|].
  unfold plainRecipient in Hplain.
  apply andb_true_iff in Hplain as [Hplain Hentries].
  apply andb_true_iff in Hplain as [Hplain Hdate].
  apply andb_true_iff in Hplain as [Hname Htitle].
  assert (Hkeys : plainKeys (entriesOf recipient) = true).
  { unfold plainKeys, plainEntries in *. rewrite forallb_forall in *.
    intros entry Hentry. specialize (Hentries entry Hentry).
    by apply andb_true_iff in Hentries as [Hkey _]. }
  split; [|split].
  - intros Hfree. repeat split.
    + by apply replacePlaceholders_name.
    + by apply replacePlaceholders_name.
    + intros text Htext. by apply replacePlaceholders_name.
  - intros Hfree text Htext. by apply replacePlaceholders_title.
  - intros Hfree text Htext. by apply replacePlaceholders_date.
Qed.

Lemma replacePlaceholders_standard_tokens_witness :
  replacePlaceholders sampleEngine (str "Dear {{Title}} {{NAME}}, on {{date}}{{name}}")
    (recipientOf "Ann" (Some "Dr") None (Some [("org", "Acme")]))
  = Returns (str "Dear Dr Ann, on Ann")
  /\ replacePlaceholders sampleEngine (str "{{NAME}}")
       (recipientOf "Ann" (Some "Dr") None (Some [("org", "Acme")]))
     = Returns (str "Ann").
Proof.
  destruct (replacePlaceholders_standard_tokens sampleEngine
              (recipientOf "Ann" (Some "Dr") None (Some [("org", "Acme")])))
    as (Hsubstitute & Hname & _).
  - reflexivity.
  - split.
    + rewrite Hsubstitute. vm_compute. reflexivity.
    + destruct (Hname eq_refl) as (_ & Hupper & _). exact Hupper.
Defined.

(** C4, as stated, fails: the name is replaced first and the result is
    rewritten by the later replacements, so a name that holds the token of
    the title yields the title. *)
Lemma replacePlaceholders_name_rewritten :
  let recipient := recipientOf "{{title}}" (Some "Dr") None None in
  replacePlaceholders sampleEngine (str "{{name}}") recipient = Returns (str "Dr")
  /\ replacePlaceholders sampleEngine (str "{{name}}") recipient
     <> Returns (BatchRecipient.name recipient).
Proof. cbn zeta. split; vm_compute; congruence. Qed.

(** C8 (as amended).  For every recipient whose custom keys hold no syntax
    character of patterns and that has a custom field named [name],
    [title] or [date], the token of that name resolves to the standard
    field, not to the custom field, provided the value of the standard
    field holds no dollar sign and no two opening braces side by side. *)
Theorem replacePlaceholders_standard_precedence :
  forall engine recipient value,
    plainKeys (entriesOf recipient) = true ->
    (In (str "name", value) (entriesOf recipient) ->
     dollarFree (BatchRecipient.name recipient) = true ->
     hasOpenBraces (BatchRecipient.name recipient) = false ->
     replacePlaceholders engine (str "{{name}}") recipient
     = Returns (BatchRecipient.name recipient))
    /\ (In (str "title", value) (entriesOf recipient) ->
        dollarFree (orEmpty (BatchRecipient.title recipient)) = true ->
        hasOpenBraces (orEmpty (BatchRecipient.title recipient)) = false ->
        replacePlaceholders engine (str "{{title}}") recipient
        = Returns (orEmpty (BatchRecipient.title recipient)))
    /\ (In (str "date", value) (entriesOf recipient) ->
        dollarFree (orEmpty (BatchRecipient.date recipient)) = true ->
        hasOpenBraces (orEmpty (BatchRecipient.date recipient)) = false ->
        replacePlaceholders engine (str "{{date}}") recipient
        = Returns (orEmpty (BatchRecipient.date recipient))).
Proof.
  intros engine recipient value Hkeys. repeat split; intros _ Hdollar Hfree.
  - by apply replacePlaceholders_name.
  - by apply replacePlaceholders_title.
  - by apply replacePlaceholders_date.
Qed.

Lemma replacePlaceholders_standard_precedence_witness :
  replacePlaceholders sampleEngine (str "{{title}}")
    (recipientOf "Ann" None None (Some [("title", "Prof"); ("name", "Bo")]))
  = Returns []
  /\ replacePlaceholders sampleEngine (str "{{name}}")
       (recipientOf "Ann" None None (Some [("title", "Prof"); ("name", "Bo")]))
     = Returns (str "Ann").
Proof.
  destruct (replacePlaceholders_standard_precedence sampleEngine
              (recipientOf "Ann" None None (Some [("title", "Prof"); ("name", "Bo")]))
              (str "Prof")) as (Hname & Htitle & _).
  - reflexivity.
  - split.
    + apply Htitle; [by left | reflexivity | reflexivity].
    + destruct (replacePlaceholders_standard_precedence sampleEngine
                  (recipientOf "Ann" None None (Some [("title", "Prof"); ("name", "Bo")]))
                  (str "Bo")) as (Hname' & _); [reflexivity|].
      apply Hname'; [right; by left | reflexivity | reflexivity].
Defined.

(** C8, as stated, fails: when the name is itself the token [{{name}}],
    the custom field named [name] rewrites it. *)
Lemma replacePlaceholders_custom_name_wins :
  let recipient := recipientOf "{{name}}" None None (Some [("name", "Bo")]) in
  replacePlaceholders sampleEngine (str "{{name}}") recipient = Returns (str "Bo")
  /\ replacePlaceholders sampleEngine (str "{{name}}") recipient
     <> Returns (BatchRecipient.name recipient).
Proof. cbn zeta. split; vm_compute; congruence. Qed.

Lemma replaceCustomFields_app engine entries1 entries2 result :
  replaceCustomFields engine (entries1 ++ entries2) result
  = bindO (replaceCustomFields engine entries1 result)
          (replaceCustomFields engine entries2).
Proof.
  revert result.
  induction entries1 as [|[key value] entries1 IH]; intros result; [done|].
  simpl.
  destruct (replaceAll engine (customPattern key) true value result); simpl;
    [apply IH | reflexivity | reflexivity].
Qed.

(** C10.  The replacements run one after the other over the string
    already rewritten: the name, then the title, then the date, then the
    custom fields in the order of the entries.  So a value is itself
    subject to the later replacements: with the name [{{date}}] and the
    date [2024], [{{name}}] yields [2024] and not the name. *)
Theorem replacePlaceholders_sequential :
  forall engine : Engine,
    (forall text recipient,
        replacePlaceholders engine text recipient
        = bindO (replaceAll engine (str "\{\{name\}\}") true
                            (BatchRecipient.name recipient) text)
            (fun afterName =>
               bindO (replaceAll engine (str "\{\{title\}\}") true
                                 (orEmpty (BatchRecipient.title recipient)) afterName)
                 (fun afterTitle =>
                    bindO (replaceAll engine (str "\{\{date\}\}") true
                                      (orEmpty (BatchRecipient.date recipient)) afterTitle)
                      (fun afterDate =>
                         replaceCustomFields engine (entriesOf recipient) afterDate))))
    /\ (forall entries1 entries2 result,
           replaceCustomFields engine (entries1 ++ entries2) result
           = bindO (replaceCustomFields engine entries1 result)
                   (replaceCustomFields engine entries2))
    /\ replacePlaceholders engine (str "{{name}}")
         (recipientOf "{{date}}" None (Some "2024") None)
       = Returns (str "2024")
    /\ replacePlaceholders engine (str "{{name}}")
         (recipientOf "{{date}}" None (Some "2024") None)
       <> Returns (BatchRecipient.name (recipientOf "{{date}}" None (Some "2024") None))
    /\ replacePlaceholders engine (str "{{org}}")
         (recipientOf "Ann" None None (Some [("org", "{{team}}"); ("team", "Blue")]))
       = Returns (str "Blue").
Proof.
  intros engine. split; [|split; [|split; [|split]]].
  - intros text recipient. unfold replacePlaceholders, entriesOf.
    destruct (replaceAll engine (str "\{\{name\}\}") _ _ _); simpl; try done.
    destruct (replaceAll engine (str "\{\{title\}\}") _ _ _); simpl; try done.
    destruct (replaceAll engine (str "\{\{date\}\}") _ _ _); simpl; try done.
    by destruct (BatchRecipient.customFields recipient).
  - apply replaceCustomFields_app.
  - vm_compute. reflexivity.
  - vm_compute. congruence.
  - vm_compute. reflexivity.
Qed.

(** ** File names: properties *)

(** *** The three patterns *)

Lemma parsePattern_mask :
  RegExp.parsePattern (str "[^a-z0-9]") true = RegExp.POk maskPattern.
Proof. vm_compute. reflexivity. Qed.

Lemma parsePattern_run : RegExp.parsePattern (str "_+") false = RegExp.POk runPattern.
Proof. vm_compute. reflexivity. Qed.

Lemma parsePattern_end : RegExp.parsePattern (str "^_|_$") false = RegExp.POk endPattern.
Proof. vm_compute. reflexivity. Qed.

Lemma setMatches_mask ch :
  RegExp.setMatches true true [RegExp.CRange "a" "z"; RegExp.CRange "0" "9"] ch
  = negb (isAsciiAlphaNum ch).
Proof. each_character ch; vm_compute; reflexivity. Qed.

Lemma sameCanonical_underscore ch :
  RegExp.sameCanonical false "_" ch = isUnderscore ch.
Proof. each_character ch; reflexivity. Qed.

Lemma advance_one index ch rest :
  RegExp.consume (RegExp.startState index (ch :: rest)) rest
  = advance (RegExp.startState index (ch :: rest)) 1.
Proof. unfold RegExp.consume, advance. simpl. f_equal. lia. Qed.

Lemma compile_mask index rest :
  RegExp.compile true (RegExp.tree maskPattern) (RegExp.startState index rest) RegExp.matched
  = match maskLength index rest with
    | Some n => RegExp.matched (advance (RegExp.startState index rest) n)
    | None => RegExp.failure
    end.
Proof.
  destruct rest as [|ch rest]; [done|].
  cbn [maskPattern RegExp.tree RegExp.compile]. unfold RegExp.characterMatcher.
  cbn [RegExp.startState RegExp.remaining maskLength].
  rewrite setMatches_mask.
  destruct (isAsciiAlphaNum ch); [done|].
  cbn [negb]. by rewrite <- advance_one.
Qed.

Lemma clearCaptures_startState parenIndex parenCount index rest :
  RegExp.clearCaptures parenIndex parenCount (RegExp.startState index rest)
  = RegExp.startState index rest.
Proof. reflexivity. Qed.

Lemma underscore_matcher index rest c :
  RegExp.characterMatcher (RegExp.sameCanonical false "_") (RegExp.startState index rest) c
  = match rest with
    | ch :: rest' => if isUnderscore ch then c (RegExp.startState (S index) rest')
                     else RegExp.failure
    | [] => RegExp.failure
    end.
Proof.
  unfold RegExp.characterMatcher. simpl. destruct rest as [|ch rest']; [done|].
  by rewrite sameCanonical_underscore.
Qed.

Lemma advance_zero x : advance x 0 = x.
Proof. destruct x. unfold advance. simpl. by rewrite Nat.add_0_r. Qed.

Lemma advance_startState_S index ch rest n :
  advance (RegExp.startState (S index) rest) n
  = advance (RegExp.startState index (ch :: rest)) (S n).
Proof. unfold advance. simpl. f_equal. lia. Qed.

(** The greedy repetition of the underscore, once its minimum is met,
    takes every underscore in front of it. *)
Lemma RepeatMatcher_underscores :
  forall rest fuel index,
    List.length rest < fuel ->
    RegExp.RepeatMatcher fuel (RegExp.characterMatcher (RegExp.sameCanonical false "_"))
                         0 None true (RegExp.startState index rest) RegExp.matched 0 0
    = RegExp.matched (advance (RegExp.startState index rest) (leadingUnderscores rest)).
Proof.
  induction rest as [|ch rest IH]; intros fuel index Hfuel;
    (destruct fuel as [|fuel]; [simpl in Hfuel; lia|]);
    cbn [RegExp.RepeatMatcher Nat.eqb negb andb pred option_map];
    rewrite clearCaptures_startState, underscore_matcher.
  - cbn [RegExp.orElse leadingUnderscores]. by rewrite advance_zero.
  - cbn [leadingUnderscores]. destruct (isUnderscore ch).
    + cbn [RegExp.startState RegExp.endIndex].
      replace (S index =? index) with false by (symmetry; apply Nat.eqb_neq; lia).
      fold (RegExp.startState (S index) rest).
      rewrite IH by (simpl in Hfuel; lia).
      cbn [RegExp.orElse]. by rewrite (advance_startState_S index ch).
    + cbn [RegExp.orElse]. by rewrite advance_zero.
Qed.

Lemma compile_run index rest :
  RegExp.compile false (RegExp.tree runPattern) (RegExp.startState index rest)
                 RegExp.matched
  = match runLength index rest with
    | Some n => RegExp.matched (advance (RegExp.startState index rest) n)
    | None => RegExp.failure
    end.
Proof.
  change (RegExp.compile false (RegExp.tree runPattern) (RegExp.startState index rest)
                         RegExp.matched)
    with (RegExp.RepeatMatcher (S (1 + List.length rest))
            (RegExp.characterMatcher (RegExp.sameCanonical false "_")) 1 None true
            (RegExp.startState index rest) RegExp.matched 0 0).
  cbn [RegExp.RepeatMatcher Nat.eqb negb andb pred option_map].
  rewrite clearCaptures_startState, underscore_matcher.
  unfold runLength. destruct rest as [|ch rest]; [done|].
  cbn [leadingUnderscores]. destruct (isUnderscore ch); [|done].
  rewrite RepeatMatcher_underscores by (simpl; lia).
  by rewrite (advance_startState_S index ch).
Qed.

Lemma compile_end index rest :
  RegExp.compile false (RegExp.tree endPattern) (RegExp.startState index rest)
                 RegExp.matched
  = match endLength index rest with
    | Some n => RegExp.matched (advance (RegExp.startState index rest) n)
    | None => RegExp.failure
    end.
Proof.
  cbn [endPattern RegExp.tree RegExp.compile]. unfold RegExp.characterMatcher.
  cbn [RegExp.startState RegExp.remaining RegExp.endIndex].
  destruct rest as [|ch rest].
  - by destruct (index =? 0).
  - cbn [endLength]. rewrite sameCanonical_underscore.
    cbn [RegExp.consume RegExp.remaining].
    destruct (isUnderscore ch), (index =? 0), rest as [|b rest]; simpl; try done;
      unfold advance, RegExp.consume; simpl; do 2 f_equal; lia.
Qed.

(** *** What the three replacements compute *)

Lemma replaceMatches_mask :
  forall text index,
    replaceMatches maskLength (str "_") index 0 text = List.map mask text.
Proof.
  induction text as [|ch text IH]; intros index; [done|].
  cbn [replaceMatches maskLength List.map]. unfold mask at 1.
  destruct (isAsciiAlphaNum ch); simpl; by rewrite IH.
Qed.

Lemma collapse_cons a s :
  collapse (a :: s)
  = if isUnderscore a && match s with b :: _ => isUnderscore b | [] => false end
    then collapse s else a :: collapse s.
Proof. reflexivity. Qed.

Lemma collapse_underscores :
  forall rest,
    collapse ("_"%char :: rest)
    = "_"%char :: collapse (skipn (leadingUnderscores rest) rest).
Proof.
  induction rest as [|b rest IH]; [done|].
  rewrite collapse_cons. cbn [leadingUnderscores]. change (isUnderscore "_") with true.
  destruct (isUnderscore b) eqn:Hb; cbn [andb skipn].
  - apply Ascii.eqb_eq in Hb as ->. apply IH.
  - reflexivity.
Qed.

Lemma replaceMatches_run :
  forall n text index,
    List.length text <= n ->
    replaceMatches runLength (str "_") index 0 text = collapse text.
Proof.
  induction n as [|n IH]; intros text index Hn.
  - destruct text; [done | simpl in Hn; lia].
  - destruct text as [|a text]; [done|].
    cbn [replaceMatches]. unfold runLength. cbn [leadingUnderscores].
    destruct (isUnderscore a) eqn:Ha.
    + apply Ascii.eqb_eq in Ha as ->.
      rewrite replaceMatches_skip, collapse_underscores.
      cbn [Nat.sub]. rewrite Nat.sub_0_r.
      change (str "_" ++ ?x) with ("_"%char :: x). f_equal.
      apply IH. rewrite length_skipn. simpl in Hn. lia.
    + rewrite collapse_cons, Ha. cbn [andb]. f_equal.
      apply IH. simpl in Hn. lia.
Qed.

Lemma replaceMatches_end_inner :
  forall text index,
    replaceMatches endLength [] (S index) 0 text = stripTrailing text.
Proof.
  induction text as [|a text IH]; intros index; [done|].
  cbn [replaceMatches endLength stripTrailing Nat.eqb orb].
  destruct text as [|b text].
  - by destruct (isUnderscore a).
  - rewrite andb_false_r. by rewrite IH.
Qed.

Lemma replaceMatches_end text :
  replaceMatches endLength [] 0 0 text = stripTrailing (stripLeading text).
Proof.
  destruct text as [|a text]; [done|].
  cbn [replaceMatches endLength stripLeading Nat.eqb orb].
  rewrite andb_true_r. destruct (isUnderscore a) eqn:Ha.
  - cbn [app Nat.sub]. apply replaceMatches_end_inner.
  - rewrite replaceMatches_end_inner. cbn [stripTrailing].
    destruct text as [|b text]; [by rewrite Ha | done].
Qed.

(** [sanitizeFilename] always returns, and returns the specification's
    file-safe name. *)
Lemma sanitizeFilename_sanitized engine name :
  sanitizeFilename engine name = Returns (sanitized name).
Proof.
  unfold sanitizeFilename, replaceAll, newRegExp.
  rewrite parsePattern_mask, parsePattern_run, parsePattern_end. cbn [bindO].
  rewrite (replace_matchLength maskPattern maskLength);
    [| apply compile_mask
     | intros index [|ch rest] n; simpl; [done|];
       destruct (isAsciiAlphaNum ch); [done|]; intros [= <-]; lia
     | reflexivity].
  cbn [bindO]. rewrite replaceMatches_mask.
  rewrite (replace_matchLength runPattern runLength);
    [| apply compile_run | | reflexivity].
  2: { intros index rest n. unfold runLength.
       destruct (leadingUnderscores rest) as [|k] eqn:Hk; [done|].
       intros [= <-]. split; [lia|]. rewrite <- Hk. clear.
       induction rest as [|a rest IH]; simpl; [lia|].
       destruct (isUnderscore a); lia. }
  cbn [bindO]. rewrite (replaceMatches_run (List.length (List.map mask name))) by lia.
  rewrite (replace_matchLength endPattern endLength);
    [| apply compile_end
     | intros index [|a rest] n; simpl; [done|];
       destruct (isUnderscore a && _); [|done]; intros [= <-]; lia
     | reflexivity].
  cbn [bindO]. by rewrite replaceMatches_end.
Qed.

(** The filename-sanitization scenario of the specification. *)
Example sanitizeFilename_scenario :
  forall engine : Engine,
    sanitizeFilename engine (str "Dr. Jos" ++ [charOf 233] ++ str " O'Brien!!")
    = Returns (str "dr_jos_o_brien").
Proof. intros engine. rewrite sanitizeFilename_sanitized. reflexivity. Qed.

(** ** The recipient validator: properties *)

Lemma checkPlaceholders_spec recipient index requiredKeys errors :
  checkPlaceholders recipient index requiredKeys errors
  = errors ++ missingFields recipient index requiredKeys.
Proof.
  revert errors.
  induction requiredKeys as [|key keys IH]; intros errors; simpl.
  - unfold missingFields. simpl. by rewrite app_nil_r.
  - rewrite IH. unfold missingFields. simpl.
    destruct (falsy (resolveValue recipient key)); simpl.
    + by rewrite <- app_assoc.
    + done.
Qed.

Lemma checkRecipients_spec recipients index requiredKeys errors :
  checkRecipients recipients index requiredKeys errors
  = errors ++ List.concat (imap (fun i recipient =>
                              missingFields recipient (index + i) requiredKeys)
                           recipients).
Proof.
  revert index errors.
  induction recipients as [|recipient rest IH]; intros index errors; simpl.
  - by rewrite app_nil_r.
  - rewrite IH, checkPlaceholders_spec, <- app_assoc.
    rewrite Nat.add_0_r. do 2 f_equal.
    f_equal. apply imap_ext. intros i r _. simpl. f_equal. lia.
Qed.

Lemma concat_nil_Forall {A : Type} (ls : list (list A)) :
  List.concat ls = [] <-> Forall (fun l => l = []) ls.
Proof.
  induction ls as [|l ls IH]; simpl.
  - split; [constructor | done].
  - split.
    + intros H. apply app_eq_nil in H as [-> H]. constructor; [done | by apply IH].
    + intros H. inversion H; subst. simpl. by apply IH.
Qed.

Lemma missingFields_nil recipient index requiredKeys :
  missingFields recipient index requiredKeys = []
  <-> forall key, In key requiredKeys -> falsy (resolveValue recipient key) = false.
Proof.
  unfold missingFields. split.
  - intros H key Hin.
    destruct (falsy (resolveValue recipient key)) eqn:Hf; [|done].
    assert (Hmem : In key (List.filter (fun key => falsy (resolveValue recipient key))
                                       requiredKeys)).
    { apply filter_In. by split. }
    apply map_eq_nil in H. rewrite H in Hmem. destruct Hmem.
  - intros H.
    induction requiredKeys as [|key keys IH]; simpl; [done|].
    rewrite (H key) by (by left). apply IH. intros k Hk. apply H. by right.
Qed.

(** The validator goes through every recipient and every required key
    without stopping at the first error: it reports, in order, exactly one
    error per pair whose value, as the property read of the validator
    resolves it, is falsy; each error names the recipient's 1-based
    position, its name and the key; and [valid] is true exactly when no
    error was accumulated. *)
Theorem validateRecipientData_reports_every_missing_field :
  forall (recipients : list BatchRecipient.t) (requiredKeys : list jsstring),
    let result := validateRecipientData recipients requiredKeys in
    ValidationResult.errors result = allMissingFields recipients requiredKeys
    /\ (forall index recipient key,
          recipients !! index = Some recipient ->
          In key requiredKeys ->
          falsy (resolveValue recipient key) = true ->
          In (str "Recipient " ++ showNat (index + 1) ++ str " ("
              ++ BatchRecipient.name recipient ++ str ") is missing field: " ++ key)
             (ValidationResult.errors result))
    /\ (ValidationResult.valid result = true <-> ValidationResult.errors result = [])
    /\ (ValidationResult.valid result = true
        <-> forall index recipient key,
              recipients !! index = Some recipient ->
              In key requiredKeys ->
              falsy (resolveValue recipient key) = false).
Proof.
  intros recipients requiredKeys result.
  assert (Herrors : ValidationResult.errors result
                    = allMissingFields recipients requiredKeys).
  { unfold result, validateRecipientData. simpl.
    rewrite checkRecipients_spec. simpl. reflexivity. }
  assert (Hvalid : ValidationResult.valid result = true
                   <-> ValidationResult.errors result = []).
  { unfold result, validateRecipientData. simpl.
    rewrite Nat.eqb_eq. apply length_zero_iff_nil. }
  split; [exact Herrors|]. split; [|split; [exact Hvalid|]].
  - intros index recipient key Hlookup Hin Hfalsy.
    rewrite Herrors. unfold allMissingFields.
    apply in_concat. exists (missingFields recipient index requiredKeys). split.
    + apply list_elem_of_In, list_elem_of_lookup. exists index.
      rewrite list_lookup_imap, Hlookup. reflexivity.
    + unfold missingFields.
      apply (in_map (missingFieldMessage index recipient)).
      apply filter_In. by split.
  - rewrite Hvalid, Herrors. unfold allMissingFields.
    rewrite concat_nil_Forall, Forall_forall. split.
    + intros H index recipient key Hlookup Hin.
      apply (missingFields_nil recipient index requiredKeys); [|exact Hin].
      apply H. apply list_elem_of_lookup. exists index.
      rewrite list_lookup_imap, Hlookup. reflexivity.
    + intros H l Hl.
      apply list_elem_of_lookup in Hl as [index Hl].
      rewrite list_lookup_imap in Hl.
      destruct (recipients !! index) as [recipient|] eqn:Hlookup; [|done].
      simpl in Hl. injection Hl as <-.
      apply missingFields_nil. intros key Hin. by apply (H index recipient key).
Qed.

(** For required keys that do not name a property of [Object.prototype],
    the errors are, in order, those of the pairs of a recipient and a key
    whose field is absent or empty. *)
Lemma validateRecipientData_reports_absent_fields recipients requiredKeys :
  Forall (fun key => existsb (sameString key) objectPrototypeProperties = false)
         requiredKeys ->
  ValidationResult.errors (validateRecipientData recipients requiredKeys)
  = List.concat
      (imap (fun index recipient =>
               List.map (fun key => str "Recipient " ++ showNat (index + 1) ++ str " ("
                                    ++ BatchRecipient.name recipient
                                    ++ str ") is missing field: " ++ key)
                        (List.filter (isMissing recipient) requiredKeys))
            recipients).
Proof.
  intros Hkeys. unfold validateRecipientData. cbn [ValidationResult.errors].
  rewrite checkRecipients_spec. cbn [app]. f_equal.
  apply imap_ext. intros index recipient _. cbn [Nat.add]. unfold missingFields.
  f_equal. apply List.filter_ext_in. intros key Hin.
  rewrite Forall_forall in Hkeys. specialize (Hkeys key).
  rewrite list_elem_of_In in Hkeys. specialize (Hkeys Hin).
  unfold isMissing, fieldOf, resolveValue, customField, entriesOf.
  destruct (sameString key (str "name")); [done|].
  destruct (sameString key (str "title")); [by destruct (BatchRecipient.title recipient)|].
  destruct (sameString key (str "date")); [by destruct (BatchRecipient.date recipient)|].
  destruct (BatchRecipient.customFields recipient) as [entries|]; [|done].
  destruct (ownProperty key entries) as [value|]; [done|]. by rewrite Hkeys.
Qed.

(** C7.  The validator misses a field that is absent.  Ann has an
    empty [customFields] object, so no field [toString]; the key
    [toString] is required; the validator reads
    [customFields["toString"]], finds the method every object inherits
    from [Object.prototype], which is truthy, and reports nothing, while
    the placeholder engine, which goes through the own entries, leaves
    [{{toString}}] in the text. *)
Theorem validateRecipientData_misses_inherited_key :
  let recipient := recipientOf "Ann" None None (Some []) in
  BatchRecipient.customFields recipient = Some []
  /\ resolveValue recipient (str "toString") = inherited (str "toString")
  /\ validateRecipientData [recipient] [str "toString"]
     = {| ValidationResult.valid := true; ValidationResult.errors := [] |}
  /\ validateRecipientData [recipient] [str "name"; str "org"]
     = {| ValidationResult.valid := false;
          ValidationResult.errors := [str "Recipient 1 (Ann) is missing field: org"] |}
  /\ replacePlaceholders sampleEngine (str "{{toString}}") recipient
     = Returns (str "{{toString}}").
Proof.
  cbn zeta. split; [reflexivity|]. split; [reflexivity|].
  split; [vm_compute; reflexivity|]. split; vm_compute; reflexivity.
Qed.

(** A required key that names a property of [Object.prototype] resolves
    to the inherited property and is never reported. *)
Example validateRecipientData_inherited_key :
  validateRecipientData
    [{| BatchRecipient.name := str "Ann"; BatchRecipient.title := None;
        BatchRecipient.date := None; BatchRecipient.customFields := Some [] |}]
    [str "toString"]
  = {| ValidationResult.valid := true; ValidationResult.errors := [] |}.
Proof. vm_compute. reflexivity. Qed.

(** The validator scenario of the specification: keys [name] and [org],
    one recipient Ann without custom fields. *)
Example validateRecipientData_scenario :
  validateRecipientData
    [{| BatchRecipient.name := str "Ann"; BatchRecipient.title := None;
        BatchRecipient.date := None; BatchRecipient.customFields := Some [] |}]
    [str "name"; str "org"]
  = {| ValidationResult.valid := false;
       ValidationResult.errors := [str "Recipient 1 (Ann) is missing field: org"] |}.
Proof. vm_compute. reflexivity. Qed.

(** ** The recipient loader: properties *)

Section Loader.

Variable engine : Engine.

Lemma loadRecipient_valid record index :
  hasValidName record = true ->
  exists loaded, loadRecipient engine record index = Returns loaded
                 /\ LoadedFrom record loaded.
Proof.
  destruct record as [| | | |?|members]; simpl; try discriminate.
  intros Hname. unfold loadRecipient. simpl.
  destruct (ownProperty (str "name") members) as [[| | |[|c s]| |]|] eqn:Hown;
    try discriminate.
  eexists. split; [reflexivity|].
  by apply (loaded_from members (c :: s)).
Qed.

Lemma loadRecipient_invalid record index :
  hasValidName record = false ->
  record <> JNull ->
  loadRecipient engine record index = Throws (ErrorObject (missingNameMessage index)).
Proof.
  destruct record as [| | | |?|members]; simpl; try done.
  intros Hname _. unfold loadRecipient. simpl.
  by destruct (ownProperty (str "name") members) as [[| | |[|c s]| |]|].
Qed.

Lemma loadRecipient_null index :
  loadRecipient engine JNull index
  = Throws (ErrorObject (nullPropertyMessage engine (str "name"))).
Proof. reflexivity. Qed.

(** All the elements are valid: the whole list is returned, each record
    with its defaults. *)
Lemma mapRecipients_valid elements index :
  Forall (fun record => hasValidName record = true) elements ->
  exists loaded, mapRecipients engine elements index = Returns loaded
                 /\ Forall2 LoadedFrom elements loaded.
Proof.
  intros Hall. revert index.
  induction Hall as [|record rest Hrecord Hrest IH]; intros index; simpl.
  - exists []. by split.
  - destruct (loadRecipient_valid record index Hrecord) as (l & -> & Hl).
    destruct (IH (S index)) as (ls & -> & Hls). simpl.
    exists (l :: ls). split; [reflexivity | by constructor].
Qed.

(** The first invalid element aborts the whole map: with the error that
    names its index when it is not [null], with the engine's TypeError
    when it is. *)
Lemma mapRecipients_invalid valid record rest index :
  Forall (fun record => hasValidName record = true) valid ->
  hasValidName record = false ->
  mapRecipients engine (valid ++ record :: rest) index
  = Throws (ErrorObject
              (if isNull record
               then nullPropertyMessage engine (str "name")
               else missingNameMessage (index + List.length valid))).
Proof.
  intros Hvalid Hrecord. revert index.
  induction Hvalid as [|first others Hfirst Hothers IH]; intros index; simpl.
  - rewrite Nat.add_0_r. destruct (isNull record) eqn:Hnull.
    + destruct record; try discriminate. reflexivity.
    + rewrite loadRecipient_invalid; [done | done | by intros ->].
  - destruct (loadRecipient_valid first index Hfirst) as (l & -> & _). simpl.
    rewrite IH. simpl.
    by replace (S (index + List.length others)) with (index + S (List.length others)) by lia.
Qed.

(** Every list of elements splits into valid elements followed, if any is
    invalid, by the first invalid one. *)
Lemma first_invalid (elements : list JSON) :
  Forall (fun record => hasValidName record = true) elements
  \/ exists valid record rest,
       elements = valid ++ record :: rest
       /\ Forall (fun record => hasValidName record = true) valid
       /\ hasValidName record = false.
Proof.
  induction elements as [|record rest IH]; [by left|].
  destruct (hasValidName record) eqn:Hrecord.
  - destruct IH as [Hall | (valid & bad & rest' & -> & Hvalid & Hbad)].
    + left. by constructor.
    + right. exists (record :: valid), bad, rest'. repeat split; [|done].
      by constructor.
  - right. exists [], record, rest. by repeat split.
Qed.

(** The loader is all-or-nothing: it returns one defaulted record per
    element when every element is valid, and otherwise rejects, returning
    no record at all. *)
Lemma parseRecipientsFile_all_or_nothing members elements :
  ownProperty (str "recipients") members = Some (JArray elements) ->
  (Forall (fun record => hasValidName record = true) elements
   /\ exists loaded, parseRecipientsFile engine (Readable (Document (JObject members)))
                     = Returns loaded
                     /\ Forall2 LoadedFrom elements loaded)
  \/ (exists valid record rest,
        elements = valid ++ record :: rest
        /\ Forall (fun record => hasValidName record = true) valid
        /\ hasValidName record = false
        /\ parseRecipientsFile engine (Readable (Document (JObject members)))
           = Throws (ErrorObject
                       (str "Failed to parse JSON: "
                        ++ (if isNull record
                            then nullPropertyMessage engine (str "name")
                            else missingNameMessage (List.length valid))))).
Proof.
  intros Hmembers.
  unfold parseRecipientsFile, loadDocument. simpl. rewrite Hmembers.
  destruct (first_invalid elements) as [Hall | (valid & bad & rest & -> & Hvalid & Hbad)].
  - left. split; [done|].
    destruct (mapRecipients_valid elements 0 Hall) as (loaded & -> & Hloaded).
    by exists loaded.
  - right. exists valid, bad, rest. repeat split; try done.
    by rewrite (mapRecipients_invalid valid bad rest 0 Hvalid Hbad).
Qed.

(** A member that is absent from a record is defaulted: [title] and
    [date] to the empty string, [customFields] to the empty object. *)
Lemma LoadedFrom_defaults record loaded :
  LoadedFrom record loaded ->
  forall members, record = JObject members ->
    (ownProperty (str "title") members = None ->
     LoadedRecipient.title loaded = JString [])
    /\ (ownProperty (str "date") members = None ->
        LoadedRecipient.date loaded = JString [])
    /\ (ownProperty (str "customFields") members = None ->
        LoadedRecipient.customFields loaded = JObject []).
Proof.
  intros [members name Hname Hnonempty] members' [= <-]. simpl.
  repeat split; by intros ->.
Qed.

End Loader.

(** C6.  The loader rejects [{"recipients":[{"name":"Bo"},null]}] with
    the message of the engine's TypeError for reading [name] off [null],
    whatever the engine, where the claim requires an error that names the
    index 1 of the offending record; the rest of the claim holds (see
    [parseRecipientsFile_all_or_nothing] and [LoadedFrom_defaults]). *)
Theorem parseRecipientsFile_null_record :
  forall engine : Engine,
    parseRecipientsFile engine
      (Readable (Document (JObject
         [(str "recipients",
           JArray [JObject [(str "name", JString (str "Bo"))]; JNull])])))
    = Throws (ErrorObject (str "Failed to parse JSON: "
                           ++ nullPropertyMessage engine (str "name"))).
Proof. intros engine. reflexivity. Qed.

(** The loader scenario of the specification: the record at index 1 has
    no name. *)
Example parseRecipientsFile_scenario :
  forall engine : Engine,
    parseRecipientsFile engine
      (Readable (Document (JObject
         [(str "recipients",
           JArray [JObject [(str "name", JString (str "Bo"))];
                   JObject [(str "title", JString (str "x"))]])])))
    = Throws (ErrorObject
                (str "Failed to parse JSON: Recipient at index 1 is missing a valid "
                 ++ [quote] ++ str "name" ++ [quote] ++ str " field")).
Proof. intros engine. reflexivity. Qed.

(** ** The batch orchestrator: properties *)

Lemma last_nonempty_default {A : Type} (a : A) (l : list A) (d d' : A) :
  List.last (a :: l) d = List.last (a :: l) d'.
Proof.
  revert a. induction l as [|b l IH]; intros a; [done|].
  change (List.last (b :: l) d = List.last (b :: l) d'). apply IH.
Qed.

Section Orchestrator.

Variable engine : Engine.
Variable world : World.
Variable template : CertificateTemplate.t.
Variable textElements : list TextElement.t.
Variable imageElements : list ImageElement.t.

Lemma replaceFrom_no_throw rx replaceValue input fuel lastIndex rest e :
  RegExp.replaceFrom rx replaceValue input fuel lastIndex rest <> Throws e.
Proof.
  revert lastIndex rest.
  induction fuel as [|fuel IH]; intros lastIndex rest; simpl; [done|].
  destruct (RegExp.execFrom rx lastIndex rest) as [|index irest y|]; try done.
  destruct (RegExp.endIndex y =? index).
  - destruct (RegExp.remaining y) as [|ch rest']; [done|].
    specialize (IH (S (RegExp.endIndex y)) rest').
    by destruct (RegExp.replaceFrom rx replaceValue input fuel _ rest').
  - specialize (IH (RegExp.endIndex y) (RegExp.remaining y)).
    by destruct (RegExp.replaceFrom rx replaceValue input fuel _ _).
Qed.

Lemma replaceAll_throws source ignoreCase replaceValue input e :
  replaceAll engine source ignoreCase replaceValue input = Throws e ->
  e = ErrorObject (regexpSyntaxErrorMessage engine source).
Proof.
  unfold replaceAll, newRegExp.
  destruct (RegExp.parsePattern source ignoreCase) as [rx| |]; simpl; try congruence.
  intros H. by apply replaceFrom_no_throw in H.
Qed.

Lemma replaceCustomFields_throws entries result e :
  replaceCustomFields engine entries result = Throws e ->
  exists source, e = ErrorObject (regexpSyntaxErrorMessage engine source).
Proof.
  revert result.
  induction entries as [|[key value] entries IH]; intros result; simpl; [done|].
  destruct (replaceAll engine (customPattern key) true value result) eqn:Hstep; simpl.
  - apply IH.
  - intros [= <-]. eexists. by eapply replaceAll_throws.
  - done.
Qed.

Lemma replacePlaceholders_throws text recipient e :
  replacePlaceholders engine text recipient = Throws e ->
  exists source, e = ErrorObject (regexpSyntaxErrorMessage engine source).
Proof.
  unfold replacePlaceholders.
  destruct (replaceAll engine (str "\{\{name\}\}") _ _ _) as [r1| |] eqn:H1; simpl;
    [| intros [= <-]; eexists; by eapply replaceAll_throws | done].
  destruct (replaceAll engine (str "\{\{title\}\}") _ _ _) as [r2| |] eqn:H2; simpl;
    [| intros [= <-]; eexists; by eapply replaceAll_throws | done].
  destruct (replaceAll engine (str "\{\{date\}\}") _ _ _) as [r3| |] eqn:H3; simpl;
    [| intros [= <-]; eexists; by eapply replaceAll_throws | done].
  destruct (BatchRecipient.customFields recipient) as [entries|]; [|done].
  apply replaceCustomFields_throws.
Qed.

Lemma sanitizeFilename_throws name e :
  sanitizeFilename engine name = Throws e ->
  exists source, e = ErrorObject (regexpSyntaxErrorMessage engine source).
Proof.
  unfold sanitizeFilename.
  destruct (replaceAll engine (str "[^a-z0-9]") _ _ _) as [r1| |] eqn:H1; simpl;
    [| intros [= <-]; eexists; by eapply replaceAll_throws | done].
  destruct (replaceAll engine (str "_+") _ _ _) as [r2| |] eqn:H2; simpl;
    [| intros [= <-]; eexists; by eapply replaceAll_throws | done].
  destruct (replaceAll engine (str "^_|_$") _ _ _) as [r3| |] eqn:H3; simpl;
    [done | intros [= <-]; eexists; by eapply replaceAll_throws | done].
Qed.

Lemma drawTextElements_throws elements recipient canvas e :
  drawTextElements engine elements recipient canvas = Throws e ->
  exists source, e = ErrorObject (regexpSyntaxErrorMessage engine source).
Proof.
  revert canvas.
  induction elements as [|element rest IH]; intros canvas; simpl; [done|].
  destruct (replacePlaceholders engine _ recipient) as [text| |] eqn:Htext; simpl.
  - apply IH.
  - intros [= <-]. by eapply replacePlaceholders_throws.
  - done.
Qed.

Lemma certificateOf_throws i recipient canvas loadedTemplate loadedElements e :
  certificateOf engine world template textElements imageElements i recipient canvas
                loadedTemplate loadedElements = Throws e ->
  Failure engine world e.
Proof.
  unfold certificateOf, renderCertificate.
  destruct (drawTextElements engine textElements recipient _) as [c| |] eqn:Hdraw; simpl.
  - unfold canvasToBlob. destruct (toBlobIsNull world i); simpl.
    + intros [= <-]. constructor.
    + destruct (sanitizeFilename engine _) as [s| |] eqn:Hname; simpl; try done.
      intros [= <-]. apply sanitizeFilename_throws in Hname as [source ->].
      constructor.
  - intros [= <-]. apply drawTextElements_throws in Hdraw as [source ->]. constructor.
  - done.
Qed.

Lemma loadImageElements_throws e :
  loadImageElements world imageElements = Throws e -> Failure engine world e.
Proof.
  unfold loadImageElements.
  destruct (firstFailure world imageElements None) as [[time src]|]; [|done].
  intros [= <-]. constructor.
Qed.

Lemma loadImage_throws src e :
  loadImage world src = Throws e -> Failure engine world e.
Proof.
  unfold loadImage. destruct (imageFailure world src); [|done].
  intros [= <-]. constructor.
Qed.

Section Callback.

Variable onProgress : bool.

Abbreviation runEach :=
  (generateEach engine world template textElements imageElements onProgress).
Abbreviation runTry :=
  (tryGenerate engine world template textElements imageElements onProgress).
Abbreviation runBatch :=
  (generateBatch engine world template textElements imageElements onProgress).
Abbreviation received := (receivedBy onProgress).

Lemma emit_emitted run :
  Run.emitted (emit onProgress run) = Run.emitted run ++ received [Run.progress run].
Proof. unfold emit, receivedBy. destruct onProgress; simpl; by rewrite ?app_nil_r. Qed.

Lemma emit_progress run : Run.progress (emit onProgress run) = Run.progress run.
Proof. unfold emit. by destruct onProgress. Qed.

Lemma received_app a b : received (a ++ b) = received a ++ received b.
Proof. unfold receivedBy. by destruct onProgress. Qed.

(** The loop, started at index [i] on a progress object that is
    [processing] without error: it processes the first [k] recipients,
    emits one event for each of them in order, and leaves the progress
    object at the last of these events; [k] is the number of recipients
    when the loop completes. *)
Lemma generateEach_events recipients :
  forall i loadedTemplate loadedElements canvas zip run,
    BatchProgress.status (Run.progress run) = Status.processing ->
    BatchProgress.error (Run.progress run) = None ->
    exists k,
      let processed := take k recipients in
      let total := BatchProgress.total (Run.progress run) in
      let result := runEach i recipients loadedTemplate loadedElements canvas zip run in
      k <= List.length recipients
      /\ Run.emitted (fst result)
         = Run.emitted run
           ++ received (imap (fun j => recipientEvent total (i + j)) processed)
      /\ Run.progress (fst result)
         = List.last (imap (fun j => recipientEvent total (i + j)) processed)
                     (Run.progress run)
      /\ match snd result with
         | Returns _ => k = List.length recipients
         | Throws e => 0 < k /\ Failure engine world e
         | Unmodelled => 0 < k
         end.
Proof.
  induction recipients as [|recipient rest IH];
    intros i loadedTemplate loadedElements canvas zip run Hstatus Herror.
  - exists 0. simpl. unfold receivedBy. destruct onProgress; by rewrite app_nil_r.
  - simpl.
    set (run1 := emit onProgress
                   (update (startRecipient i (BatchRecipient.name recipient)) run)).
    assert (Hupdate : Run.progress
                        (update (startRecipient i (BatchRecipient.name recipient)) run)
                      = recipientEvent (BatchProgress.total (Run.progress run)) i recipient).
    { unfold update, startRecipient, recipientEvent. simpl. by rewrite Hstatus, Herror. }
    assert (Hp1 : Run.progress run1
                  = recipientEvent (BatchProgress.total (Run.progress run)) i recipient).
    { unfold run1. by rewrite emit_progress. }
    assert (He1 : Run.emitted run1
                  = Run.emitted run
                    ++ received [recipientEvent (BatchProgress.total (Run.progress run))
                                                i recipient]).
    { unfold run1. by rewrite emit_emitted, Hupdate. }
    destruct (certificateOf engine world template textElements imageElements i recipient
                            canvas loadedTemplate loadedElements)
      as [[[canvas' filename] blob]|e|] eqn:Hcert.
    + destruct (IH (S i) loadedTemplate loadedElements canvas' (<[filename:=blob]> zip) run1)
        as (k & Hk & Hemitted & Hprogress & Hout).
      { by rewrite Hp1. }
      { by rewrite Hp1. }
      exists (S k). cbn zeta in *. rewrite Hp1 in Hemitted, Hprogress. simpl in *.
      rewrite Nat.add_0_r.
      assert (Hshift : imap (fun j => recipientEvent
                                        (BatchProgress.total (Run.progress run)) (S i + j))
                            (take k rest)
                       = imap ((fun j => recipientEvent
                                           (BatchProgress.total (Run.progress run)) (i + j))
                               ∘ S) (take k rest)).
      { apply imap_ext. intros j r _. simpl. f_equal. lia. }
      simpl in Hshift. rewrite Hshift in Hemitted, Hprogress.
      split; [lia|]. split; [|split].
      * rewrite Hemitted, He1, <- app_assoc. f_equal.
        by rewrite <- received_app.
      * rewrite Hprogress.
        destruct (imap _ (take k rest)); [done | apply last_nonempty_default].
      * destruct (snd _); [lia | split; [lia | tauto] | lia].
    + exists 1. simpl. rewrite Nat.add_0_r. repeat split; try done; try lia.
      by eapply certificateOf_throws.
    + exists 1. simpl. rewrite Nat.add_0_r. repeat split; try done; lia.
Qed.

Lemma tryGenerate_spec recipients canvas :
  let n := List.length recipients in
  let run0 := emit onProgress {| Run.progress := initialEvent n; Run.emitted := [] |} in
  exists k,
    k <= n
    /\ match runTry recipients canvas run0 with
       | (run, Returns download) =>
           k = n
           /\ generateAsyncFailure world = None
           /\ Run.emitted run
              = received (initialEvent n :: loopEvents recipients k
                          ++ [finish n (afterLoop recipients k)])
       | (run, Throws e) =>
           Failure engine world e
           /\ ((Run.emitted run = received (initialEvent n :: loopEvents recipients k)
                /\ Run.progress run = afterLoop recipients k)
               \/ (k = n
                   /\ generateAsyncFailure world = Some e
                   /\ Run.emitted run
                      = received (initialEvent n :: loopEvents recipients k
                                  ++ [finish n (afterLoop recipients k)])
                   /\ Run.progress run = finish n (afterLoop recipients k)))
       | (run, Unmodelled) =>
           Run.emitted run = received (initialEvent n :: loopEvents recipients k)
       end.
Proof.
  intros n run0.
  assert (Hp0 : Run.progress run0 = initialEvent n) by apply emit_progress.
  assert (He0 : Run.emitted run0 = received [initialEvent n]).
  { unfold run0. by rewrite emit_emitted. }
  unfold tryGenerate.
  destruct (loadImage world _) as [templateImg|e|] eqn:Htemplate.
  2: { exists 0. split; [lia|]. split; [by eapply loadImage_throws|]. left.
       by rewrite He0, Hp0. }
  2: { exists 0. split; [lia|]. by rewrite He0. }
  destruct (loadImageElements world imageElements) as [loaded|e|] eqn:Hloaded.
  2: { exists 0. split; [lia|]. split; [by eapply loadImageElements_throws|]. left.
       by rewrite He0, Hp0. }
  2: { exists 0. split; [lia|]. by rewrite He0. }
  destruct (generateEach_events recipients 0 templateImg loaded canvas ∅ run0)
    as (k & Hk & Hemitted & Hprogress & Hout).
  { by rewrite Hp0. }
  { by rewrite Hp0. }
  cbn zeta in *. rewrite Hp0, He0 in *.
  change (imap (fun j => recipientEvent (BatchProgress.total (initialEvent n)) (0 + j))
               (take k recipients))
    with (loopEvents recipients k) in *.
  change (List.last (loopEvents recipients k) (initialEvent n))
    with (afterLoop recipients k) in *.
  rewrite <- (received_app [initialEvent n]) in Hemitted. simpl in Hemitted.
  exists k. split; [exact Hk|].
  destruct (runEach 0 recipients templateImg loaded canvas ∅ run0)
    as [run [zip|e|]]; simpl in *.
  - subst k.
    assert (Hfinal : Run.emitted (emit onProgress (update (finish n) run))
                     = received (initialEvent n :: loopEvents recipients n
                                 ++ [finish n (afterLoop recipients n)])).
    { rewrite emit_emitted. simpl. rewrite Hemitted, Hprogress.
      by rewrite <- received_app. }
    destruct (generateAsyncFailure world) as [e|] eqn:Harchive.
    + split; [by constructor|]. right. repeat split; try done.
      rewrite emit_progress. simpl. by rewrite Hprogress.
    + done.
  - destruct Hout as [_ Hfailure]. split; [exact Hfailure|]. by left.
  - done.
Qed.

(** The events and the outcome of a run: an initial event, one event per
    recipient reached, a [complete] event when the loop ends, and an
    [error] event when the run fails; a download on success only. *)
Lemma generateBatch_spec recipients :
  let n := List.length recipients in
  let result := runBatch recipients in
  exists k,
    k <= n
    /\ match BatchResult.settled result with
       | Returns _ =>
           k = n
           /\ BatchResult.events result
              = received (initialEvent n :: loopEvents recipients k
                          ++ [finish n (afterLoop recipients k)])
           /\ exists download, BatchResult.downloads result = [download]
       | Throws e =>
           Failure engine world e
           /\ BatchResult.downloads result = []
           /\ (BatchResult.events result
               = received (initialEvent n :: loopEvents recipients k
                           ++ [fail (errorText e) (afterLoop recipients k)])
               \/ (k = n
                   /\ generateAsyncFailure world = Some e
                   /\ BatchResult.events result
                      = received (initialEvent n :: loopEvents recipients k
                                  ++ [finish n (afterLoop recipients k);
                                      fail (errorText e)
                                           (finish n (afterLoop recipients k))])))
       | Unmodelled =>
           BatchResult.events result
           = received (initialEvent n :: loopEvents recipients k)
           /\ BatchResult.downloads result = []
       end.
Proof.
  intros n result.
  destruct (tryGenerate_spec recipients
              {| Canvas.width := CertificateTemplate.width template;
                 Canvas.height := CertificateTemplate.height template;
                 Canvas.calls := [] |}) as (k & Hk & Hspec).
  cbn zeta in Hspec. exists k. split; [exact Hk|].
  unfold result, generateBatch. fold n.
  change {| BatchProgress.total := n; BatchProgress.current := 0;
            BatchProgress.currentName := None;
            BatchProgress.status := Status.processing;
            BatchProgress.error := None |} with (initialEvent n).
  destruct (runTry recipients _ _) as [run [download|e|]]; simpl.
  - destruct Hspec as (-> & _ & Hemitted). repeat split; [done | by eexists].
  - destruct Hspec as (Hfailure & Hcases). repeat split; [done|].
    rewrite emit_emitted. simpl. fold (errorText e).
    destruct Hcases as [(Hemitted & Hprogress) | (-> & Harchive & Hemitted & Hprogress)].
    + left. rewrite Hemitted, Hprogress.
      rewrite <- received_app. by rewrite app_comm_cons.
    + right. repeat split; try done.
      rewrite Hemitted, Hprogress, <- received_app.
      by rewrite app_comm_cons, <- app_assoc.
  - done.
Qed.

Lemma certificateOf_filename i recipient canvas loadedTemplate loadedElements
    canvas' filename blob :
  certificateOf engine world template textElements imageElements i recipient canvas
                loadedTemplate loadedElements = Returns (canvas', filename, blob) ->
  filename = entryName recipient.
Proof.
  unfold certificateOf.
  destruct (renderCertificate _ _ _ _ _ _ _ _) as [c| |]; simpl; try done.
  destruct (canvasToBlob world i c) as [bl| |]; simpl; try done.
  rewrite sanitizeFilename_sanitized. simpl. by intros [= _ <- _].
Qed.

(** The loop adds to the archive the entry of every recipient. *)
Lemma generateEach_archive recipients :
  forall i loadedTemplate loadedElements canvas (zip zip' : Archive) run,
    snd (runEach i recipients loadedTemplate loadedElements canvas zip run)
    = Returns zip' ->
    dom zip' = dom zip ∪ list_to_set (entryName <$> recipients).
Proof.
  induction recipients as [|recipient rest IH];
    intros i loadedTemplate loadedElements canvas zip zip' run; simpl.
  - intros [= <-]. set_solver.
  - destruct (certificateOf _ _ _ _ _ _ _ _ _ _) as [[[canvas' filename] blob]| |] eqn:Hcert;
      try done.
    intros Hrest. apply certificateOf_filename in Hcert as ->.
    apply IH in Hrest. rewrite Hrest, dom_insert_L. set_solver.
Qed.

(** A run that completes downloads one archive, whose entries are named
    after the recipients. *)
Lemma generateBatch_archive recipients :
  BatchResult.settled (runBatch recipients) = Returns tt ->
  exists download,
    BatchResult.downloads (runBatch recipients) = [download]
    /\ Download.filename download = zipFilename world
    /\ dom (Download.entries download) = list_to_set (entryName <$> recipients).
Proof.
  unfold generateBatch, tryGenerate.
  destruct (loadImage world _) as [templateImg| |]; simpl; try done.
  destruct (loadImageElements world imageElements) as [loaded| |]; simpl; try done.
  destruct (runEach 0 recipients templateImg loaded _ ∅ _) as [run [zip| |]] eqn:Heach;
    simpl; try done.
  destruct (generateAsyncFailure world); simpl; try done.
  intros _.
  assert (Hzip : snd (runEach 0 recipients templateImg loaded
                        {| Canvas.width := CertificateTemplate.width template;
                           Canvas.height := CertificateTemplate.height template;
                           Canvas.calls := [] |} ∅
                        (emit onProgress
                           {| Run.progress :=
                                {| BatchProgress.total := List.length recipients;
                                   BatchProgress.current := 0;
                                   BatchProgress.currentName := None;
                                   BatchProgress.status := Status.processing;
                                   BatchProgress.error := None |};
                              Run.emitted := [] |})) = Returns zip).
  { by rewrite Heach. }
  apply generateEach_archive in Hzip.
  eexists. repeat split. simpl. rewrite Hzip. set_solver.
Qed.

End Callback.

End Orchestrator.

(** *** Order of the progress events *)

Lemma seq_strictlyIncreasing start len : strictlyIncreasing (seq start len).
Proof.
  revert start. induction len as [|len IH]; intros start; simpl; constructor.
  - apply IH.
  - apply Forall_forall. intros x Hx. apply list_elem_of_In, in_seq in Hx. lia.
Qed.

Lemma strictlyIncreasing_neverDecreases l : strictlyIncreasing l -> neverDecreases l.
Proof.
  induction 1 as [|x l Hl IH Hx]; constructor; [exact IH|].
  eapply Forall_impl; [exact Hx|]. intros y Hy. simpl in Hy. lia.
Qed.

Lemma last_map_default {A B : Type} (f : A -> B) (l : list A) (d : A) :
  f (List.last l d) = List.last (List.map f l) (f d).
Proof.
  induction l as [|a l IH]; [done|].
  destruct l as [|b l]; [done|]. exact IH.
Qed.

Lemma currents_loopEvents recipients k :
  k <= List.length recipients -> currents (loopEvents recipients k) = seq 0 k.
Proof.
  intros Hk. unfold currents, loopEvents.
  change (List.map BatchProgress.current
            (imap (recipientEvent (List.length recipients)) (take k recipients)))
    with (BatchProgress.current
            <$> imap (recipientEvent (List.length recipients)) (take k recipients)).
  rewrite fmap_imap.
  change (imap _ (take k recipients))
    with (imap (fun j (_ : BatchRecipient.t) => id j) (take k recipients)).
  rewrite imap_seq_0, list_fmap_id, length_take. f_equal. lia.
Qed.

Lemma current_afterLoop recipients k :
  k <= List.length recipients ->
  BatchProgress.current (afterLoop recipients k) = k - 1.
Proof.
  intros Hk. unfold afterLoop.
  rewrite (last_map_default BatchProgress.current).
  fold (currents (loopEvents recipients k)). rewrite currents_loopEvents by done.
  simpl. destruct k as [|k]; [done|].
  rewrite seq_S, last_last. simpl. lia.
Qed.

(** The [current] values of a run: 0 for the initial event, 0 to [k - 1]
    for the loop, and closing values that are at least [k - 1] and do not
    decrease. *)
Lemma run_neverDecreases k closing :
  neverDecreases closing ->
  Forall (fun c => k - 1 <= c) closing ->
  neverDecreases (0 :: seq 0 k ++ closing).
Proof.
  intros Hclosing Hbound. constructor.
  - apply StronglySorted_app. split; [|split].
    + intros x1 x2 Hx1 Hx2. apply list_elem_of_In, in_seq in Hx1.
      rewrite Forall_forall in Hbound. specialize (Hbound x2 Hx2). simpl in Hbound. lia.
    + apply strictlyIncreasing_neverDecreases, seq_strictlyIncreasing.
    + exact Hclosing.
  - apply Forall_forall. intros x _. lia.
Qed.

(** C2 (as amended).  With a progress callback, a run emits an initial
    event with [current = 0]; then one event per recipient reached, in
    input order, whose [current] values are 0, 1, ..., k - 1, strictly
    increasing, with k the number of recipients when the loop completes;
    then a [complete] event with [current] the number of recipients when
    the loop completed; and last, when the run fails, an [error] event
    that repeats the [current] of the event before it.  Across the whole
    sequence [current] never decreases. *)
Theorem generateBatch_progress_events :
  forall engine world template textElements imageElements recipients,
    let n := List.length recipients in
    let result :=
      generateBatch engine world template textElements imageElements true recipients in
    exists k closing,
      k <= n
      /\ BatchResult.events result = initialEvent n :: loopEvents recipients k ++ closing
      /\ currents (loopEvents recipients k) = seq 0 k
      /\ strictlyIncreasing (currents (loopEvents recipients k))
      /\ neverDecreases (currents (BatchResult.events result))
      /\ match BatchResult.settled result with
         | Returns _ => k = n /\ closing = [finish n (afterLoop recipients k)]
         | Throws e =>
             closing = [fail (errorText e) (afterLoop recipients k)]
             \/ (k = n
                 /\ closing = [finish n (afterLoop recipients k);
                               fail (errorText e) (finish n (afterLoop recipients k))])
         | Unmodelled => closing = []
         end.
Proof.
  intros engine world template textElements imageElements recipients n result.
  destruct (generateBatch_spec engine world template textElements imageElements true
                               recipients) as (k & Hk & Hspec).
  cbn zeta in Hspec. fold n in Hk, Hspec. fold result in Hspec.
  assert (Hloop : currents (loopEvents recipients k) = seq 0 k)
    by (by apply currents_loopEvents).
  assert (Hafter : BatchProgress.current (afterLoop recipients k) = k - 1)
    by (by apply current_afterLoop).
  assert (Hshape : forall closing,
             neverDecreases (currents closing) ->
             Forall (fun c => k - 1 <= c) (currents closing) ->
             neverDecreases (currents (initialEvent n :: loopEvents recipients k ++ closing))).
  { intros closing Hsorted Hbound. unfold currents. simpl. rewrite map_app.
    fold (currents (loopEvents recipients k)). rewrite Hloop.
    by apply run_neverDecreases. }
  exists k.
  destruct (BatchResult.settled result) as [[]|e|].
  - destruct Hspec as (-> & Hevents & _).
    exists [finish n (afterLoop recipients n)]. unfold receivedBy in Hevents.
    rewrite Hevents. repeat split; try done.
    + rewrite Hloop. apply seq_strictlyIncreasing.
    + apply Hshape; simpl.
      * repeat constructor.
      * repeat constructor. lia.
  - destruct Hspec as (_ & _ & [Hevents | (-> & _ & Hevents)]);
      unfold receivedBy in Hevents; rewrite Hevents.
    + exists [fail (errorText e) (afterLoop recipients k)]. repeat split; try done.
      * rewrite Hloop. apply seq_strictlyIncreasing.
      * apply Hshape; simpl.
        -- repeat constructor.
        -- repeat constructor. lia.
      * by left.
    + exists [finish n (afterLoop recipients n);
              fail (errorText e) (finish n (afterLoop recipients n))].
      repeat split; try done.
      * rewrite Hloop. apply seq_strictlyIncreasing.
      * apply Hshape; simpl.
        -- repeat constructor.
        -- repeat constructor; lia.
      * by right.
  - destruct Hspec as (Hevents & _). unfold receivedBy in Hevents. rewrite Hevents.
    exists []. rewrite app_nil_r. repeat split; try done.
    + rewrite Hloop. apply seq_strictlyIncreasing.
    + rewrite <- (app_nil_r (loopEvents recipients k)). apply Hshape; constructor.
Qed.

(** C2, as stated, fails: with one recipient the events have the
    [current] values 0, 0 and 1, which are not strictly increasing. *)
Lemma generateBatch_progress_not_strictly_increasing :
  let result :=
    generateBatch sampleEngine calmWorld (sampleTemplate (str "background.png"))
                  [sampleText] [] true [named "Ann"] in
  currents (BatchResult.events result) = [0; 0; 1]
  /\ ~ strictlyIncreasing (currents (BatchResult.events result)).
Proof.
  assert (Hcurrents :
            currents (BatchResult.events
                        (generateBatch sampleEngine calmWorld
                           (sampleTemplate (str "background.png"))
                           [sampleText] [] true [named "Ann"])) = [0; 0; 1])
    by (vm_compute; reflexivity).
  cbn zeta. split; [exact Hcurrents|].
  rewrite Hcurrents. intros Hsorted. inversion Hsorted as [|x l _ Hhead]; subst.
  inversion Hhead as [|y l' Hlt _]; subst. lia.
Qed.

(** *** Failures *)

Lemma load_message_nonempty src : str "Failed to load image: " ++ src <> [].
Proof. done. Qed.

(** The message the catch block records is never empty, provided the
    messages of the errors that come from outside the program (the
    SyntaxError of the engine, the error of the compression library) are
    not. *)
Lemma errorText_nonempty engine world e :
  (forall source, regexpSyntaxErrorMessage engine source <> []) ->
  generateAsyncFailure world <> Some (ErrorObject []) ->
  Failure engine world e ->
  errorText e <> [].
Proof.
  intros Hengine Harchive [src|source| |e' He'].
  - done.
  - apply Hengine.
  - done.
  - destruct e' as [message|]; [|done].
    simpl. intros ->. by apply Harchive.
Qed.

(** When the background image does not load, the run emits the initial
    event and the error event, rejects with the load error and downloads
    nothing, whatever the recipients. *)
Lemma generateBatch_background_failure engine world template textElements imageElements
    onProgress recipients time :
  imageFailure world (CertificateTemplate.backgroundImage template) = Some time ->
  let n := List.length recipients in
  let message :=
    str "Failed to load image: " ++ CertificateTemplate.backgroundImage template in
  generateBatch engine world template textElements imageElements onProgress recipients
  = {| BatchResult.events :=
         receivedBy onProgress [initialEvent n; fail message (initialEvent n)];
       BatchResult.settled := Throws (ErrorObject message);
       BatchResult.downloads := [] |}.
Proof.
  intros Hfailure n message.
  unfold generateBatch, tryGenerate, loadImage. rewrite Hfailure.
  unfold emit, update, receivedBy. by destruct onProgress.
Qed.

(** *** The archive *)

Lemma size_list_to_set_le (l : list jsstring) :
  size (list_to_set l : gset jsstring) <= List.length l.
Proof.
  induction l as [|x l IH].
  - by rewrite list_to_set_nil, size_empty.
  - rewrite list_to_set_cons, size_union_alt, size_singleton. simpl.
    pose proof (subseteq_size (list_to_set l ∖ {[x]}) (list_to_set l : gset jsstring)) as Hle.
    assert (size (list_to_set l ∖ {[x]} : gset jsstring) <= size (list_to_set l : gset jsstring))
      by (apply Hle; set_solver).
    lia.
Qed.

(** C1 (as amended).  When a run completes, it downloads one archive
    whose entries are exactly the files [certificate_<sanitized-name>.png]
    of the recipients: every recipient has its entry, every entry is the
    entry of a recipient, there is one entry per distinct sanitized name,
    hence at most as many entries as recipients, and exactly as many when
    the sanitized names are pairwise distinct. *)
Theorem generateBatch_archive_entries :
  forall engine world template textElements imageElements onProgress recipients,
    let result :=
      generateBatch engine world template textElements imageElements onProgress
                    recipients in
    BatchResult.settled result = Returns tt ->
    exists download,
      BatchResult.downloads result = [download]
      /\ (forall name,
             is_Some (Download.entries download !! name)
             <-> exists recipient,
                   recipient ∈ recipients
                   /\ name = str "certificate_"
                             ++ sanitized (BatchRecipient.name recipient) ++ str ".png")
      /\ size (Download.entries download) <= List.length recipients
      /\ (NoDup (List.map (fun recipient => sanitized (BatchRecipient.name recipient))
                          recipients) ->
          size (Download.entries download) = List.length recipients).
Proof.
  intros engine world template textElements imageElements onProgress recipients result
         Hsettled.
  destruct (generateBatch_archive engine world template textElements imageElements
                                  onProgress recipients Hsettled)
    as (download & Hdownloads & _ & Hdom).
  exists download. split; [exact Hdownloads|]. split; [|split].
  - intros name. rewrite <- elem_of_dom, Hdom, elem_of_list_to_set, list_elem_of_fmap.
    unfold entryName. naive_solver.
  - rewrite <- size_dom, Hdom, <- (length_fmap entryName).
    apply size_list_to_set_le.
  - intros Hdistinct.
    rewrite <- size_dom, Hdom, <- (length_fmap entryName).
    apply size_list_to_set.
    assert (Hmap : entryName <$> recipients
                   = (fun s => str "certificate_" ++ s ++ str ".png")
                       <$> (List.map (fun recipient =>
                                        sanitized (BatchRecipient.name recipient))
                                     recipients)).
    { unfold entryName. by rewrite <- list_fmap_compose. }
    rewrite Hmap. apply NoDup_fmap_2; [|exact Hdistinct].
    intros a b H. apply app_inv_head in H. by apply app_inv_tail in H.
Qed.

(** The end-to-end scenario of the specification: Ann and Bo. *)
Lemma generateBatch_archive_witness :
  exists download,
    BatchResult.downloads
      (generateBatch sampleEngine calmWorld (sampleTemplate (str "background.png"))
                     [sampleText] [] true [named "Ann"; named "Bo"]) = [download]
    /\ is_Some (Download.entries download !! str "certificate_ann.png")
    /\ is_Some (Download.entries download !! str "certificate_bo.png")
    /\ size (Download.entries download) = 2.
Proof.
  destruct (generateBatch_archive_entries
              sampleEngine calmWorld (sampleTemplate (str "background.png"))
              [sampleText] [] true [named "Ann"; named "Bo"])
    as (download & Hdownloads & Hentries & _ & Hsize).
  - vm_compute. reflexivity.
  - exists download. split; [exact Hdownloads|]. repeat split.
    + apply Hentries. exists (named "Ann"). split; [by left | reflexivity].
    + apply Hentries. exists (named "Bo"). split; [right; by left | reflexivity].
    + apply Hsize. vm_compute. repeat constructor; set_solver.
Defined.

(** C1, as stated, fails: Ann and ann share the file
    [certificate_ann.png], and the archive of the two recipients has one
    entry. *)
Lemma generateBatch_colliding_names :
  let recipients := [named "Ann"; named "ann"] in
  let result :=
    generateBatch sampleEngine calmWorld (sampleTemplate (str "background.png"))
                  [sampleText] [] true recipients in
  BatchResult.settled result = Returns tt
  /\ exists download,
       BatchResult.downloads result = [download]
       /\ dom (Download.entries download) = {[ str "certificate_ann.png" ]}
       /\ size (Download.entries download) = 1
       /\ size (Download.entries download) <> List.length recipients.
Proof.
  cbn zeta.
  assert (Hsettled :
            BatchResult.settled
              (generateBatch sampleEngine calmWorld (sampleTemplate (str "background.png"))
                             [sampleText] [] true [named "Ann"; named "ann"])
            = Returns tt) by (vm_compute; reflexivity).
  split; [exact Hsettled|].
  destruct (generateBatch_archive sampleEngine calmWorld
              (sampleTemplate (str "background.png")) [sampleText] [] true
              [named "Ann"; named "ann"] Hsettled)
    as (download & Hdownloads & _ & Hdom).
  exists download. split; [exact Hdownloads|].
  assert (Hdom' : dom (Download.entries download) = {[ str "certificate_ann.png" ]}).
  { rewrite Hdom.
    change (entryName <$> [named "Ann"; named "ann"])
      with [entryName (named "Ann"); entryName (named "ann")].
    replace (entryName (named "Ann")) with (str "certificate_ann.png")
      by (vm_compute; reflexivity).
    replace (entryName (named "ann")) with (str "certificate_ann.png")
      by (vm_compute; reflexivity).
    set_solver. }
  split; [exact Hdom'|].
  assert (Hsize : size (Download.entries download) = 1)
    by (by rewrite <- size_dom, Hdom', size_singleton).
  split; [exact Hsize|]. rewrite Hsize. simpl. lia.
Qed.

(** ** The placeholder scanner: properties *)

Lemma parsePattern_extract :
  RegExp.parsePattern (str "\{\{([^}]+)\}\}") false = RegExp.POk extractPattern.
Proof. vm_compute. reflexivity. Qed.

Lemma setMatches_notClosing ch :
  RegExp.setMatches false true [RegExp.CChar "}"] ch = negb (isClosing ch).
Proof. each_character ch; vm_compute; reflexivity. Qed.

Lemma sameCanonical_opening ch : RegExp.sameCanonical false "{" ch = isOpening ch.
Proof. each_character ch; reflexivity. Qed.

Lemma sameCanonical_closing ch : RegExp.sameCanonical false "}" ch = isClosing ch.
Proof. each_character ch; reflexivity. Qed.

Lemma notClosing_matcher index rest c :
  RegExp.characterMatcher (RegExp.setMatches false true [RegExp.CChar "}"])
                          (RegExp.startState index rest) c
  = match rest with
    | ch :: rest' => if isClosing ch then RegExp.failure
                     else c (RegExp.startState (S index) rest')
    | [] => RegExp.failure
    end.
Proof.
  unfold RegExp.characterMatcher. cbn [RegExp.startState RegExp.remaining].
  destruct rest as [|ch rest']; [done|].
  rewrite setMatches_notClosing. by destruct (isClosing ch).
Qed.

Lemma startsWith_closing_head ch rest :
  isClosing ch = false -> startsWith false (str "}}") (ch :: rest) = false.
Proof.
  intros H. change (str "}}") with ("}"%char :: ["}"%char]). simpl.
  by rewrite sameCanonical_closing, H.
Qed.

Lemma RepeatMatcher_keyRun (c : RegExp.Continuation) :
  (forall y, startsWith false (str "}}") (RegExp.remaining y) = false -> c y = RegExp.failure) ->
  forall rest fuel index,
    List.length rest < fuel ->
    RegExp.RepeatMatcher fuel
      (RegExp.characterMatcher (RegExp.setMatches false true [RegExp.CChar "}"]))
      0 None true (RegExp.startState index rest) c 1 0
    = c (advance (RegExp.startState index rest) (List.length (keyRun rest))).
Proof.
  intros Hc.
  induction rest as [|ch rest IH]; intros fuel index Hfuel;
    (destruct fuel as [|fuel]; [simpl in Hfuel; lia|]);
    cbn [RegExp.RepeatMatcher Nat.eqb negb andb pred option_map];
    rewrite clearCaptures_startState, notClosing_matcher.
  - cbn [RegExp.orElse keyRun List.length]. by rewrite advance_zero.
  - cbn [keyRun]. destruct (isClosing ch) eqn:Hch.
    + cbn [RegExp.orElse List.length]. by rewrite advance_zero.
    + cbn [RegExp.startState RegExp.endIndex].
      replace (S index =? index) with false by (symmetry; apply Nat.eqb_neq; lia).
      fold (RegExp.startState (S index) rest).
      rewrite IH by (simpl in Hfuel; lia).
      cbn [List.length]. rewrite (advance_startState_S index ch).
      destruct (c (advance (RegExp.startState index (ch :: rest)) (S (List.length (keyRun rest)))))
        eqn:Hlater; cbn [RegExp.orElse]; try done.
      apply Hc. simpl. by apply startsWith_closing_head.
Qed.

Lemma keyRun_prefix rest : firstn (List.length (keyRun rest)) rest = keyRun rest.
Proof.
  induction rest as [|ch rest IH]; [done|]. simpl.
  destruct (isClosing ch); [done|]. simpl. by rewrite IH.
Qed.

Lemma keyRun_length rest : List.length (keyRun rest) <= List.length rest.
Proof.
  induction rest as [|ch rest IH]; simpl; [lia|].
  destruct (isClosing ch); simpl; lia.
Qed.

Lemma compile_extract index rest :
  RegExp.compile false (RegExp.tree extractPattern) (RegExp.startState index rest)
                 RegExp.matched
  = match placeholderAt rest with
    | Some key => RegExp.matched (placeholderMatch index rest key)
    | None => RegExp.failure
    end.
Proof.
  cbn [extractPattern RegExp.tree].
  cbn [RegExp.compile]. 
  unfold RegExp.characterMatcher at 1 2.
  cbn [RegExp.startState RegExp.remaining].
  destruct rest as [|a rest]; [done|].
  rewrite sameCanonical_opening. cbn [placeholderAt].
  destruct (isOpening a) eqn:Ha; [|by destruct rest].
  cbn [RegExp.consume RegExp.remaining RegExp.endIndex RegExp.captures].
  destruct rest as [|b rest]; [done|].
  rewrite sameCanonical_opening.
  destruct (isOpening b) eqn:Hb; [|done].
  cbn [andb]. 
  change (RegExp.consume
            (RegExp.consume (RegExp.startState index (a :: b :: rest)) (b :: rest)) rest)
    with (RegExp.startState (S (S index)) rest).
  cbn [RegExp.RepeatMatcher Nat.eqb negb andb pred option_map].
  rewrite clearCaptures_startState, notClosing_matcher.
  destruct rest as [|ch rest]; [done|].
  cbn [keyRun]. destruct (isClosing ch) eqn:Hch; [done|].
  cbn [RegExp.startState RegExp.endIndex].
  fold (RegExp.startState (S (S (S index))) rest).
  rewrite RepeatMatcher_keyRun.
  - rewrite compile_literal.
    cbn [RegExp.setCapture RegExp.remaining advance RegExp.startState RegExp.endIndex
         RegExp.captures List.filter List.length skipn].
    destruct (startsWith false (str "}}") (skipn (List.length (keyRun rest)) rest)); [|done].
    f_equal. unfold placeholderMatch, advance, RegExp.setCapture.
    cbn [RegExp.remaining RegExp.startState RegExp.endIndex RegExp.captures List.filter
         List.length].
    change (List.length (str "}}")) with 2.
    replace (S (List.length (keyRun rest)) + 4)
      with (S (S (S (List.length (keyRun rest) + 2)))) by lia.
    cbn [skipn]. f_equal.
    + lia.
    + by rewrite drop_drop.
    + replace (S (S (S index)) + List.length (keyRun rest) - S (S index))
        with (S (List.length (keyRun rest))) by lia.
      cbn [firstn]. by rewrite keyRun_prefix.
  - intros y Hy. rewrite compile_literal.
    cbn [RegExp.setCapture RegExp.remaining]. by rewrite Hy.
  - simpl. lia.
Qed.

Lemma keyRun_open rest : Forall (fun c => isClosing c = false) (keyRun rest).
Proof.
  induction rest as [|ch rest IH]; simpl; [constructor|].
  destruct (isClosing ch) eqn:Hch; constructor; done.
Qed.

Lemma keyRun_app key rest :
  Forall (fun c => isClosing c = false) key ->
  keyRun (key ++ "}"%char :: rest) = key.
Proof.
  induction 1 as [|c key Hc Hkey IH]; [done|].
  simpl. by rewrite Hc, IH.
Qed.

Lemma startsWith_closing_inv text :
  startsWith false (str "}}") text = true -> exists after, text = str "}}" ++ after.
Proof.
  change (str "}}") with ("}"%char :: ["}"%char]).
  destruct text as [|a [|b after]]; simpl; try done.
  - by rewrite andb_false_r.
  - rewrite !sameCanonical_closing, andb_true_r. intros H.
    apply andb_true_iff in H as [Ha Hb].
    apply Ascii.eqb_eq in Ha as ->. apply Ascii.eqb_eq in Hb as ->. by exists after.
Qed.

(** A text starts with a placeholder of key [key] exactly when it starts
    with the token of [key], [key] is not empty and holds no closing
    brace. *)
Lemma placeholderAt_Some text key :
  placeholderAt text = Some key
  <-> key <> [] /\ Forall (fun c => isClosing c = false) key
      /\ exists after, text = token key ++ after.
Proof.
  split.
  - destruct text as [|a [|b rest]]; cbn [placeholderAt]; try done.
    destruct (isOpening a) eqn:Ha; [|done]. destruct (isOpening b) eqn:Hb; [|done].
    cbn [andb]. destruct (keyRun rest) as [|c run] eqn:Hrun; [done|].
    destruct (startsWith false (str "}}") (skipn (List.length (c :: run)) rest)) eqn:Hclose;
      [|done].
    intros [= <-]. split; [done|]. split.
    + rewrite <- Hrun. apply keyRun_open.
    + apply startsWith_closing_inv in Hclose as [after Hafter]. exists after.
      apply Ascii.eqb_eq in Ha as ->. apply Ascii.eqb_eq in Hb as ->.
      unfold token. rewrite <- Hrun, <- keyRun_prefix, <- !app_assoc, <- Hafter.
      rewrite Hrun at 1. by rewrite firstn_skipn.
  - intros (Hkey & Hopen & after & ->). unfold token.
    change (str "{{" ++ key ++ str "}}") with ("{"%char :: "{"%char :: key ++ str "}}").
    rewrite <- !app_comm_cons. cbn [placeholderAt].
    change (isOpening "{") with true. cbn [andb].
    rewrite <- app_assoc. change (str "}}" ++ after) with ("}"%char :: "}"%char :: after).
    rewrite keyRun_app by done.
    destruct key as [|c key]; [done|].
    rewrite drop_app_length. reflexivity.
Qed.

Lemma placeholderAt_length text key :
  placeholderAt text = Some key -> List.length key + 4 <= List.length text.
Proof.
  intros H. apply placeholderAt_Some in H as (_ & _ & after & ->).
  unfold token. rewrite !length_app. simpl. lia.
Qed.

Lemma placeholdersOf_skip :
  forall text skip, placeholdersOf skip text = placeholdersOf 0 (skipn skip text).
Proof.
  induction text as [|a text IH]; intros skip.
  - by destruct skip.
  - destruct skip as [|skip]; [done|]. simpl. apply IH.
Qed.

Lemma exec_none text lastIndex :
  lastIndex <= List.length text ->
  skipn lastIndex text = [] ->
  exec extractPattern text lastIndex = Returns (None, 0).
Proof.
  intros Hindex Hrest. unfold exec.
  replace (List.length text <? lastIndex) with false by (symmetry; apply Nat.ltb_ge; lia).
  rewrite Hrest. cbn [RegExp.execFrom extractPattern RegExp.ignoreCase].
  by rewrite compile_extract.
Qed.

Lemma exec_found text lastIndex rest key :
  lastIndex <= List.length text ->
  skipn lastIndex text = rest ->
  placeholderAt rest = Some key ->
  exec extractPattern text lastIndex
  = Returns (Some (placeholderMatch lastIndex rest key), lastIndex + (List.length key + 4)).
Proof.
  intros Hindex Hrest Hkey. unfold exec.
  replace (List.length text <? lastIndex) with false by (symmetry; apply Nat.ltb_ge; lia).
  rewrite Hrest.
  destruct rest as [|a rest]; [done|].
  cbn [RegExp.execFrom extractPattern RegExp.ignoreCase].
  by rewrite compile_extract, Hkey.
Qed.

Lemma exec_skip text lastIndex a rest :
  skipn lastIndex text = a :: rest ->
  placeholderAt (a :: rest) = None ->
  exec extractPattern text lastIndex = exec extractPattern text (S lastIndex).
Proof.
  intros Hrest Hnone.
  assert (Hlength : lastIndex < List.length text).
  { apply (f_equal (@List.length ascii)) in Hrest. rewrite length_skipn in Hrest.
    simpl in Hrest. lia. }
  assert (Hnext : skipn (S lastIndex) text = rest).
  { replace (S lastIndex) with (lastIndex + 1) by lia.
    rewrite <- drop_drop, Hrest. reflexivity. }
  unfold exec.
  replace (List.length text <? lastIndex) with false by (symmetry; apply Nat.ltb_ge; lia).
  replace (List.length text <? S lastIndex) with false by (symmetry; apply Nat.ltb_ge; lia).
  rewrite Hrest, Hnext.
  cbn [RegExp.execFrom extractPattern RegExp.ignoreCase].
  rewrite compile_extract, Hnone.
  destruct (RegExp.execFrom _ (S lastIndex) rest); reflexivity.
Qed.

Lemma matchGroup_placeholderMatch index rest key :
  matchGroup (placeholderMatch index rest key) 1 = Some key.
Proof. reflexivity. Qed.

Lemma collectMatches_placeholders text :
  forall n rest fuel lastIndex placeholders,
    List.length rest <= n ->
    List.length rest < fuel ->
    lastIndex <= List.length text ->
    skipn lastIndex text = rest ->
    collectMatches fuel extractPattern text lastIndex placeholders
    = Returns (addAll (placeholdersOf 0 rest) placeholders, 0).
Proof.
  induction n as [|n IH]; intros rest fuel lastIndex placeholders Hn Hfuel Hindex Hrest.
  - destruct rest as [|a rest]; [|simpl in Hn; lia].
    destruct fuel as [|fuel]; [simpl in Hfuel; lia|].
    cbn [collectMatches]. by rewrite exec_none.
  - destruct rest as [|a rest].
    { apply IH; simpl; try done; lia. }
    destruct fuel as [|fuel]; [simpl in Hfuel; lia|].
    assert (Hlength : lastIndex < List.length text).
    { apply (f_equal (@List.length ascii)) in Hrest. rewrite length_skipn in Hrest.
      simpl in Hrest. lia. }
    destruct (placeholderAt (a :: rest)) as [key|] eqn:Hkey.
    + cbn [collectMatches]. rewrite (exec_found text lastIndex (a :: rest) key) by (done || lia).
      cbn [bindO]. rewrite matchGroup_placeholderMatch.
      pose proof (placeholderAt_length _ _ Hkey) as Hlen.
      assert (Hall : List.length (a :: rest) = List.length text - lastIndex).
      { by rewrite <- Hrest, length_skipn. }
      rewrite (IH (skipn (List.length key + 4) (a :: rest))).
      * cbn [placeholdersOf]. rewrite Hkey. cbn [addAll fold_left].
        rewrite (placeholdersOf_skip rest).
        replace (List.length key + 4) with (S (List.length key + 3)) by lia.
        reflexivity.
      * rewrite length_skipn. simpl in *. lia.
      * rewrite length_skipn. simpl in *. lia.
      * simpl in *. lia.
      * by rewrite <- Hrest, drop_drop.
    + cbn [collectMatches]. rewrite (exec_skip text lastIndex a rest) by done.
      assert (Hnext : skipn (S lastIndex) text = rest).
      { replace (S lastIndex) with (lastIndex + 1) by lia.
        rewrite <- drop_drop, Hrest. reflexivity. }
      specialize (IH rest (S fuel) (S lastIndex) placeholders).
      cbn [collectMatches] in IH. rewrite IH; try done; try (simpl in *; lia).
      cbn [placeholdersOf]. by rewrite Hkey.
Qed.

Lemma addAll_app a b placeholders :
  addAll (a ++ b) placeholders = addAll b (addAll a placeholders).
Proof. unfold addAll. apply fold_left_app. Qed.

Lemma scanElements_placeholders textElements :
  forall placeholders,
    scanElements extractPattern textElements 0 placeholders
    = Returns (addAll (allPlaceholders textElements) placeholders, 0).
Proof.
  induction textElements as [|element rest IH]; intros placeholders; [done|].
  cbn [scanElements].
  rewrite (collectMatches_placeholders _ (List.length (TextElement.text element))
             (TextElement.text element)); [|lia|lia|lia|done].
  cbn [bindO]. rewrite IH. unfold allPlaceholders. cbn [List.map List.concat].
  by rewrite addAll_app.
Qed.

Lemma existsb_sameString key (l : list jsstring) :
  existsb (sameString key) l = true <-> key ∈ l.
Proof.
  rewrite existsb_exists. split.
  - intros (x & Hx & Heq). unfold sameString in Heq. apply bool_decide_eq_true in Heq as ->.
    by apply list_elem_of_In.
  - intros H. exists key. split; [by apply list_elem_of_In|].
    unfold sameString. by apply bool_decide_eq_true.
Qed.

Lemma elem_of_setAdd key k (l : list jsstring) : k ∈ setAdd key l <-> k ∈ l \/ k = key.
Proof.
  unfold setAdd. destruct (existsb (sameString key) l) eqn:H.
  - apply existsb_sameString in H. split; [by left|]. by intros [?| ->].
  - rewrite elem_of_app, list_elem_of_singleton. tauto.
Qed.

Lemma NoDup_setAdd key (l : list jsstring) : NoDup l -> NoDup (setAdd key l).
Proof.
  intros Hl. unfold setAdd. destruct (existsb (sameString key) l) eqn:H; [done|].
  apply NoDup_app. split; [done|]. split; [|apply NoDup_singleton].
  intros x Hx Hkey. apply list_elem_of_singleton in Hkey as ->.
  apply existsb_sameString in Hx. congruence.
Qed.

Lemma elem_of_addAll keys : forall (l : list jsstring) k, k ∈ addAll keys l <-> k ∈ l \/ k ∈ keys.
Proof.
  induction keys as [|key keys IH]; intros l k; simpl.
  - rewrite elem_of_nil. tauto.
  - rewrite IH, elem_of_setAdd, elem_of_cons. tauto.
Qed.

Lemma NoDup_addAll keys : forall l : list jsstring, NoDup l -> NoDup (addAll keys l).
Proof.
  induction keys as [|key keys IH]; intros l Hl; simpl; [done|].
  by apply IH, NoDup_setAdd.
Qed.

Lemma addAll_setAdd key t : forall s, addAll (setAdd key t) s = setAdd key (addAll t s).
Proof.
  intros s. unfold setAdd at 1. destruct (existsb (sameString key) t) eqn:H.
  - apply existsb_sameString in H.
    assert (Hin : key ∈ addAll t s) by (apply elem_of_addAll; by right).
    apply existsb_sameString in Hin. unfold setAdd. by rewrite Hin.
  - by rewrite addAll_app.
Qed.

Lemma addAll_addAll b : forall t s, addAll (addAll b t) s = addAll b (addAll t s).
Proof.
  induction b as [|k b IH]; intros t s; [done|].
  cbn [addAll fold_left]. fold (addAll b (setAdd k t)). fold (addAll b (setAdd k (addAll t s))).
  by rewrite IH, addAll_setAdd.
Qed.

(** [extractPlaceholders] always returns, and returns what the scan of
    the texts finds. *)
Lemma extractPlaceholders_scan :
  forall engine textElements,
    extractPlaceholders engine textElements
    = Returns (distinct (allPlaceholders textElements)).
Proof.
  intros engine textElements. unfold extractPlaceholders, newRegExp.
  rewrite parsePattern_extract. cbn [bindO].
  by rewrite scanElements_placeholders.
Qed.

Lemma elem_of_placeholdersOf key :
  forall text skip,
    key ∈ placeholdersOf skip text ->
    exists n, placeholderAt (skipn n text) = Some key.
Proof.
  induction text as [|a text IH]; intros skip; [by rewrite elem_of_nil|].
  cbn [placeholdersOf]. destruct skip as [|skip].
  - destruct (placeholderAt (a :: text)) as [found|] eqn:Hfound.
    + rewrite elem_of_cons. intros [-> | Hin].
      * by exists 0.
      * apply IH in Hin as [n Hn]. by exists (S n).
    + intros Hin. apply IH in Hin as [n Hn]. by exists (S n).
  - intros Hin. apply IH in Hin as [n Hn]. by exists (S n).
Qed.

Lemma isClosing_false c : isClosing c = false <-> c <> "}"%char.
Proof. unfold isClosing. by rewrite Ascii.eqb_neq. Qed.

Lemma elem_of_allPlaceholders key textElements :
  key ∈ allPlaceholders textElements ->
  exists element, element ∈ textElements
                  /\ key ∈ placeholdersOf 0 (TextElement.text element).
Proof.
  unfold allPlaceholders. intros H. apply list_elem_of_In, in_concat in H as (l & Hl & Hkey).
  apply in_map_iff in Hl as (element & <- & Helement).
  exists element. split; by apply list_elem_of_In.
Qed.

(** X2.  The keys [extractPlaceholders] returns are pairwise distinct;
    each is not empty, holds no closing brace, and stands between two
    opening and two closing braces in the text of some element. *)
Theorem extractPlaceholders_keys :
  forall engine textElements,
  exists keys,
    extractPlaceholders engine textElements = Returns keys
    /\ NoDup keys
    /\ forall key,
         key ∈ keys ->
         key <> []
         /\ Forall (fun c => c <> "}"%char) key
         /\ exists element before after,
              element ∈ textElements
              /\ TextElement.text element = before ++ str "{{" ++ key ++ str "}}" ++ after.
Proof.
  intros engine textElements. exists (distinct (allPlaceholders textElements)).
  split; [apply extractPlaceholders_scan|]. split.
  - apply NoDup_addAll. constructor.
  - intros key Hkey. apply elem_of_addAll in Hkey as [Hkey | Hkey]; [by apply elem_of_nil in Hkey|].
    apply elem_of_allPlaceholders in Hkey as (element & Helement & Hkey).
    apply elem_of_placeholdersOf in Hkey as [n Hn].
    apply placeholderAt_Some in Hn as (Hnonempty & Hopen & after & Hafter).
    split; [done|]. split.
    + eapply Forall_impl; [exact Hopen|]. intros c. apply isClosing_false.
    + exists element, (firstn n (TextElement.text element)), after.
      split; [done|].
      rewrite <- (firstn_skipn n (TextElement.text element)) at 1.
      rewrite Hafter. unfold token. by rewrite <- !app_assoc.
Qed.

Lemma placeholdersOf_literal text rest :
  forallb (fun c => negb (isOpening c)) text = true ->
  placeholdersOf 0 (text ++ rest) = placeholdersOf 0 rest.
Proof.
  induction text as [|c text IH]; [done|].
  simpl forallb. intros H. apply andb_true_iff in H as [Hc Htext].
  apply negb_true_iff in Hc.
  rewrite <- app_comm_cons. cbn [placeholdersOf].
  replace (placeholderAt (c :: text ++ rest)) with (@None jsstring).
  - by apply IH.
  - cbn [placeholderAt]. destruct (text ++ rest); [done|]. by rewrite Hc.
Qed.

Lemma placeholdersOf_token key rest :
  wellFormedPart (Placeholder key) = true ->
  placeholdersOf 0 (token key ++ rest) = key :: placeholdersOf 0 rest.
Proof.
  intros Hkey. cbn [wellFormedPart] in Hkey.
  assert (Hat : placeholderAt (token key ++ rest) = Some key).
  { apply placeholderAt_Some. destruct key as [|c key]; [done|].
    split; [done|]. split; [|by exists rest].
    apply Forall_forall. intros x Hx. rewrite forallb_forall in Hkey.
    apply negb_true_iff, Hkey. by apply list_elem_of_In. }
  unfold token in *.
  change (str "{{" ++ key ++ str "}}") with ("{"%char :: "{"%char :: key ++ str "}}") in *.
  rewrite <- !app_comm_cons in *. cbn [placeholdersOf]. rewrite Hat. f_equal.
  replace (List.length key + 3) with (S (List.length (key ++ str "}}")))
    by (rewrite length_app; simpl; lia).
  cbn [placeholdersOf].
  by rewrite (placeholdersOf_skip ((key ++ str "}}") ++ rest)), drop_app_length.
Qed.

Lemma placeholdersOf_template parts :
  forallb wellFormedPart parts = true ->
  placeholdersOf 0 (templateText parts) = keysOf parts.
Proof.
  induction parts as [|part parts IH]; [done|].
  simpl forallb. intros H. apply andb_true_iff in H as [Hpart Hparts].
  unfold templateText, keysOf in *. cbn [List.map List.concat].
  destruct part as [text|key]; cbn [partText].
  - rewrite placeholdersOf_literal by done. by apply IH.
  - rewrite placeholdersOf_token by done. cbn [app]. f_equal. by apply IH.
Qed.

Lemma extractPlaceholders_template :
  forall engine textElements layout,
    Forall2 (fun element parts =>
               TextElement.text element = templateText parts
               /\ forallb wellFormedPart parts = true) textElements layout ->
    extractPlaceholders engine textElements
    = Returns (distinct (List.concat (List.map keysOf layout))).
Proof.
  intros engine textElements layout Hlayout.
  rewrite extractPlaceholders_scan. do 2 f_equal.
  unfold allPlaceholders.
  induction Hlayout as [|element parts textElements layout [Htext Hparts] _ IH]; [done|].
  cbn [List.map List.concat]. rewrite IH, Htext. f_equal.
  by apply placeholdersOf_template.
Qed.

Lemma sameString_sym a b : sameString a b = sameString b a.
Proof. unfold sameString. apply bool_decide_ext. split; congruence. Qed.

Lemma filter_filter_comm {A : Type} (f g : A -> bool) (l : list A) :
  List.filter f (List.filter g l) = List.filter (fun x => g x && f x) l.
Proof.
  induction l as [|x l IH]; [done|]. simpl.
  destruct (g x); simpl; [destruct (f x)|]; by rewrite IH.
Qed.

Lemma addAll_newKeys keys :
  forall placeholders,
    addAll keys placeholders = placeholders ++ newKeys placeholders (firstOccurrences keys).
Proof.
  induction keys as [|key keys IH]; intros placeholders.
  - unfold newKeys. simpl. by rewrite app_nil_r.
  - cbn [addAll fold_left firstOccurrences]. fold (addAll keys (setAdd key placeholders)).
    rewrite IH. unfold setAdd, newKeys. cbn [List.filter].
    destruct (existsb (sameString key) placeholders) eqn:Hin; cbn [negb].
    + f_equal. rewrite filter_filter_comm. apply filter_ext_in. intros other Hother.
      destruct (sameString key other) eqn:Hsame; [|done].
      unfold sameString in Hsame. apply bool_decide_eq_true in Hsame as <-.
      by rewrite Hin.
    + rewrite <- app_assoc. f_equal. cbn [app]. f_equal.
      rewrite filter_filter_comm. apply filter_ext. intros other.
      rewrite existsb_app. cbn [existsb]. rewrite orb_false_r, negb_orb.
      rewrite (sameString_sym other key). apply andb_comm.
Qed.

Lemma newKeys_nil keys : newKeys [] keys = keys.
Proof.
  unfold newKeys. rewrite (filter_ext _ (fun _ => true)) by done.
  induction keys as [|key keys IH]; [done|]. simpl. by rewrite IH.
Qed.

Lemma distinct_firstOccurrences keys : distinct keys = firstOccurrences keys.
Proof. unfold distinct. by rewrite addAll_newKeys, newKeys_nil.
Qed.

(** X4.  The pattern object is shared by the text elements, but its
    [lastIndex] is back at 0 after each of them: the keys of two lists of
    elements put together are the keys of the first list followed by the
    keys of the second that the first did not give. *)
Theorem extractPlaceholders_app :
  forall engine front back,
  exists frontKeys backKeys,
    extractPlaceholders engine front = Returns frontKeys
    /\ extractPlaceholders engine back = Returns backKeys
    /\ extractPlaceholders engine (front ++ back)
       = Returns (frontKeys
                  ++ List.filter (fun key => negb (existsb (sameString key) frontKeys))
                                 backKeys).
Proof.
  intros engine front back.
  exists (distinct (allPlaceholders front)), (distinct (allPlaceholders back)).
  rewrite !extractPlaceholders_scan. repeat split.
  f_equal. unfold distinct, allPlaceholders.
  rewrite map_app, concat_app, addAll_app.
  fold (allPlaceholders front). fold (allPlaceholders back).
  rewrite addAll_newKeys. f_equal.
  fold (distinct (allPlaceholders back)). by rewrite distinct_firstOccurrences.
Qed.

(** X1.  [extractPlaceholders] never throws and always returns: the keys
    that a scan of each text from the left finds, in the order of their
    first occurrence and each once.  A placeholder is two opening braces,
    the longest run of characters other than the closing brace, which is
    not empty, and two closing braces; the scan goes on behind it. *)
Theorem extractPlaceholders_first_occurrences :
  forall engine textElements,
    extractPlaceholders engine textElements
    = Returns (firstOccurrences (allPlaceholders textElements)).
Proof.
  intros engine textElements.
  by rewrite extractPlaceholders_scan, distinct_firstOccurrences.
Qed.

(** X3.  When every text is made of literal parts without opening brace
    and of placeholders whose keys are not empty and hold no closing
    brace, [extractPlaceholders] returns exactly the keys of the
    placeholders, in the order of their first occurrence, each once, with
    their case and their spaces. *)
Theorem extractPlaceholders_well_formed :
  forall engine textElements layout,
    Forall2 (fun element parts =>
               TextElement.text element = templateText parts
               /\ forallb wellFormedPart parts = true) textElements layout ->
    extractPlaceholders engine textElements
    = Returns (firstOccurrences (List.concat (List.map keysOf layout))).
Proof.
  intros engine textElements layout Hlayout.
  by rewrite (extractPlaceholders_template engine textElements layout),
    distinct_firstOccurrences.
Qed.

Lemma extractPlaceholders_well_formed_witness :
  extractPlaceholders sampleEngine
    [sampleText;
     {| TextElement.id := str "e2";
        TextElement.text := str "{{title}} {{name}}, {{{org}}} on {{date}}";
        TextElement.position := {| Position.x := 10; Position.y := 50 |};
        TextElement.fontSize := 16;
        TextElement.fontFamily := str "Arial";
        TextElement.color := str "#000000";
        TextElement.fontWeight := FontWeight.normal;
        TextElement.fontStyle := FontStyle.normal;
        TextElement.textAlign := TextAlign.left |}]
  = Returns [str "name"; str "title"; str "{org"; str "date"].
Proof.
  apply (extractPlaceholders_well_formed sampleEngine _
           [[Literal (str "Certificate for "); Placeholder (str "name")];
            [Placeholder (str "title"); Literal (str " "); Placeholder (str "name");
             Literal (str ", "); Placeholder (str "{org"); Literal (str "} on ");
             Placeholder (str "date")]]).
  repeat constructor.
Defined.

(** ** Dollar patterns: properties *)

Lemma dollarSafe_cons c value :
  dollarSafe (c :: value)
  = negb (Ascii.eqb c "$"%char
          && match value with d :: _ => isDollarPattern d | [] => false end)
    && dollarSafe value.
Proof. reflexivity. Qed.

Lemma GetSubstitution_nil matchedText before after caps captureLen :
  RegExp.GetSubstitution matchedText before after caps captureLen [] = [].
Proof. reflexivity. Qed.

Lemma GetSubstitution_plain matchedText before after caps captureLen c template :
  Ascii.eqb c "$"%char = false ->
  RegExp.GetSubstitution matchedText before after caps captureLen (c :: template)
  = c :: RegExp.GetSubstitution matchedText before after caps captureLen template.
Proof. intros H. each_character c; try discriminate H; reflexivity. Qed.

Lemma GetSubstitution_last_dollar matchedText before after caps captureLen :
  RegExp.GetSubstitution matchedText before after caps captureLen ["$"%char] = ["$"%char].
Proof. reflexivity. Qed.

(** The dollar sign in front of a character that is none of [$], [&], the
    backquote and the quote: the case of the digits and the default case
    of GetSubstitution. *)
Lemma GetSubstitution_unfold matchedText before after caps captureLen d template :
  isDollarPattern d = false ->
  RegExp.GetSubstitution matchedText before after caps captureLen ("$"%char :: d :: template)
  = let go := RegExp.GetSubstitution matchedText before after caps captureLen in
    if RegExp.isDigit d then
      let one :=
        if (1 <=? RegExp.digitValue d) && (RegExp.digitValue d <=? captureLen)
        then RegExp.captureOf caps (RegExp.digitValue d) ++ go template
        else "$"%char :: d :: go template in
      match template with
      | d2 :: t3 =>
          if RegExp.isDigit d2 then
            let index := 10 * RegExp.digitValue d + RegExp.digitValue d2 in
            if captureLen <? index then one
            else if 1 <=? index then RegExp.captureOf caps index ++ go t3
            else "$"%char :: d :: d2 :: go t3
          else one
      | [] => one
      end
    else "$"%char :: go (d :: template).
Proof. intros Hd. each_character d; try discriminate Hd; reflexivity. Qed.

Lemma isDigit_plain d : RegExp.isDigit d = true -> Ascii.eqb d "$"%char = false.
Proof. intros H. each_character d; try discriminate H; reflexivity. Qed.

(** Without capturing groups, a dollar sign in front of a character that
    makes no pattern stands for itself. *)
Lemma GetSubstitution_dollar matchedText before after caps d template :
  isDollarPattern d = false ->
  RegExp.GetSubstitution matchedText before after caps 0 ("$"%char :: d :: template)
  = "$"%char :: RegExp.GetSubstitution matchedText before after caps 0 (d :: template).
Proof.
  intros Hd. rewrite GetSubstitution_unfold by done. cbn zeta.
  destruct (RegExp.isDigit d) eqn:Hdigit; [|done].
  rewrite (GetSubstitution_plain _ _ _ _ _ d) by (by apply isDigit_plain).
  replace ((1 <=? RegExp.digitValue d) && (RegExp.digitValue d <=? 0)) with false
    by (by destruct (RegExp.digitValue d)).
  destruct template as [|d2 t3]; [done|].
  destruct (RegExp.isDigit d2) eqn:Hdigit2; [|done].
  destruct (0 <? 10 * RegExp.digitValue d + RegExp.digitValue d2) eqn:Hindex; [done|].
  apply Nat.ltb_ge in Hindex.
  replace (1 <=? 10 * RegExp.digitValue d + RegExp.digitValue d2) with false
    by (symmetry; apply Nat.leb_gt; lia).
  by rewrite (GetSubstitution_plain _ _ _ _ _ d2) by (by apply isDigit_plain).
Qed.

Lemma GetSubstitution_dollarSafe matchedText before after caps template :
  dollarSafe template = true ->
  RegExp.GetSubstitution matchedText before after caps 0 template = template.
Proof.
  induction template as [|c template IH]; [done|].
  rewrite dollarSafe_cons. intros H. apply andb_true_iff in H as [Hc Htemplate].
  apply negb_true_iff in Hc.
  destruct (Ascii.eqb c "$"%char) eqn:Hdollar.
  - apply Ascii.eqb_eq in Hdollar as ->. cbn [andb] in Hc.
    destruct template as [|d template]; [reflexivity|].
    rewrite GetSubstitution_dollar by done. by rewrite IH.
  - rewrite GetSubstitution_plain by done. by rewrite IH.
Qed.

Section SafeReplace.

Variable rx : RegExp.RegExpObject.
Variable matchLength : nat -> jsstring -> option nat.
Variable replaceValue : jsstring.
Variable input : jsstring.

Hypothesis rx_matches :
  forall index rest,
    RegExp.compile (RegExp.ignoreCase rx) (RegExp.tree rx)
                   (RegExp.startState index rest) RegExp.matched
    = match matchLength index rest with
      | Some n => RegExp.matched (advance (RegExp.startState index rest) n)
      | None => RegExp.failure
      end.
Hypothesis matches_bounded :
  forall index rest n, matchLength index rest = Some n -> 0 < n <= List.length rest.
Hypothesis no_groups : RegExp.nCaptures rx = 0.
Hypothesis replaceValue_dollarSafe : dollarSafe replaceValue = true.

Lemma replaceFrom_dollarSafe :
  forall n rest fuel lastIndex,
    List.length rest <= n ->
    List.length rest < fuel ->
    RegExp.replaceFrom rx replaceValue input fuel lastIndex rest
    = Returns (replaceMatches matchLength replaceValue lastIndex 0 rest).
Proof.
  induction n as [|n IH]; intros rest fuel lastIndex Hn Hfuel.
  - destruct rest as [|a rest]; [|simpl in Hn; lia].
    destruct fuel as [|fuel]; [simpl in Hfuel; lia|].
    cbn [RegExp.replaceFrom RegExp.execFrom]. rewrite rx_matches.
    destruct (matchLength lastIndex []) as [m|] eqn:Hlength; [|done].
    apply matches_bounded in Hlength. simpl in Hlength. lia.
  - destruct rest as [|a rest].
    { apply IH; simpl in *; lia. }
    destruct fuel as [|fuel]; [simpl in Hfuel; lia|].
    destruct (matchLength lastIndex (a :: rest)) as [m|] eqn:Hlength.
    + pose proof (matches_bounded _ _ _ Hlength) as Hm.
      cbn [RegExp.replaceFrom RegExp.execFrom]. rewrite rx_matches, Hlength.
      unfold RegExp.substitution. rewrite no_groups, GetSubstitution_dollarSafe by done.
      cbn [advance RegExp.endIndex RegExp.remaining RegExp.startState].
      replace (lastIndex + m =? lastIndex) with false
        by (symmetry; apply Nat.eqb_neq; lia).
      rewrite Nat.sub_diag. cbn [firstn app].
      rewrite IH.
      * cbn [bindO replaceMatches]. rewrite Hlength.
        rewrite (replaceMatches_skip _ _ rest (S lastIndex) (m - 1)).
        do 3 f_equal; [lia|].
        destruct m as [|m]; [lia|]. simpl. by rewrite Nat.sub_0_r.
      * rewrite length_skipn. simpl in *. lia.
      * rewrite length_skipn. simpl in *. lia.
    + rewrite replaceFrom_skip.
      * rewrite IH by (simpl in *; lia).
        cbn [bindO replaceMatches]. by rewrite Hlength.
      * by rewrite rx_matches, Hlength.
Qed.

End SafeReplace.

Lemma replaceAll_dollarSafe engine key value text :
  plainKey key = true ->
  dollarSafe value = true ->
  replaceAll engine (customPattern key) true value text
  = Returns (replaceEvery true (token key) value 0 text).
Proof.
  intros Hkey Hvalue. unfold replaceAll, newRegExp.
  rewrite parsePattern_plain_key by done. cbn [bindO]. unfold RegExp.replace.
  rewrite (replaceFrom_dollarSafe _ (literalLength true (token key)) _ _)
    with (n := List.length text); try done; try lia.
  - by rewrite replaceMatches_literal.
  - intros index rest. cbn [RegExp.tree RegExp.ignoreCase]. rewrite compile_literal.
    unfold literalLength. cbn [RegExp.startState RegExp.remaining].
    by destruct (startsWith true (token key) rest).
  - intros index rest n. unfold literalLength.
    destruct (startsWith true (token key) rest) eqn:Hstarts; [|done].
    intros [= <-]. apply startsWith_length in Hstarts.
    unfold token in *. rewrite !length_app in *. simpl in *. lia.
Qed.

Lemma replaceCustomFields_dollarSafe engine entries :
  safeEntries entries = true ->
  forall text,
    replaceCustomFields engine entries text = Returns (replaceEveryCustom entries text).
Proof.
  induction entries as [|[key value] entries IH]; intros Hsafe text; [done|].
  simpl in Hsafe. apply andb_true_iff in Hsafe as [Hentry Hentries].
  apply andb_true_iff in Hentry as [Hkey Hvalue].
  cbn [replaceCustomFields]. rewrite replaceAll_dollarSafe by done.
  cbn [bindO]. by rewrite IH.
Qed.

Lemma dollarFree_dollarSafe value : dollarFree value = true -> dollarSafe value = true.
Proof.
  induction value as [|c value IH]; [done|].
  simpl. intros H. apply andb_true_iff in H as [Hc Hvalue].
  apply negb_true_iff in Hc. rewrite Hc. simpl. by apply IH.
Qed.

Lemma replacePlaceholders_substitute_safe :
  forall engine recipient text,
    safeRecipient recipient = true ->
    replacePlaceholders engine text recipient = Returns (substitute text recipient).
Proof.
  intros engine recipient text. unfold safeRecipient. intros H.
  apply andb_true_iff in H as [H Hentries]. apply andb_true_iff in H as [H Hdate].
  apply andb_true_iff in H as [Hname Htitle].
  unfold replacePlaceholders, substitute, entriesOf in *.
  change (str "\{\{name\}\}") with (customPattern (str "name")).
  change (str "\{\{title\}\}") with (customPattern (str "title")).
  change (str "\{\{date\}\}") with (customPattern (str "date")).
  rewrite replaceAll_dollarSafe by done. cbn [bindO].
  rewrite replaceAll_dollarSafe by done. cbn [bindO].
  rewrite replaceAll_dollarSafe by done. cbn [bindO].
  destruct (BatchRecipient.customFields recipient) as [entries|]; [|done].
  by apply replaceCustomFields_dollarSafe.
Qed.

(** X5.  For a recipient whose custom keys hold no syntax character of
    patterns and whose name, title, date and custom values hold no dollar
    sign followed by [$], [&], a backquote or a quote, the program
    computes the specification's [substitute] on every text: any other
    dollar sign, as in [US$ 100] or [$5], is inserted as it is. *)
Theorem replacePlaceholders_dollar_safe :
  forall engine recipient,
    safeRecipient recipient = true ->
    forall text,
      replacePlaceholders engine text recipient = Returns (substitute text recipient).
Proof.
  intros engine recipient Hsafe text. by apply replacePlaceholders_substitute_safe.
Qed.

Lemma replaceFrom_whole rx p replaceValue input fuel text :
  RegExp.tree rx = literal p ->
  p <> [] ->
  startsWith (RegExp.ignoreCase rx) p text = true ->
  List.length text = List.length p ->
  RegExp.replaceFrom rx replaceValue input (S (S fuel)) 0 text
  = Returns (RegExp.GetSubstitution text [] [] [] (RegExp.nCaptures rx) replaceValue).
Proof.
  intros Htree Hp Hstarts Hlength.
  assert (Hpositive : 0 < List.length p) by (destruct p; [done | simpl; lia]).
  remember (S fuel) as fuel' eqn:Hfuel.
  cbn [RegExp.replaceFrom]. destruct text as [|a text]; [simpl in Hlength; lia|].
  cbn [RegExp.execFrom]. rewrite Htree, compile_literal.
  cbn [RegExp.startState RegExp.remaining]. rewrite Hstarts.
  unfold RegExp.substitution.
  cbn [advance RegExp.endIndex RegExp.remaining RegExp.startState RegExp.captures Nat.add].
  rewrite <- Hlength, !Nat.sub_0_r, firstn_all, skipn_all. cbn [firstn app].
  replace (List.length (a :: text) =? 0) with false by reflexivity.
  subst fuel'. cbn [RegExp.replaceFrom RegExp.execFrom].
  rewrite Htree, compile_literal. cbn [RegExp.startState RegExp.remaining].
  replace (startsWith (RegExp.ignoreCase rx) p []) with false by (by destruct p).
  cbn [bindO]. by rewrite app_nil_r.
Qed.

Lemma replaceAll_whole_substitution engine key value text :
  plainKey key = true ->
  sameIgnoringCase (token key) text = true ->
  replaceAll engine (customPattern key) true value text
  = Returns (RegExp.GetSubstitution text [] [] [] 0 value).
Proof.
  intros Hkey Htext. unfold replaceAll, newRegExp.
  rewrite parsePattern_plain_key by done. cbn [bindO].
  apply andb_true_iff in Htext as [Hlength Hstarts]. apply Nat.eqb_eq in Hlength.
  unfold RegExp.replace.
  by rewrite (replaceFrom_whole _ (token key)).
Qed.

Lemma GetSubstitution_double_dollar matchedText before after caps front back :
  dollarFree front = true ->
  dollarSafe back = true ->
  RegExp.GetSubstitution matchedText before after caps 0 (front ++ str "$$" ++ back)
  = front ++ str "$" ++ back.
Proof.
  intros Hfront Hback.
  induction front as [|c front IH].
  - change ([] ++ str "$$" ++ back) with ("$"%char :: "$"%char :: back).
    cbn [RegExp.GetSubstitution]. by rewrite GetSubstitution_dollarSafe.
  - simpl in Hfront. apply andb_true_iff in Hfront as [Hc Hfront].
    apply negb_true_iff in Hc. rewrite <- !app_comm_cons.
    rewrite GetSubstitution_plain by done. by rewrite IH.
Qed.

(** X6.  A name that holds two dollar signs side by side loses one of
    them: [$$] is the pattern of [String.prototype.replace] for one dollar
    sign.  This is for a recipient whose custom keys hold no syntax
    character of patterns, a text that is [{{name}}] in any letter case,
    and a name with no dollar sign before the two, no dollar pattern
    behind them and, once replaced, no two opening braces side by
    side. *)
Theorem replacePlaceholders_double_dollar :
  forall engine recipient text front back,
    BatchRecipient.name recipient = front ++ str "$$" ++ back ->
    dollarFree front = true ->
    dollarSafe back = true ->
    hasOpenBraces (front ++ str "$" ++ back) = false ->
    plainKeys (entriesOf recipient) = true ->
    sameIgnoringCase (str "{{name}}") text = true ->
    replacePlaceholders engine text recipient = Returns (front ++ str "$" ++ back).
Proof.
  intros engine recipient text front back Hname Hfront Hback Hopen Hkeys Htext.
  unfold replacePlaceholders.
  change (str "\{\{name\}\}") with (customPattern (str "name")).
  change (str "\{\{title\}\}") with (customPattern (str "title")).
  change (str "\{\{date\}\}") with (customPattern (str "date")).
  rewrite replaceAll_whole_substitution by done. cbn [bindO].
  rewrite Hname, GetSubstitution_double_dollar by done.
  rewrite replaceAll_token_free by done. cbn [bindO].
  rewrite replaceAll_token_free by done. cbn [bindO].
  by apply replaceCustomFields_of_recipient.
Qed.

Lemma replacePlaceholders_dollar_safe_witness :
  replacePlaceholders sampleEngine (str "{{title}} {{name}} pays {{fee}}")
    (recipientOf "Ann" (Some "$5 Dr") None (Some [("fee", "US$ 100")]))
  = Returns (str "$5 Dr Ann pays US$ 100").
Proof.
  rewrite (replacePlaceholders_dollar_safe sampleEngine
             (recipientOf "Ann" (Some "$5 Dr") None (Some [("fee", "US$ 100")])))
    by reflexivity.
  vm_compute. reflexivity.
Defined.

Lemma replacePlaceholders_double_dollar_witness :
  replacePlaceholders sampleEngine (str "{{Name}}") (named "Cash$$Money")
  = Returns (str "Cash$Money").
Proof.
  apply (replacePlaceholders_double_dollar sampleEngine (named "Cash$$Money")
           (str "{{Name}}") (str "Cash") (str "Money"));
    reflexivity.
Defined.

(** ** The validator, the scanner and the placeholder engine together *)

Lemma sameString_true a b : sameString a b = true <-> a = b.
Proof. unfold sameString. apply bool_decide_eq_true. Qed.

Lemma sameString_false a b : sameString a b = false <-> a <> b.
Proof. unfold sameString. apply bool_decide_eq_false. Qed.

Lemma sameIgnoringCase_length a b :
  sameIgnoringCase a b = true -> List.length a = List.length b.
Proof.
  unfold sameIgnoringCase. intros H. apply andb_true_iff in H as [H _].
  by apply Nat.eqb_eq.
Qed.

Lemma sameIgnoringCase_token a b :
  sameIgnoringCase a b = true -> sameIgnoringCase (token a) (token b) = true.
Proof.
  intros H. apply sameIgnoringCase_canonical in H. apply sameIgnoringCase_canonical.
  unfold token, canonical in *. by rewrite !map_app, H.
Qed.

Lemma ownProperty_unrelated key entries :
  unrelatedKeys key entries = true -> ownProperty key entries = None (A := jsstring).
Proof.
  induction entries as [|[k v] entries IH]; [done|].
  simpl. intros H. apply andb_true_iff in H as [Hentry Hentries].
  apply andb_true_iff in Hentry as [_ Hdiffer]. apply negb_true_iff in Hdiffer.
  destruct (sameString k key) eqn:Hsame; [|by apply IH].
  apply sameString_true in Hsame as ->. by rewrite sameIgnoringCase_refl in Hdiffer.
Qed.

(** A text that is, up to case, the token of a key that differs by more
    than case from every key the recipient knows is returned as it is. *)
Lemma replacePlaceholders_unrelated engine recipient k text :
  braceFree k = true ->
  sameIgnoringCase (token k) text = true ->
  sameIgnoringCase (str "name") k = false ->
  sameIgnoringCase (str "title") k = false ->
  sameIgnoringCase (str "date") k = false ->
  unrelatedKeys k (entriesOf recipient) = true ->
  replacePlaceholders engine text recipient = Returns text.
Proof.
  intros Hk Htext Hname Htitle Hdate Hkeys. unfold replacePlaceholders.
  change (str "\{\{name\}\}") with (customPattern (str "name")).
  change (str "\{\{title\}\}") with (customPattern (str "title")).
  change (str "\{\{date\}\}") with (customPattern (str "date")).
  rewrite (replaceAll_other_token engine (str "name") _ k) by done. cbn [bindO].
  rewrite (replaceAll_other_token engine (str "title") _ k) by done. cbn [bindO].
  rewrite (replaceAll_other_token engine (str "date") _ k) by done. cbn [bindO].
  unfold entriesOf in Hkeys.
  destruct (BatchRecipient.customFields recipient) as [entries|]; [|done].
  clear -Hk Htext Hkeys.
  induction entries as [|[key value] entries IH]; [done|].
  simpl in Hkeys. apply andb_true_iff in Hkeys as [Hentry Hkeys].
  apply andb_true_iff in Hentry as [Hkey Hdiffer]. apply negb_true_iff in Hdiffer.
  cbn [replaceCustomFields].
  rewrite (replaceAll_other_token engine key value k) by done.
  by apply IH.
Qed.

(** X7.  A required key that names a property of [Object.prototype],
    such as [toString], is never reported as missing for a recipient that
    has custom fields, although the placeholder engine, which goes through
    the own entries only, leaves its token in the text.  This is for
    custom fields whose keys hold no syntax character of patterns and
    none of which is the key up to letter case. *)
Theorem validateRecipientData_inherited_property :
  forall engine recipient entries key,
    BatchRecipient.customFields recipient = Some entries ->
    In key objectPrototypeProperties ->
    unrelatedKeys key entries = true ->
    validateRecipientData [recipient] [key]
    = {| ValidationResult.valid := true; ValidationResult.errors := [] |}
    /\ replacePlaceholders engine (str "{{" ++ key ++ str "}}") recipient
       = Returns (str "{{" ++ key ++ str "}}").
Proof.
  intros engine recipient entries key Hfields Hin Hkeys.
  pose proof (ownProperty_unrelated key entries Hkeys) as Hown.
  assert (Hentries : entriesOf recipient = entries) by (unfold entriesOf; by rewrite Hfields).
  split.
  - unfold validateRecipientData. cbn [checkRecipients checkPlaceholders].
    assert (Hvalue : resolveValue recipient key = inherited key).
    { unfold resolveValue, customField. rewrite Hfields, Hown.
      simpl in Hin.
      repeat (destruct Hin as [<- | Hin]; [reflexivity|]). destruct Hin. }
    by rewrite Hvalue.
  - apply (replacePlaceholders_unrelated engine recipient key).
    + simpl in Hin. repeat (destruct Hin as [<- | Hin]; [reflexivity|]). destruct Hin.
    + apply sameIgnoringCase_refl.
    + simpl in Hin. repeat (destruct Hin as [<- | Hin]; [reflexivity|]). destruct Hin.
    + simpl in Hin. repeat (destruct Hin as [<- | Hin]; [reflexivity|]). destruct Hin.
    + simpl in Hin. repeat (destruct Hin as [<- | Hin]; [reflexivity|]). destruct Hin.
    + by rewrite Hentries.
Qed.

Lemma validateRecipientData_inherited_property_witness :
  validateRecipientData [recipientOf "Ann" None None (Some [("org", "Acme")])]
                        [str "toString"]
  = {| ValidationResult.valid := true; ValidationResult.errors := [] |}
  /\ replacePlaceholders sampleEngine (str "{{toString}}")
       (recipientOf "Ann" None None (Some [("org", "Acme")]))
     = Returns (str "{{toString}}").
Proof.
  apply (validateRecipientData_inherited_property sampleEngine
           (recipientOf "Ann" None None (Some [("org", "Acme")]))
           [(str "org", str "Acme")] (str "toString")); try reflexivity.
  vm_compute. tauto.
Defined.

Lemma braceFree_wellFormed key :
  key <> [] -> braceFree key = true -> wellFormedPart (Placeholder key) = true.
Proof.
  intros Hkey Hfree. destruct key as [|c key]; [done|].
  cbn [wellFormedPart]. unfold braceFree in Hfree.
  rewrite forallb_forall in *. intros x Hx. specialize (Hfree x Hx).
  apply andb_true_iff in Hfree as [_ Hclose]. exact Hclose.
Qed.

Lemma not_inherited key :
  List.length key < 7 -> existsb (sameString key) objectPrototypeProperties = false.
Proof.
  intros Hlength. apply not_true_is_false. intros H.
  apply existsb_exists in H as (property & Hin & Hsame).
  apply sameString_true in Hsame as ->. simpl in Hin.
  repeat (destruct Hin as [<- | Hin]; [simpl in Hlength; lia|]). destruct Hin.
Qed.

(** X8.  The validator compares keys exactly where the placeholder
    engine ignores case: for a text [{{Name}}], or [{{name}}] in any case
    but the lower one, the scanner returns the key as written, the
    validator reports it as missing for a recipient without such a custom
    field, and the engine replaces the token by the name.  This is for a
    recipient whose custom keys hold no syntax character of patterns and
    whose name holds no dollar sign and no two opening braces side by
    side. *)
Theorem validateRecipientData_is_case_sensitive :
  forall engine element recipient key,
    TextElement.text element = str "{{" ++ key ++ str "}}" ->
    sameIgnoringCase (str "name") key = true ->
    key <> str "name" ->
    ownProperty key (entriesOf recipient) = None ->
    plainKeys (entriesOf recipient) = true ->
    dollarFree (BatchRecipient.name recipient) = true ->
    hasOpenBraces (BatchRecipient.name recipient) = false ->
    extractPlaceholders engine [element] = Returns [key]
    /\ validateRecipientData [recipient] [key]
       = {| ValidationResult.valid := false;
            ValidationResult.errors :=
              [str "Recipient 1 (" ++ BatchRecipient.name recipient
               ++ str ") is missing field: " ++ key] |}
    /\ replacePlaceholders engine (TextElement.text element) recipient
       = Returns (BatchRecipient.name recipient).
Proof.
  intros engine element recipient key Htext Hsame Hdiffer Hown Hkeys Hdollar Hopen.
  pose proof (sameIgnoringCase_length _ _ Hsame) as Hlength.
  change (List.length (str "name")) with 4 in Hlength.
  assert (Hfree : braceFree key = true) by (by apply (braceFree_variant (str "name"))).
  split; [|split].
  - rewrite (extractPlaceholders_template engine [element] [[Placeholder key]]).
    + reflexivity.
    + constructor; [|constructor]. split.
      * rewrite Htext. unfold templateText, token. simpl. by rewrite app_nil_r.
      * cbn [forallb]. rewrite braceFree_wellFormed; [done| |done].
        intros ->. simpl in Hlength. lia.
  - unfold validateRecipientData. cbn [checkRecipients checkPlaceholders].
    assert (Hvalue : resolveValue recipient key = undefined).
    { unfold resolveValue, customField.
      replace (sameString key (str "name")) with false
        by (symmetry; by apply sameString_false).
      replace (sameString key (str "title")) with false
        by (symmetry; apply sameString_false; intros ->; simpl in Hlength; lia).
      replace (sameString key (str "date")) with false
        by (symmetry; apply sameString_false; intros ->; discriminate Hsame).
      unfold entriesOf in Hown.
      destruct (BatchRecipient.customFields recipient) as [entries|]; [|done].
      rewrite Hown, not_inherited; [done | lia]. }
    rewrite Hvalue. reflexivity.
  - rewrite Htext. apply replacePlaceholders_name; try done.
    by apply (sameIgnoringCase_token (str "name")).
Qed.

Lemma validateRecipientData_is_case_sensitive_witness :
  extractPlaceholders sampleEngine [textElementOf "{{Name}}"] = Returns [str "Name"]
  /\ validateRecipientData [named "Ann"] [str "Name"]
     = {| ValidationResult.valid := false;
          ValidationResult.errors := [str "Recipient 1 (Ann) is missing field: Name"] |}
  /\ replacePlaceholders sampleEngine (str "{{Name}}") (named "Ann") = Returns (str "Ann").
Proof.
  apply (validateRecipientData_is_case_sensitive sampleEngine (textElementOf "{{Name}}")
           (named "Ann") (str "Name")); try reflexivity.
  vm_compute. congruence.
Defined.

(** ** File names: further properties *)

Lemma mask_masked c : isMasked (mask c) = true.
Proof. each_character c; reflexivity. Qed.

Lemma mask_fixed c : isMasked c = true -> mask c = c.
Proof. each_character c; (discriminate || reflexivity). Qed.

Lemma toLowerCaseUnit_safe c : isMasked c = true -> isFileSafe (toLowerCaseUnit c) = true.
Proof. each_character c; (discriminate || reflexivity). Qed.

Lemma toLowerCaseUnit_underscore c : isUnderscore (toLowerCaseUnit c) = isUnderscore c.
Proof. each_character c; reflexivity. Qed.

Lemma toLowerCaseUnit_fixed c : isFileSafe c = true -> toLowerCaseUnit c = c.
Proof. each_character c; (discriminate || reflexivity). Qed.

Lemma isFileSafe_masked c : isFileSafe c = true -> isMasked c = true.
Proof. each_character c; (discriminate || reflexivity). Qed.

Lemma collapse_head s : headUnderscore (collapse s) = headUnderscore s.
Proof.
  induction s as [|a s IH]; [done|].
  rewrite collapse_cons. fold (headUnderscore s).
  destruct (isUnderscore a) eqn:Ha; cbn [andb].
  - destruct (headUnderscore s) eqn:Hs; [by rewrite IH | by simpl].
  - by simpl.
Qed.

Lemma collapse_no_run s : hasUnderscoreRun (collapse s) = false.
Proof.
  induction s as [|a s IH]; [done|].
  rewrite collapse_cons. fold (headUnderscore s).
  destruct (isUnderscore a && headUnderscore s) eqn:H; [done|].
  cbn [hasUnderscoreRun]. by rewrite collapse_head, H, IH.
Qed.

Lemma collapse_Forall (P : ascii -> Prop) s : Forall P s -> Forall P (collapse s).
Proof.
  induction 1 as [|a s Ha Hs IH]; [constructor|].
  rewrite collapse_cons. destruct (isUnderscore a && _); [done | by constructor].
Qed.

Lemma collapse_fixed s : hasUnderscoreRun s = false -> collapse s = s.
Proof.
  induction s as [|a s IH]; [done|].
  cbn [hasUnderscoreRun]. intros H. apply orb_false_iff in H as [Ha Hs].
  rewrite collapse_cons. fold (headUnderscore s). rewrite Ha. by rewrite IH.
Qed.

Lemma stripLeading_head s :
  hasUnderscoreRun s = false -> headUnderscore (stripLeading s) = false.
Proof.
  destruct s as [|a s]; [done|]. cbn [hasUnderscoreRun stripLeading].
  intros H. apply orb_false_iff in H as [Ha _].
  destruct (isUnderscore a) eqn:Hu; [done | by simpl].
Qed.

Lemma stripLeading_no_run s :
  hasUnderscoreRun s = false -> hasUnderscoreRun (stripLeading s) = false.
Proof.
  destruct s as [|a s]; [done|]. cbn [hasUnderscoreRun stripLeading].
  intros H. apply orb_false_iff in H as [Ha Hs].
  destruct (isUnderscore a) eqn:Hu; [done|]. cbn [hasUnderscoreRun]. by rewrite Hu, Hs.
Qed.

Lemma stripLeading_Forall (P : ascii -> Prop) s : Forall P s -> Forall P (stripLeading s).
Proof.
  destruct 1 as [|a s Ha Hs]; [constructor|]. simpl.
  destruct (isUnderscore a); [done | by constructor].
Qed.

Lemma stripTrailing_cons a b s :
  stripTrailing (a :: b :: s) = a :: stripTrailing (b :: s).
Proof. reflexivity. Qed.

Lemma stripTrailing_head s :
  headUnderscore s = false -> headUnderscore (stripTrailing s) = false.
Proof.
  destruct s as [|a [|b s]]; [done| |].
  - simpl. intros H. by rewrite H.
  - by rewrite stripTrailing_cons.
Qed.

Lemma stripTrailing_no_run s :
  hasUnderscoreRun s = false ->
  hasUnderscoreRun (stripTrailing s) = false /\ lastUnderscore (stripTrailing s) = false.
Proof.
  induction s as [|a s IH]; [done|].
  destruct s as [|b s].
  - simpl. destruct (isUnderscore a) eqn:Ha; simpl; by rewrite ?Ha.
  - intros H. cbn [hasUnderscoreRun] in H. apply orb_false_iff in H as [Ha Hs].
    destruct (IH Hs) as [Hrun Hlast]. rewrite stripTrailing_cons.
    cbn [hasUnderscoreRun]. rewrite Hrun, orb_false_r.
    destruct s as [|c s].
    + simpl in *. destruct (isUnderscore b) eqn:Hb; simpl.
      * rewrite andb_true_r in Ha. by rewrite Ha.
      * by rewrite Hb, andb_false_r.
    + rewrite stripTrailing_cons in *. split; [exact Ha | exact Hlast].
Qed.

Lemma stripTrailing_Forall (P : ascii -> Prop) s : Forall P s -> Forall P (stripTrailing s).
Proof.
  induction 1 as [|a s Ha Hs IH]; [constructor|].
  destruct s as [|b s].
  - simpl. destruct (isUnderscore a); by repeat constructor.
  - rewrite stripTrailing_cons. by constructor.
Qed.

Lemma stripTrailing_fixed s : lastUnderscore s = false -> stripTrailing s = s.
Proof.
  induction s as [|a s IH]; [done|].
  destruct s as [|b s].
  - simpl. by intros ->.
  - rewrite stripTrailing_cons. intros H. f_equal. by apply IH.
Qed.

Lemma stripLeading_fixed s : headUnderscore s = false -> stripLeading s = s.
Proof. destruct s as [|a s]; [done|]. simpl. by intros ->. Qed.

Lemma toLowerCase_head s : headUnderscore (toLowerCase s) = headUnderscore s.
Proof. destruct s as [|a s]; [done|]. simpl. apply toLowerCaseUnit_underscore. Qed.

Lemma toLowerCase_last s : lastUnderscore (toLowerCase s) = lastUnderscore s.
Proof.
  induction s as [|a s IH]; [done|].
  destruct s as [|b s]; [apply toLowerCaseUnit_underscore | exact IH].
Qed.

Lemma toLowerCase_run s : hasUnderscoreRun (toLowerCase s) = hasUnderscoreRun s.
Proof.
  induction s as [|a s IH]; [done|].
  change (toLowerCase (a :: s)) with (toLowerCaseUnit a :: toLowerCase s).
  cbn [hasUnderscoreRun]. by rewrite toLowerCase_head, toLowerCaseUnit_underscore, IH.
Qed.

(** The four facts about a file-safe name. *)
Lemma sanitized_shape name :
  forallb isFileSafe (sanitized name) = true
  /\ headUnderscore (sanitized name) = false
  /\ lastUnderscore (sanitized name) = false
  /\ hasUnderscoreRun (sanitized name) = false.
Proof.
  unfold sanitized.
  set (masked := List.map mask name).
  assert (Hmasked : Forall (fun c => isMasked c = true) masked).
  { apply Forall_forall. intros c Hc. apply list_elem_of_In, in_map_iff in Hc as (x & <- & _).
    apply mask_masked. }
  pose proof (collapse_no_run masked) as Hrun.
  pose proof (stripLeading_no_run _ Hrun) as Hrun'.
  pose proof (stripLeading_head _ Hrun) as Hhead.
  destruct (stripTrailing_no_run _ Hrun') as [Hrun'' Hlast].
  pose proof (stripTrailing_head _ Hhead) as Hhead'.
  rewrite toLowerCase_head, toLowerCase_last, toLowerCase_run.
  repeat split; try done.
  apply forallb_forall. intros c Hc. apply in_map_iff in Hc as (x & <- & Hx).
  apply toLowerCaseUnit_safe.
  pose proof (stripTrailing_Forall _ _ (stripLeading_Forall _ _ (collapse_Forall _ _ Hmasked)))
    as Hall.
  rewrite Forall_forall in Hall. by apply Hall, list_elem_of_In.
Qed.

Lemma sanitized_fixed s :
  forallb isFileSafe s = true ->
  headUnderscore s = false ->
  lastUnderscore s = false ->
  hasUnderscoreRun s = false ->
  sanitized s = s.
Proof.
  intros Hsafe Hhead Hlast Hrun. unfold sanitized.
  assert (Hmask : List.map mask s = s).
  { rewrite <- (map_id s) at 2. apply map_ext_in. intros c Hc.
    rewrite forallb_forall in Hsafe. by apply mask_fixed, isFileSafe_masked, Hsafe. }
  rewrite Hmask, collapse_fixed, stripLeading_fixed, stripTrailing_fixed by done.
  unfold toLowerCase. rewrite <- (map_id s) at 2. apply map_ext_in. intros c Hc.
  rewrite forallb_forall in Hsafe. by apply toLowerCaseUnit_fixed, Hsafe.
Qed.

Lemma sanitized_idempotent name : sanitized (sanitized name) = sanitized name.
Proof.
  destruct (sanitized_shape name) as (H1 & H2 & H3 & H4). by apply sanitized_fixed.
Qed.

Lemma lettersOf_collapse s : lettersOf (collapse s) = lettersOf s.
Proof.
  induction s as [|a s IH]; [done|].
  rewrite collapse_cons. unfold lettersOf in *.
  destruct (isUnderscore a) eqn:Ha; cbn [andb List.filter]; rewrite ?Ha; cbn [negb].
  - destruct (match s with b :: _ => isUnderscore b | [] => false end);
      cbn [List.filter]; rewrite ?Ha; cbn [negb]; exact IH.
  - by rewrite IH.
Qed.

Lemma lettersOf_stripLeading s : lettersOf (stripLeading s) = lettersOf s.
Proof.
  destruct s as [|a s]; [done|]. unfold lettersOf. simpl.
  by destruct (isUnderscore a) eqn:Ha; simpl; rewrite ?Ha.
Qed.

Lemma lettersOf_stripTrailing s : lettersOf (stripTrailing s) = lettersOf s.
Proof.
  induction s as [|a s IH]; [done|].
  destruct s as [|b s].
  - unfold lettersOf. simpl. by destruct (isUnderscore a) eqn:Ha; simpl; rewrite ?Ha.
  - rewrite stripTrailing_cons. unfold lettersOf in *. cbn [List.filter].
    by rewrite IH.
Qed.

Lemma lettersOf_toLowerCase s : lettersOf (toLowerCase s) = toLowerCase (lettersOf s).
Proof.
  induction s as [|a s IH]; [done|].
  change (toLowerCase (a :: s)) with (toLowerCaseUnit a :: toLowerCase s).
  unfold lettersOf in *. cbn [List.filter]. rewrite toLowerCaseUnit_underscore.
  destruct (isUnderscore a); cbn [negb]; [exact IH|].
  change (toLowerCase (a :: ?l)) with (toLowerCaseUnit a :: toLowerCase l). by rewrite IH.
Qed.

Lemma mask_underscore c : isUnderscore (mask c) = negb (isAsciiAlphaNum c).
Proof. each_character c; reflexivity. Qed.

Lemma lettersOf_mask name : lettersOf (List.map mask name) = List.filter isAsciiAlphaNum name.
Proof.
  induction name as [|c name IH]; [done|].
  unfold lettersOf in *. cbn [List.map List.filter]. rewrite mask_underscore, negb_involutive.
  destruct (isAsciiAlphaNum c) eqn:Hc; [|exact IH].
  rewrite IH. f_equal. unfold mask. by rewrite Hc.
Qed.

Lemma lettersOf_sanitized name :
  lettersOf (sanitized name) = toLowerCase (List.filter isAsciiAlphaNum name).
Proof.
  unfold sanitized.
  by rewrite lettersOf_toLowerCase, lettersOf_stripTrailing, lettersOf_stripLeading,
    lettersOf_collapse, lettersOf_mask.
Qed.

Lemma sanitized_nil name :
  sanitized name = [] <-> List.filter isAsciiAlphaNum name = [].
Proof.
  split.
  - intros H. pose proof (lettersOf_sanitized name) as Hletters. rewrite H in Hletters.
    symmetry in Hletters. by apply map_eq_nil in Hletters.
  - intros H. pose proof (lettersOf_sanitized name) as Hletters. rewrite H in Hletters.
    destruct (sanitized_shape name) as (_ & Hhead & _).
    destruct (sanitized name) as [|a s]; [done|].
    simpl in Hhead. unfold lettersOf in Hletters. simpl in Hletters.
    by rewrite Hhead in Hletters.
Qed.

Lemma collapse_length s : List.length (collapse s) <= List.length s.
Proof.
  induction s as [|a s IH]; [done|]. rewrite collapse_cons.
  destruct (isUnderscore a && _); simpl; lia.
Qed.

Lemma stripLeading_length s : List.length (stripLeading s) <= List.length s.
Proof. destruct s as [|a s]; [done|]. simpl. destruct (isUnderscore a); simpl; lia. Qed.

Lemma stripTrailing_length s : List.length (stripTrailing s) <= List.length s.
Proof.
  induction s as [|a s IH]; [done|]. destruct s as [|b s].
  - simpl. destruct (isUnderscore a); simpl; lia.
  - rewrite stripTrailing_cons. simpl in *. lia.
Qed.

Lemma sanitized_length name : List.length (sanitized name) <= List.length name.
Proof.
  unfold sanitized, toLowerCase. rewrite length_map.
  pose proof (stripTrailing_length (stripLeading (collapse (List.map mask name)))).
  pose proof (stripLeading_length (collapse (List.map mask name))).
  pose proof (collapse_length (List.map mask name)).
  rewrite length_map in *. lia.
Qed.

Lemma lastUnderscore_snoc t : lastUnderscore (t ++ ["_"%char]) = true.
Proof.
  induction t as [|a t IH]; [done|].
  rewrite <- app_comm_cons. destruct (t ++ ["_"%char]) eqn:H; [by destruct t | exact IH].
Qed.

Lemma hasUnderscoreRun_middle u v : hasUnderscoreRun (u ++ "_"%char :: "_"%char :: v) = true.
Proof.
  induction u as [|a u IH]; [done|].
  rewrite <- app_comm_cons. cbn [hasUnderscoreRun]. rewrite IH. apply orb_true_r.
Qed.

Section MapUnderscore.

Variable g : ascii -> ascii.
Hypothesis g_underscore : forall c, isUnderscore (g c) = isUnderscore c.

Lemma collapse_map s : collapse (List.map g s) = List.map g (collapse s).
Proof.
  induction s as [|a s IH]; [done|].
  cbn [List.map]. rewrite !collapse_cons, g_underscore.
  replace (match List.map g s with b :: _ => isUnderscore b | [] => false end)
    with (match s with b :: _ => isUnderscore b | [] => false end)
    by (destruct s; [done | simpl; by rewrite g_underscore]).
  destruct (isUnderscore a && _); [exact IH|]. cbn [List.map]. by rewrite IH.
Qed.

Lemma stripLeading_map s : stripLeading (List.map g s) = List.map g (stripLeading s).
Proof.
  destruct s as [|a s]; [done|]. simpl. rewrite g_underscore.
  by destruct (isUnderscore a).
Qed.

Lemma stripTrailing_map s : stripTrailing (List.map g s) = List.map g (stripTrailing s).
Proof.
  induction s as [|a s IH]; [done|]. destruct s as [|b s].
  - simpl. rewrite g_underscore. by destruct (isUnderscore a).
  - cbn [List.map] in *. rewrite !stripTrailing_cons. cbn [List.map]. by rewrite IH.
Qed.

End MapUnderscore.

Lemma asciiLowerCase_underscore c : isUnderscore (asciiLowerCase c) = isUnderscore c.
Proof. each_character c; reflexivity. Qed.

Lemma mask_asciiLowerCase c : mask (asciiLowerCase c) = asciiLowerCase (mask c).
Proof. each_character c; reflexivity. Qed.

Lemma toLowerCaseUnit_asciiLowerCase c :
  toLowerCaseUnit (asciiLowerCase c) = toLowerCaseUnit c.
Proof. each_character c; reflexivity. Qed.

Lemma sanitized_asciiLowerCase name :
  sanitized (List.map asciiLowerCase name) = sanitized name.
Proof.
  unfold sanitized. rewrite map_map.
  rewrite (map_ext _ (fun c => asciiLowerCase (mask c))) by apply mask_asciiLowerCase.
  rewrite <- (map_map mask asciiLowerCase).
  rewrite collapse_map, stripLeading_map, stripTrailing_map by apply asciiLowerCase_underscore.
  unfold toLowerCase. rewrite map_map. apply map_ext. apply toLowerCaseUnit_asciiLowerCase.
Qed.

(** X9.  [sanitizeFilename] always returns; its result holds lower-case
    letters of ASCII, digits and underscores only, starts and ends with no
    underscore, holds no two underscores side by side, and is no longer
    than the name. *)
Theorem sanitizeFilename_file_safe :
  forall engine name,
  exists safe,
    sanitizeFilename engine name = Returns safe
    /\ Forall (fun c => isFileSafe c = true) safe
    /\ (forall rest, safe <> "_"%char :: rest)
    /\ (forall front, safe <> front ++ ["_"%char])
    /\ (forall front rest, safe <> front ++ "_"%char :: "_"%char :: rest)
    /\ List.length safe <= List.length name.
Proof.
  intros engine name. exists (sanitized name).
  destruct (sanitized_shape name) as (Hsafe & Hhead & Hlast & Hrun).
  split; [apply sanitizeFilename_sanitized|]. repeat split.
  - apply Forall_forall. intros c Hc. rewrite forallb_forall in Hsafe.
    by apply Hsafe, list_elem_of_In.
  - intros rest Heq. by rewrite Heq in Hhead.
  - intros front Heq. by rewrite Heq, lastUnderscore_snoc in Hlast.
  - intros front rest Heq. by rewrite Heq, hasUnderscoreRun_middle in Hrun.
  - apply sanitized_length.
Qed.

(** X10.  [sanitizeFilename] keeps the letters and digits of ASCII of the
    name, in order and in lower case, and nothing else but underscores
    between them; the result is empty exactly when the name holds no
    letter or digit of ASCII. *)
Theorem sanitizeFilename_keeps_letters :
  forall engine name,
  exists safe,
    sanitizeFilename engine name = Returns safe
    /\ List.filter (fun c => negb (isUnderscore c)) safe
       = toLowerCase (List.filter isAsciiAlphaNum name)
    /\ (safe = [] <-> Forall (fun c => isAsciiAlphaNum c = false) name).
Proof.
  intros engine name. exists (sanitized name).
  split; [apply sanitizeFilename_sanitized|]. split; [apply lettersOf_sanitized|].
  rewrite sanitized_nil. split.
  - intros H. apply Forall_forall. intros c Hc.
    destruct (isAsciiAlphaNum c) eqn:Halnum; [|done].
    assert (Hin : In c (List.filter isAsciiAlphaNum name)).
    { apply filter_In. split; [by apply list_elem_of_In | done]. }
    rewrite H in Hin. destruct Hin.
  - intros H. induction H as [|c rest Hc Hrest IH]; [done|]. simpl. by rewrite Hc.
Qed.

(** X11.  Sanitizing a sanitized name changes nothing. *)
Theorem sanitizeFilename_idempotent :
  forall engine name,
    bindO (sanitizeFilename engine name) (sanitizeFilename engine)
    = sanitizeFilename engine name.
Proof.
  intros engine name. rewrite !sanitizeFilename_sanitized. cbn [bindO].
  by rewrite sanitizeFilename_sanitized, sanitized_idempotent.
Qed.

(** X12.  Names that differ in the case of their ASCII letters only have
    the same sanitized name. *)
Theorem sanitizeFilename_ignores_ascii_case :
  forall engine name,
    sanitizeFilename engine (List.map asciiLowerCase name) = sanitizeFilename engine name.
Proof.
  intros engine name. by rewrite !sanitizeFilename_sanitized, sanitized_asciiLowerCase.
Qed.

(** ** The drawing of a certificate: properties *)

Section Rendering.

Variable engine : Engine.
Variable world : World.
Variable template : CertificateTemplate.t.
Variable textElements : list TextElement.t.
Variable imageElements : list ImageElement.t.

Lemma drawTextElements_calls elements recipient :
  forall canvas,
    drawTextElements engine elements recipient canvas
    = bindO (textsOf engine elements recipient)
            (fun texts =>
               Returns {| Canvas.width := Canvas.width canvas;
                          Canvas.height := Canvas.height canvas;
                          Canvas.calls := Canvas.calls canvas
                                          ++ zip_with textCall elements texts |}).
Proof.
  induction elements as [|element rest IH]; intros canvas.
  - simpl. rewrite app_nil_r. by destruct canvas.
  - cbn [drawTextElements textsOf].
    destruct (replacePlaceholders engine (TextElement.text element) recipient)
      as [text| |]; cbn [bindO]; try done.
    rewrite IH. destruct (textsOf engine rest recipient) as [texts| |]; cbn [bindO]; try done.
    unfold draw. cbn [Canvas.width Canvas.height Canvas.calls zip_with].
    by rewrite <- app_assoc.
Qed.

Lemma drawImageElements_calls loaded :
  forall canvas,
    List.fold_left drawImageElement loaded canvas
    = {| Canvas.width := Canvas.width canvas;
         Canvas.height := Canvas.height canvas;
         Canvas.calls := Canvas.calls canvas ++ List.map imageCall loaded |}.
Proof.
  induction loaded as [|element rest IH]; intros canvas.
  - simpl. rewrite app_nil_r. by destruct canvas.
  - cbn [List.fold_left]. rewrite IH. unfold drawImageElement, draw.
    cbn [Canvas.width Canvas.height Canvas.calls List.map]. by rewrite <- app_assoc.
Qed.

Lemma renderCertificate_calls recipient background loaded calls :
  renderCertificate engine (canvasWith template calls) template textElements imageElements
                    recipient background loaded
  = bindO (textsOf engine textElements recipient)
          (fun texts =>
             Returns (canvasWith template
                        (calls ++ certificateCalls template background loaded textElements
                                                   texts))).
Proof.
  unfold renderCertificate. rewrite drawTextElements_calls, drawImageElements_calls.
  destruct (textsOf engine textElements recipient) as [texts| |]; cbn [bindO]; try done.
  unfold canvasWith, certificateCalls, draw.
  cbn [Canvas.width Canvas.height Canvas.calls]. f_equal. f_equal.
  rewrite <- !app_assoc. reflexivity.
Qed.

Lemma generatePreview_calls recipient :
  generatePreview engine world recipient template textElements imageElements
  = let* background := loadImage world (CertificateTemplate.backgroundImage template) in
    let* loaded := loadImageElements world imageElements in
    let* texts := textsOf engine textElements recipient in
    Returns (canvasWith template
               (certificateCalls template background loaded textElements texts)).
Proof.
  unfold generatePreview.
  destruct (loadImage world _) as [background| |]; cbn [bindO]; try done.
  destruct (loadImageElements world imageElements) as [loaded| |]; cbn [bindO]; try done.
  fold (canvasWith template []). rewrite renderCertificate_calls.
  by destruct (textsOf engine textElements recipient).
Qed.

Lemma certificateOf_calls i recipient background loaded calls :
  certificateOf engine world template textElements imageElements i recipient
                (canvasWith template calls) background loaded
  = let* texts := textsOf engine textElements recipient in
    let frame :=
      canvasWith template
        (calls ++ certificateCalls template background loaded textElements texts) in
    if toBlobIsNull world i
    then Throws (ErrorObject (str "Failed to convert canvas to blob"))
    else Returns (frame, entryName recipient, frame).
Proof.
  unfold certificateOf. rewrite renderCertificate_calls.
  destruct (textsOf engine textElements recipient) as [texts| |]; cbn [bindO]; try done.
  unfold canvasToBlob. destruct (toBlobIsNull world i); cbn [bindO]; [done|].
  by rewrite sanitizeFilename_sanitized.
Qed.

Section Entries.

Variable onProgress : bool.

Lemma generateEach_other name recipients :
  forall i background loaded calls (zip zip' : Archive) run,
    snd (generateEach engine world template textElements imageElements onProgress
                      i recipients background loaded (canvasWith template calls) zip run)
    = Returns zip' ->
    Forall (fun later => entryName later <> name) recipients ->
    zip' !! name = zip !! name.
Proof.
  induction recipients as [|recipient rest IH];
    intros i background loaded calls zip zip' run; cbn [generateEach].
  - by intros [= <-].
  - rewrite certificateOf_calls.
    destruct (textsOf engine textElements recipient) as [texts| |]; cbn [bindO]; try done.
    destruct (toBlobIsNull world i); [done|].
    intros Hrest Hall. inversion Hall as [|? ? Hhead Htail]; subst.
    apply IH in Hrest; [|done]. etrans; [exact Hrest|]. by apply lookup_insert_ne.
Qed.

Lemma generateEach_entry before recipient after :
  forall i background loaded calls (zip zip' : Archive) run,
    snd (generateEach engine world template textElements imageElements onProgress
                      i (before ++ recipient :: after) background loaded
                      (canvasWith template calls) zip run)
    = Returns zip' ->
    Forall (fun later => entryName later <> entryName recipient) after ->
    exists texts earlier,
      textsOf engine textElements recipient = Returns texts
      /\ zip' !! entryName recipient
         = Some (canvasWith template
                   (earlier ++ certificateCalls template background loaded textElements
                                                texts))
      /\ (before = [] -> earlier = calls).
Proof.
  induction before as [|first before IH];
    intros i background loaded calls zip zip' run; cbn [app generateEach];
    rewrite certificateOf_calls.
  - destruct (textsOf engine textElements recipient) as [texts| |]; cbn [bindO]; try done.
    destruct (toBlobIsNull world i); [done|].
    intros Hrest Hall. exists texts, calls. split; [done|]. split; [|done].
    apply (generateEach_other (entryName recipient)) in Hrest; [|done].
    etrans; [exact Hrest|]. apply lookup_insert_eq.
  - destruct (textsOf engine textElements first) as [texts| |]; cbn [bindO]; try done.
    destruct (toBlobIsNull world i); [done|].
    intros Hrest Hall. apply IH in Hrest as (texts' & earlier & Htexts & Hentry & _); [|done].
    exists texts', earlier. by repeat split.
Qed.

End Entries.

End Rendering.

Lemma textsOf_Returns engine textElements recipient :
  forall texts,
    textsOf engine textElements recipient = Returns texts ->
    Forall2 (fun element text =>
               replacePlaceholders engine (TextElement.text element) recipient
               = Returns text) textElements texts.
Proof.
  induction textElements as [|element rest IH]; intros texts; cbn [textsOf].
  - intros [= <-]. constructor.
  - destruct (replacePlaceholders engine (TextElement.text element) recipient)
      as [text| |] eqn:Htext; cbn [bindO]; try done.
    destruct (textsOf engine rest recipient) as [others| |]; cbn [bindO]; try done.
    intros [= <-]. constructor; [done | by apply IH].
Qed.

Lemma textsOf_Throws engine textElements recipient e :
  textsOf engine textElements recipient = Throws e ->
  exists before element after texts,
    textElements = before ++ element :: after
    /\ Forall2 (fun element text =>
                  replacePlaceholders engine (TextElement.text element) recipient
                  = Returns text) before texts
    /\ replacePlaceholders engine (TextElement.text element) recipient = Throws e.
Proof.
  induction textElements as [|element rest IH]; cbn [textsOf]; [done|].
  destruct (replacePlaceholders engine (TextElement.text element) recipient)
    as [text| |] eqn:Htext; cbn [bindO]; try done.
  - destruct (textsOf engine rest recipient) as [others| |]; cbn [bindO]; try done.
    intros [= <-].
    destruct (IH eq_refl) as (before & el & after & texts & -> & Hbefore & Hthrow).
    exists (element :: before), el, after, (text :: texts).
    repeat split; [|done]. by constructor.
  - intros [= <-]. exists [], element, rest, []. repeat split; [constructor | done].
Qed.

Lemma renderCertificate_general engine canvas template textElements imageElements recipient
    background loaded :
  renderCertificate engine canvas template textElements imageElements recipient
                    background loaded
  = bindO (textsOf engine textElements recipient)
          (fun texts =>
             Returns {| Canvas.width := Canvas.width canvas;
                        Canvas.height := Canvas.height canvas;
                        Canvas.calls :=
                          Canvas.calls canvas
                          ++ clearRect 0 0 (Canvas.width canvas) (Canvas.height canvas)
                             :: drawImage background 0 0 (CertificateTemplate.width template)
                                          (CertificateTemplate.height template)
                             :: List.map imageCall loaded
                                ++ zip_with textCall textElements texts |}).
Proof.
  unfold renderCertificate. rewrite drawTextElements_calls, drawImageElements_calls.
  destruct (textsOf engine textElements recipient) as [texts| |]; cbn [bindO]; try done.
  unfold draw. cbn [Canvas.width Canvas.height Canvas.calls]. do 2 f_equal.
  by rewrite <- !app_assoc.
Qed.

(** X13.  [renderCertificate] keeps the size of the canvas and adds, in
    this order, the clearing of the canvas, the background, the image
    elements in their order and the texts in their order, each text with
    its placeholders replaced; it throws exactly what the replacement of
    the first text that throws does, the texts before it being
    replaced. *)
Theorem renderCertificate_layers :
  forall engine canvas template textElements imageElements recipient background loaded,
    match renderCertificate engine canvas template textElements imageElements recipient
                            background loaded with
    | Returns canvas' =>
        exists texts,
          Forall2 (fun element text =>
                     replacePlaceholders engine (TextElement.text element) recipient
                     = Returns text) textElements texts
          /\ Canvas.width canvas' = Canvas.width canvas
          /\ Canvas.height canvas' = Canvas.height canvas
          /\ Canvas.calls canvas'
             = Canvas.calls canvas
               ++ clearRect 0 0 (Canvas.width canvas) (Canvas.height canvas)
                  :: drawImage background 0 0 (CertificateTemplate.width template)
                               (CertificateTemplate.height template)
                  :: List.map imageCall loaded ++ zip_with textCall textElements texts
    | Throws e =>
        exists before element after texts,
          textElements = before ++ element :: after
          /\ Forall2 (fun element text =>
                        replacePlaceholders engine (TextElement.text element) recipient
                        = Returns text) before texts
          /\ replacePlaceholders engine (TextElement.text element) recipient = Throws e
    | Unmodelled => True
    end.
Proof.
  intros. rewrite renderCertificate_general.
  destruct (textsOf engine textElements recipient) as [texts|e|] eqn:Htexts; cbn [bindO].
  - exists texts. split; [by apply textsOf_Returns | done].
  - by apply textsOf_Throws.
  - done.
Qed.

(** X14.  In the archive of a run that completes, the entry of a file
    name is the frame of the last recipient with that sanitized name: the
    calls it has received end with the calls of the preview of that
    recipient, and are these calls for the first recipient. *)
Theorem generateBatch_entry_is_last_certificate :
  forall engine world template textElements imageElements onProgress before recipient after,
    let result :=
      generateBatch engine world template textElements imageElements onProgress
                    (before ++ recipient :: after) in
    BatchResult.settled result = Returns tt ->
    Forall (fun later => sanitized (BatchRecipient.name later)
                         <> sanitized (BatchRecipient.name recipient)) after ->
    exists download entry preview earlier,
      BatchResult.downloads result = [download]
      /\ Download.entries download
         !! (str "certificate_" ++ sanitized (BatchRecipient.name recipient) ++ str ".png")
         = Some entry
      /\ generatePreview engine world recipient template textElements imageElements
         = Returns preview
      /\ Canvas.width entry = Canvas.width preview
      /\ Canvas.height entry = Canvas.height preview
      /\ Canvas.calls entry = earlier ++ Canvas.calls preview
      /\ (before = [] -> earlier = []).
Proof.
  intros engine world template textElements imageElements onProgress before recipient after
         result Hsettled Hafter.
  unfold result, generateBatch, tryGenerate in *. rewrite generatePreview_calls.
  destruct (loadImage world _) as [background| |]; cbn [bindO]; try done.
  destruct (loadImageElements world imageElements) as [loaded| |]; cbn [bindO]; try done.
  fold (canvasWith template []) in *.
  destruct (generateEach _ _ _ _ _ _ _ _ _ _ _ _ _) as [run [zip| |]] eqn:Heach; try done.
  destruct (generateAsyncFailure world); [done|].
  assert (Hzip : snd (generateEach engine world template textElements imageElements onProgress
                        0 (before ++ recipient :: after) background loaded
                        (canvasWith template []) ∅
                        (emit onProgress
                           {| Run.progress :=
                                {| BatchProgress.total :=
                                     List.length (before ++ recipient :: after);
                                   BatchProgress.current := 0;
                                   BatchProgress.currentName := None;
                                   BatchProgress.status := Status.processing;
                                   BatchProgress.error := None |};
                              Run.emitted := [] |})) = Returns zip)
    by (by rewrite Heach).
  apply generateEach_entry in Hzip as (texts & earlier & Htexts & Hentry & Hfirst).
  - rewrite Htexts. cbn [bindO].
    exists {| Download.filename := zipFilename world; Download.entries := zip |},
      (canvasWith template
         (earlier ++ certificateCalls template background loaded textElements texts)),
      (canvasWith template
         (certificateCalls template background loaded textElements texts)),
      earlier.
    repeat split; [exact Hentry | exact Hfirst].
  - eapply Forall_impl; [exact Hafter|]. intros later Hlater Hname. apply Hlater.
    unfold entryName in Hname. apply app_inv_head in Hname. by apply app_inv_tail in Hname.
Qed.

(** X15.  What makes the preview of a recipient throw makes a run that
    starts with this recipient throw the same value, and download
    nothing. *)
Theorem generatePreview_failure_fails_batch :
  forall engine world template textElements imageElements onProgress recipient rest e,
    generatePreview engine world recipient template textElements imageElements = Throws e ->
    let result :=
      generateBatch engine world template textElements imageElements onProgress
                    (recipient :: rest) in
    BatchResult.settled result = Throws e /\ BatchResult.downloads result = [].
Proof.
  intros engine world template textElements imageElements onProgress recipient rest e.
  rewrite generatePreview_calls. unfold generateBatch, tryGenerate.
  destruct (loadImage world _) as [background|e'|]; cbn [bindO];
    [| by intros [= <-] | done].
  destruct (loadImageElements world imageElements) as [loaded|e'|]; cbn [bindO];
    [| by intros [= <-] | done].
  fold (canvasWith template []). cbn [generateEach]. rewrite certificateOf_calls.
  destruct (textsOf engine textElements recipient) as [texts|e'|]; cbn [bindO];
    [done | by intros [= <-] | done].
Qed.

Lemma generateEach_outcome engine world template textElements imageElements
    onProgress onProgress' recipients :
  forall i background loaded canvas zip run run',
    snd (generateEach engine world template textElements imageElements onProgress
                      i recipients background loaded canvas zip run)
    = snd (generateEach engine world template textElements imageElements onProgress'
                        i recipients background loaded canvas zip run').
Proof.
  induction recipients as [|recipient rest IH];
    intros i background loaded canvas zip run run'; cbn [generateEach]; [done|].
  destruct (certificateOf _ _ _ _ _ _ _ _ _ _) as [[[canvas' filename] blob]| |];
    [apply IH | reflexivity | reflexivity].
Qed.

Lemma generateEach_silent engine world template textElements imageElements recipients :
  forall i background loaded canvas zip run,
    Run.emitted
      (fst (generateEach engine world template textElements imageElements false
                         i recipients background loaded canvas zip run))
    = Run.emitted run.
Proof.
  induction recipients as [|recipient rest IH];
    intros i background loaded canvas zip run; cbn [generateEach]; [done|].
  destruct (certificateOf _ _ _ _ _ _ _ _ _ _) as [[[canvas' filename] blob]| |];
    [by rewrite IH | reflexivity | reflexivity].
Qed.

(** X16.  The progress callback is optional and only observes: without
    it nothing is emitted, and the run settles and downloads as it does
    with it. *)
Theorem generateBatch_callback_optional :
  forall engine world template textElements imageElements recipients,
    let silent :=
      generateBatch engine world template textElements imageElements false recipients in
    let reported :=
      generateBatch engine world template textElements imageElements true recipients in
    BatchResult.events silent = []
    /\ BatchResult.settled silent = BatchResult.settled reported
    /\ BatchResult.downloads silent = BatchResult.downloads reported.
Proof.
  intros engine world template textElements imageElements recipients.
  cbn zeta. unfold generateBatch, tryGenerate.
  destruct (loadImage world _) as [background| |]; [|done|done].
  destruct (loadImageElements world imageElements) as [loaded| |]; [|done|done].
  match goal with
  | |- context [generateEach _ _ _ _ _ false ?i ?rs ?bg ?ld ?c ?z ?r] =>
      pose proof (generateEach_outcome engine world template textElements imageElements
                    false true rs i bg ld c z r
                    (emit true {| Run.progress := Run.progress r; Run.emitted := [] |}))
        as Houtcome;
      pose proof (generateEach_silent engine world template textElements imageElements
                    rs i bg ld c z r) as Hsilent
  end.
  cbn [emit Run.progress Run.emitted app] in *.
  destruct (generateEach _ _ _ _ _ false _ _ _ _ _ _ _) as [run [zip| |]];
    destruct (generateEach _ _ _ _ _ true _ _ _ _ _ _ _) as [run' [zip'| |]];
    cbn [fst snd] in *; try done.
  - injection Houtcome as ->. by destruct (generateAsyncFailure world).
  - by injection Houtcome as ->.
Qed.

Lemma generateBatch_entry_is_last_certificate_witness :
  exists download entry preview earlier,
    BatchResult.downloads
      (generateBatch sampleEngine calmWorld (sampleTemplate (str "background.png"))
                     [sampleText] [] true [named "Ann"; named "ann"]) = [download]
    /\ Download.entries download !! str "certificate_ann.png" = Some entry
    /\ generatePreview sampleEngine calmWorld (named "ann")
                       (sampleTemplate (str "background.png")) [sampleText] []
       = Returns preview
    /\ Canvas.calls entry = earlier ++ Canvas.calls preview.
Proof.
  destruct (generateBatch_entry_is_last_certificate sampleEngine calmWorld
              (sampleTemplate (str "background.png")) [sampleText] [] true
              [named "Ann"] (named "ann") [])
    as (download & entry & preview & earlier & Hdownloads & Hentry & Hpreview & _ & _
        & Hcalls & _).
  - vm_compute. reflexivity.
  - constructor.
  - by exists download, entry, preview, earlier.
Defined.

Lemma generatePreview_failure_fails_batch_witness :
  BatchResult.settled
    (generateBatch sampleEngine brokenBackgroundWorld (sampleTemplate (str "missing.png"))
                   [sampleText] [] true [named "Ann"; named "Bo"])
  = Throws (ErrorObject (str "Failed to load image: missing.png"))
  /\ BatchResult.downloads
       (generateBatch sampleEngine brokenBackgroundWorld
                      (sampleTemplate (str "missing.png")) [sampleText] [] true
                      [named "Ann"; named "Bo"]) = [].
Proof.
  apply (generatePreview_failure_fails_batch sampleEngine brokenBackgroundWorld
           (sampleTemplate (str "missing.png")) [sampleText] [] true (named "Ann")
           [named "Bo"]).
  vm_compute. reflexivity.
Defined.

(** ** Whole runs *)

Lemma firstFailure_none world imageElements :
  forallb (fun element => loads world (ImageElement.src element)) imageElements = true ->
  forall best, firstFailure world imageElements best = best.
Proof.
  induction imageElements as [|element rest IH]; [done|].
  simpl. intros H best. apply andb_true_iff in H as [Helement Hrest].
  unfold loads in Helement.
  destruct (imageFailure world (ImageElement.src element)); [done|].
  destruct best as [[? ?]|]; by apply IH.
Qed.

Lemma firstFailure_some world imageElements :
  forall best,
    match firstFailure world imageElements best with
    | Some (time, src) =>
        best = Some (time, src)
        \/ exists element, In element imageElements
                           /\ src = ImageElement.src element
                           /\ imageFailure world src = Some time
    | None =>
        best = None
        /\ forallb (fun element => loads world (ImageElement.src element)) imageElements
           = true
    end.
Proof.
  induction imageElements as [|element rest IH]; intros best.
  - simpl. destruct best as [[time src]|]; [by left | done].
  - cbn [firstFailure forallb]. unfold loads at 1.
    destruct (imageFailure world (ImageElement.src element)) as [time|] eqn:Hfail.
    + destruct best as [[earliest src]|].
      * specialize (IH (if time <? earliest
                        then Some (time, ImageElement.src element)
                        else Some (earliest, src))).
        destruct (firstFailure world rest _) as [[t s]|].
        -- destruct IH as [Hbest | (el & Hin & -> & Hel)].
           ++ destruct (time <? earliest); injection Hbest as <- <-.
              ** right. exists element. by repeat split; [left|..].
              ** by left.
           ++ right. exists el. by repeat split; [right|..].
        -- destruct IH as [Hbest _]. by destruct (time <? earliest).
      * specialize (IH (Some (time, ImageElement.src element))).
        destruct (firstFailure world rest _) as [[t s]|].
        -- destruct IH as [Hbest | (el & Hin & -> & Hel)].
           ++ injection Hbest as <- <-. right. exists element. by repeat split; [left|..].
           ++ right. exists el. by repeat split; [right|..].
        -- by destruct IH.
    + specialize (IH best). destruct (firstFailure world rest best) as [[t s]|].
      * destruct IH as [Hbest | (el & Hin & -> & Hel)]; [by left|].
        right. exists el. by repeat split; [right|..].
      * done.
Qed.

(** X17.  When the background or an image element does not load, the
    run stops before the first recipient: it emits the initial event and
    the error event only, rejects with the load error of a source that
    does not load, which is the background whenever the background does
    not load, and downloads nothing. *)
Theorem generateBatch_image_failure :
  forall engine world template textElements imageElements onProgress recipients,
    loads world (CertificateTemplate.backgroundImage template)
    && forallb (fun element => loads world (ImageElement.src element)) imageElements
    = false ->
    let n := List.length recipients in
    exists src,
      generateBatch engine world template textElements imageElements onProgress recipients
      = {| BatchResult.events :=
             receivedBy onProgress
               [initialEvent n;
                fail (str "Failed to load image: " ++ src) (initialEvent n)];
           BatchResult.settled := Throws (ErrorObject (str "Failed to load image: " ++ src));
           BatchResult.downloads := [] |}
      /\ loads world src = false
      /\ (loads world (CertificateTemplate.backgroundImage template) = false ->
          src = CertificateTemplate.backgroundImage template)
      /\ (src = CertificateTemplate.backgroundImage template
          \/ exists element, In element imageElements /\ src = ImageElement.src element).
Proof.
  intros engine world template textElements imageElements onProgress recipients Hfails n.
  unfold generateBatch, tryGenerate, loadImage.
  destruct (imageFailure world (CertificateTemplate.backgroundImage template))
    as [time|] eqn:Hbackground.
  - exists (CertificateTemplate.backgroundImage template). repeat split.
    + unfold emit, update, receivedBy. by destruct onProgress.
    + unfold loads. by rewrite Hbackground.
    + by left.
  - unfold loads at 1 in Hfails. rewrite Hbackground in Hfails. cbn [andb] in Hfails.
    unfold loadImageElements.
    pose proof (firstFailure_some world imageElements None) as Hfirst.
    destruct (firstFailure world imageElements None) as [[time src]|].
    + destruct Hfirst as [Hnone | (element & Hin & -> & Helement)]; [done|].
      exists (ImageElement.src element). repeat split.
      * unfold emit, update, receivedBy. by destruct onProgress.
      * unfold loads. by rewrite Helement.
      * unfold loads. by rewrite Hbackground.
      * right. by exists element.
    + destruct Hfirst as [_ Hall]. congruence.
Qed.

Lemma textsOf_substitute engine textElements recipient :
  safeRecipient recipient = true ->
  textsOf engine textElements recipient = Returns (substitutedTexts textElements recipient).
Proof.
  intros Hsafe. induction textElements as [|element rest IH]; [done|].
  cbn [textsOf]. rewrite replacePlaceholders_substitute_safe by done. cbn [bindO].
  by rewrite IH.
Qed.

Lemma generateEach_completes engine world template textElements imageElements onProgress
    recipients :
  (forall i, toBlobIsNull world i = false) ->
  Forall (fun recipient => safeRecipient recipient = true) recipients ->
  forall i background loaded calls zip run,
  exists zip',
    snd (generateEach engine world template textElements imageElements onProgress
                      i recipients background loaded (canvasWith template calls) zip run)
    = Returns zip'.
Proof.
  intros Hblob Hsafe.
  induction Hsafe as [|recipient rest Hrecipient Hrest IH];
    intros i background loaded calls zip run; cbn [generateEach].
  - by exists zip.
  - rewrite certificateOf_calls, textsOf_substitute by done. cbn [bindO].
    rewrite Hblob. apply IH.
Qed.

(** X18.  In a world in which no step fails, a run over recipients
    whose custom keys hold no syntax character of patterns and whose
    values hold no dollar pattern completes and downloads one archive,
    named after the clock; the entry of a file name holds the frame of the
    last recipient with that sanitized name, drawn with the background,
    the image elements and the texts the specification's [substitute]
    gives for this recipient. *)
Theorem generateBatch_end_to_end :
  forall engine world template textElements imageElements onProgress recipients,
    calm world template imageElements ->
    Forall (fun recipient => safeRecipient recipient = true) recipients ->
    let result :=
      generateBatch engine world template textElements imageElements onProgress
                    recipients in
    BatchResult.settled result = Returns tt
    /\ exists download,
         BatchResult.downloads result = [download]
         /\ Download.filename download
            = str "certificates_batch_" ++ showN (now world) ++ str ".zip"
         /\ forall before recipient after,
              recipients = before ++ recipient :: after ->
              Forall (fun later => sanitized (BatchRecipient.name later)
                                   <> sanitized (BatchRecipient.name recipient)) after ->
              exists earlier,
                Download.entries download
                !! (str "certificate_" ++ sanitized (BatchRecipient.name recipient)
                    ++ str ".png")
                = Some (canvasWith template
                          (earlier
                           ++ certificateCalls template
                                (CertificateTemplate.backgroundImage template)
                                (loadedElements imageElements) textElements
                                (substitutedTexts textElements recipient)))
                /\ (before = [] -> earlier = []).
Proof.
  intros engine world template textElements imageElements onProgress recipients
         (Hbackground & Himages & Hblob & Harchive) Hsafe.
  cbn zeta. unfold generateBatch, tryGenerate, loadImage, loadImageElements.
  unfold loads in Hbackground.
  destruct (imageFailure world (CertificateTemplate.backgroundImage template)); [done|].
  rewrite firstFailure_none by done. fold (loadedElements imageElements).
  fold (canvasWith template []).
  match goal with
  | |- context [generateEach _ _ _ _ _ _ ?i ?rs ?bg ?ld (canvasWith _ ?c) ?z ?r] =>
      destruct (generateEach_completes engine world template textElements imageElements
                  onProgress rs Hblob Hsafe i bg ld c z r) as [zip Hzip]
  end.
  destruct (generateEach _ _ _ _ _ _ _ _ _ _ _ _ _) as [run outcome] eqn:Heach.
  cbn [snd] in Hzip. subst outcome. rewrite Harchive. cbn [BatchResult.settled
    BatchResult.downloads]. split; [done|].
  eexists. split; [reflexivity|]. split; [reflexivity|].
  intros before recipient after -> Hafter. cbn [Download.entries].
  assert (Hsnd : snd (generateEach engine world template textElements imageElements
                        onProgress 0 (before ++ recipient :: after)
                        (CertificateTemplate.backgroundImage template)
                        (loadedElements imageElements) (canvasWith template []) ∅
                        (emit onProgress
                           {| Run.progress :=
                                {| BatchProgress.total :=
                                     List.length (before ++ recipient :: after);
                                   BatchProgress.current := 0;
                                   BatchProgress.currentName := None;
                                   BatchProgress.status := Status.processing;
                                   BatchProgress.error := None |};
                              Run.emitted := [] |})) = Returns zip)
    by (by rewrite Heach).
  apply generateEach_entry in Hsnd as (texts & earlier & Htexts & Hentry & Hfirst).
  - rewrite textsOf_substitute in Htexts.
    + injection Htexts as <-. by exists earlier.
    + rewrite Forall_forall in Hsafe. apply Hsafe. set_solver.
  - eapply Forall_impl; [exact Hafter|]. intros later Hlater Hname. apply Hlater.
    unfold entryName in Hname. apply app_inv_head in Hname. by apply app_inv_tail in Hname.
Qed.

Lemma generateBatch_image_failure_witness :
  exists src,
    BatchResult.settled
      (generateBatch sampleEngine brokenBackgroundWorld (sampleTemplate (str "missing.png"))
                     [sampleText] [] true [named "Ann"; named "Bo"])
    = Throws (ErrorObject (str "Failed to load image: " ++ src))
    /\ src = str "missing.png".
Proof.
  destruct (generateBatch_image_failure sampleEngine brokenBackgroundWorld
              (sampleTemplate (str "missing.png")) [sampleText] [] true
              [named "Ann"; named "Bo"]) as (src & Hresult & _ & Hbackground & _).
  - reflexivity.
  - exists src. split; [by rewrite Hresult | by apply Hbackground].
Defined.

Lemma calm_calmWorld template imageElements : calm calmWorld template imageElements.
Proof.
  unfold calm. repeat split.
  induction imageElements as [|element rest IH]; [done | exact IH].
Qed.

Lemma generateBatch_end_to_end_witness :
  BatchResult.settled
    (generateBatch sampleEngine calmWorld (sampleTemplate (str "background.png"))
                   [sampleText] [] true [named "Ann"; named "Bo"]) = Returns tt
  /\ exists download earlier,
       BatchResult.downloads
         (generateBatch sampleEngine calmWorld (sampleTemplate (str "background.png"))
                        [sampleText] [] true [named "Ann"; named "Bo"]) = [download]
       /\ Download.filename download = str "certificates_batch_1700000000000.zip"
       /\ Download.entries download !! str "certificate_bo.png"
          = Some (canvasWith (sampleTemplate (str "background.png"))
                    (earlier
                     ++ [clearRect 0 0 800 600; drawImage (str "background.png") 0 0 800 600;
                         fillText (str "Certificate for Bo") 10 10
                                  (str "normal bold 24px Arial") (str "#000000")
                                  TextAlign.center (str "top")])).
Proof.
  destruct (generateBatch_end_to_end sampleEngine calmWorld
              (sampleTemplate (str "background.png")) [sampleText] [] true
              [named "Ann"; named "Bo"]) as (Hsettled & download & Hdownloads & Hname & Hentries).
  - apply calm_calmWorld.
  - repeat constructor.
  - split; [exact Hsettled|].
    destruct (Hentries [named "Ann"] (named "Bo") []) as (earlier & Hentry & _);
      [reflexivity | constructor |].
    exists download, earlier. split; [exact Hdownloads|].
    split; [rewrite Hname; reflexivity | exact Hentry].
Defined.

(** X19.  When the images load, the preview of a recipient whose custom
    keys hold no syntax character of patterns and whose values hold no
    dollar pattern is the canvas of the size of the template cleared, then
    drawn with the background, the image elements and the substituted
    texts. *)
Theorem generatePreview_safe :
  forall engine world recipient template textElements imageElements,
    loads world (CertificateTemplate.backgroundImage template) = true ->
    forallb (fun element => loads world (ImageElement.src element)) imageElements = true ->
    safeRecipient recipient = true ->
    generatePreview engine world recipient template textElements imageElements
    = Returns (canvasWith template
                 (certificateCalls template (CertificateTemplate.backgroundImage template)
                                   (loadedElements imageElements) textElements
                                   (substitutedTexts textElements recipient))).
Proof.
  intros engine world recipient template textElements imageElements Hbackground Himages Hsafe.
  rewrite generatePreview_calls. unfold loadImage, loadImageElements.
  unfold loads in Hbackground.
  destruct (imageFailure world (CertificateTemplate.backgroundImage template)); [done|].
  rewrite firstFailure_none by done. cbn [bindO].
  by rewrite textsOf_substitute.
Qed.

Lemma generatePreview_safe_witness :
  generatePreview sampleEngine calmWorld (named "Ann")
                  (sampleTemplate (str "background.png")) [sampleText] []
  = Returns (canvasWith (sampleTemplate (str "background.png"))
               [clearRect 0 0 800 600; drawImage (str "background.png") 0 0 800 600;
                fillText (str "Certificate for Ann") 10 10 (str "normal bold 24px Arial")
                         (str "#000000") TextAlign.center (str "top")]).
Proof.
  apply (generatePreview_safe sampleEngine calmWorld (named "Ann")
           (sampleTemplate (str "background.png")) [sampleText] []);
    reflexivity.
Defined.

(** X20.  An empty list of recipients is not rejected: when nothing
    fails the run emits the initial event and the [complete] event, both
    with 0 of 0, and downloads an archive without entries. *)
Theorem generateBatch_no_recipients :
  forall engine world template textElements imageElements onProgress,
    calm world template imageElements ->
    generateBatch engine world template textElements imageElements onProgress []
    = {| BatchResult.events :=
           receivedBy onProgress [initialEvent 0; finish 0 (initialEvent 0)];
         BatchResult.settled := Returns tt;
         BatchResult.downloads :=
           [{| Download.filename :=
                 str "certificates_batch_" ++ showN (now world) ++ str ".zip";
               Download.entries := ∅ |}] |}.
Proof.
  intros engine world template textElements imageElements onProgress
         (Hbackground & Himages & _ & Harchive).
  unfold generateBatch, tryGenerate, loadImage, loadImageElements.
  unfold loads in Hbackground.
  destruct (imageFailure world (CertificateTemplate.backgroundImage template)); [done|].
  rewrite firstFailure_none by done. cbn [generateEach]. rewrite Harchive.
  unfold emit, update, receivedBy. by destruct onProgress.
Qed.

Lemma generateBatch_no_recipients_witness :
  generateBatch sampleEngine calmWorld (sampleTemplate (str "background.png"))
                [sampleText] [] true []
  = {| BatchResult.events := [initialEvent 0; finish 0 (initialEvent 0)];
       BatchResult.settled := Returns tt;
       BatchResult.downloads :=
         [{| Download.filename := str "certificates_batch_1700000000000.zip";
             Download.entries := ∅ |}] |}.
Proof.
  apply (generateBatch_no_recipients sampleEngine calmWorld
           (sampleTemplate (str "background.png")) [sampleText] [] true).
  apply calm_calmWorld.
Defined.

(** ** The recipient loader: further properties *)

(** X21.  A document other than [null] that is not an object holding an
    array under [recipients] is rejected as a parse failure with the
    message of the structure check. *)
Theorem parseRecipientsFile_document_shape :
  forall engine data,
    data <> JNull ->
    recipientsOf data = None ->
    parseRecipientsFile engine (Readable (Document data))
    = Throws (ErrorObject
                (str "Failed to parse JSON: Invalid JSON structure. Expected { "
                 ++ [quote] ++ str "recipients" ++ [quote] ++ str ": [...] }")).
Proof.
  intros engine data Hnull Hshape.
  destruct data as [|b|n|s|elements|members]; try done.
  unfold parseRecipientsFile, loadDocument. cbn [jsonParse bindO getProperty].
  simpl in Hshape.
  by destruct (ownProperty (str "recipients") members) as [[| | | | |]|].
Qed.

(** X22.  When the first record without a non-empty string [name] is not
    [null], the load is rejected with the message that names its 0-based
    index, whatever follows it. *)
Theorem parseRecipientsFile_first_invalid_record :
  forall engine data valid record rest,
    recipientsOf data = Some (valid ++ record :: rest) ->
    Forall (fun element => hasValidName element = true) valid ->
    hasValidName record = false ->
    record <> JNull ->
    parseRecipientsFile engine (Readable (Document data))
    = Throws (ErrorObject
                (str "Failed to parse JSON: Recipient at index "
                 ++ showNat (List.length valid) ++ str " is missing a valid "
                 ++ [quote] ++ str "name" ++ [quote] ++ str " field")).
Proof.
  intros engine data valid record rest Hdata Hvalid Hrecord Hnull.
  destruct data as [| | | | |members]; try done. simpl in Hdata.
  destruct (ownProperty (str "recipients") members) as [[| | | |elements|]|] eqn:Hmembers;
    try done.
  injection Hdata as ->.
  unfold parseRecipientsFile, loadDocument. cbn [jsonParse bindO getProperty].
  rewrite Hmembers, (mapRecipients_invalid engine valid record rest 0 Hvalid Hrecord).
  by destruct record.
Qed.

(** X23.  When every record has a non-empty string [name], the loader
    returns one recipient per record, in order, with the name as it is,
    with [title], [date] and [customFields] as the document gives them
    when they are truthy, whatever their type, and with the empty string
    or the empty object otherwise. *)
Theorem parseRecipientsFile_valid_records :
  forall engine data elements,
    recipientsOf data = Some elements ->
    Forall (fun element => hasValidName element = true) elements ->
    exists loaded,
      parseRecipientsFile engine (Readable (Document data)) = Returns loaded
      /\ Forall2 (fun element recipient =>
                    exists members name,
                      element = JObject members
                      /\ ownProperty (str "name") members = Some (JString name)
                      /\ LoadedRecipient.name recipient = name
                      /\ LoadedRecipient.title recipient
                         = orElseJSON (ownProperty (str "title") members) (JString [])
                      /\ LoadedRecipient.date recipient
                         = orElseJSON (ownProperty (str "date") members) (JString [])
                      /\ LoadedRecipient.customFields recipient
                         = orElseJSON (ownProperty (str "customFields") members)
                                      (JObject []))
                 elements loaded.
Proof.
  intros engine data elements Hdata Hvalid.
  destruct data as [| | | | |members]; try done. simpl in Hdata.
  destruct (ownProperty (str "recipients") members) as [[| | | |elements'|]|] eqn:Hmembers;
    try done.
  injection Hdata as ->.
  unfold parseRecipientsFile, loadDocument. cbn [jsonParse bindO getProperty].
  rewrite Hmembers.
  destruct (mapRecipients_valid engine elements 0 Hvalid) as (loaded & -> & Hloaded).
  exists loaded. split; [done|].
  eapply Forall2_impl; [exact Hloaded|].
  intros element recipient [members' name Hname Hnonempty].
  exists members', name. by repeat split.
Qed.

Lemma parseRecipientsFile_document_shape_witness :
  parseRecipientsFile sampleEngine
    (Readable (Document (JObject [(str "people", JArray [])])))
  = Throws (ErrorObject
              (str "Failed to parse JSON: Invalid JSON structure. Expected { "
               ++ [quote] ++ str "recipients" ++ [quote] ++ str ": [...] }")).
Proof.
  apply (parseRecipientsFile_document_shape sampleEngine
           (JObject [(str "people", JArray [])])); [discriminate | reflexivity].
Defined.

Lemma parseRecipientsFile_first_invalid_record_witness :
  parseRecipientsFile sampleEngine
    (Readable (Document (JObject
       [(str "recipients",
         JArray [JObject [(str "name", JString (str "Bo"))];
                 JObject [(str "name", JNumber 7)];
                 JNull])])))
  = Throws (ErrorObject
              (str "Failed to parse JSON: Recipient at index 1 is missing a valid "
               ++ [quote] ++ str "name" ++ [quote] ++ str " field")).
Proof.
  apply (parseRecipientsFile_first_invalid_record sampleEngine _
           [JObject [(str "name", JString (str "Bo"))]]
           (JObject [(str "name", JNumber 7)]) [JNull]).
  - reflexivity.
  - repeat constructor.
  - reflexivity.
  - discriminate.
Defined.

Lemma parseRecipientsFile_valid_records_witness :
  exists loaded,
    parseRecipientsFile sampleEngine
      (Readable (Document (JObject
         [(str "recipients",
           JArray [JObject [(str "name", JString (str "Bo")); (str "title", JNumber 5);
                            (str "date", JString [])]])])))
    = Returns loaded
    /\ loaded = [{| LoadedRecipient.name := str "Bo";
                    LoadedRecipient.title := JNumber 5;
                    LoadedRecipient.date := JString [];
                    LoadedRecipient.customFields := JObject [] |}].
Proof.
  destruct (parseRecipientsFile_valid_records sampleEngine
              (JObject
                 [(str "recipients",
                   JArray [JObject [(str "name", JString (str "Bo"));
                                    (str "title", JNumber 5);
                                    (str "date", JString [])]])])
              [JObject [(str "name", JString (str "Bo")); (str "title", JNumber 5);
                        (str "date", JString [])]])
    as (loaded & Hloaded & Hrecords).
  - reflexivity.
  - repeat constructor.
  - exists loaded. split; [exact Hloaded|].
    vm_compute in Hloaded. injection Hloaded as <-. reflexivity.
Defined.

(** ** The generator page and the canvas: properties *)


Lemma str_inj a b : str a = str b -> a = b.
Proof.
  unfold str. intros H.
  rewrite <- (string_of_list_ascii_of_string a), <- (string_of_list_ascii_of_string b).
  by rewrite H.
Qed.

Lemma showN_inj a b : showN a = showN b -> a = b.
Proof.
  unfold showN. intros H. apply str_inj in H.
  apply DecimalN.Unsigned.to_uint_inj.
  assert (Hnil : forall n, N.to_uint n <> Decimal.Nil).
  { intros [|p]; [done|]. apply DecimalPos.Unsigned.to_uint_nonnil. }
  pose proof (NilZero.usu _ (Hnil a)) as Ha.
  pose proof (NilZero.usu _ (Hnil b)) as Hb.
  rewrite H in Ha. congruence.
Qed.

Lemma newTextElement_id a b :
  TextElement.id (newTextElement a) = TextElement.id (newTextElement b) <-> a = b.
Proof.
  split; [|by intros ->]. cbn. intros H. apply showN_inj.
  by injection H.
Qed.

Lemma filter_fresh (id : jsstring) (l : list TextElement.t) :
  ~ In id (List.map TextElement.id l) ->
  List.filter (fun el => negb (isSelected (Some id) (TextElement.id el))) l = l.
Proof.
  induction l as [|el l IH]; [done|]. cbn [List.map In List.filter isSelected]. intros H.
  destruct (sameString (TextElement.id el) id) eqn:E.
  - apply sameString_true in E. tauto.
  - cbn. f_equal. apply IH. tauto.
Qed.

Lemma filter_app' {A} (f : A -> bool) (l1 l2 : list A) :
  List.filter f (l1 ++ l2) = List.filter f l1 ++ List.filter f l2.
Proof. induction l1 as [|a l1 IH]; [done|]. cbn. destruct (f a); cbn; by rewrite IH. Qed.

Lemma find_fresh (id : jsstring) (l : list TextElement.t) :
  ~ In id (List.map TextElement.id l) ->
  List.find (fun el => isSelected (Some id) (TextElement.id el)) l = None.
Proof.
  induction l as [|el l IH]; [done|]. cbn [List.map In List.find isSelected]. intros H.
  destruct (sameString (TextElement.id el) id) eqn:E.
  - apply sameString_true in E. tauto.
  - apply IH. tauto.
Qed.

Lemma find_app' {A} (f : A -> bool) (l1 l2 : list A) :
  List.find f l1 = None -> List.find f (l1 ++ l2) = List.find f l2.
Proof. induction l1 as [|a l1 IH]; [done|]. cbn. destruct (f a); [done|]. apply IH. Qed.

(** X24.  Adding a text and deleting it again: when no text of the
    page has the id [text-<now>] yet, [addTextElement] puts the new
    text, with its default look, last and selects it, and
    [deleteElement] then gives the page back as it was, with nothing
    selected. *)
Theorem addTextElement_round_trip (now : N) (state : Generator.t) :
  ~ In (str "text-" ++ showN now) (textIds state) ->
  selectedTextElement (addTextElement now state) = Some (newTextElement now)
  /\ deleteElement (addTextElement now state) = deselected state.
Proof.
  intros Hfresh. split.
  - unfold selectedTextElement, addTextElement. cbn [Generator.textElements Generator.selectedElement].
    rewrite find_app' by (apply (find_fresh (TextElement.id (newTextElement now))), Hfresh).
    cbn [List.find isSelected]. unfold sameString. by rewrite bool_decide_eq_true_2.
  - unfold deleteElement, addTextElement, deselected.
    cbn [Generator.textElements Generator.selectedElement Generator.selectedElementType
         Generator.imageElements Generator.template].
    f_equal. rewrite filter_app', (filter_fresh (TextElement.id (newTextElement now)) _ Hfresh).
    cbn [List.filter isSelected]. unfold sameString. rewrite bool_decide_eq_true_2 by done.
    cbn. apply app_nil_r.
Qed.

(** X25.  The id of an added text is the clock reading alone.  Two
    texts added at different readings have different ids, and deleting
    the second keeps the first; two texts added at the same reading
    share the id, and deleting the selected one deletes both. *)
Theorem addTextElement_same_millisecond (first second : N) (state : Generator.t) :
  ~ In (str "text-" ++ showN second) (textIds state) ->
  Generator.textElements (deleteElement (addTextElement second (addTextElement first state)))
  = Generator.textElements state
    ++ (if N.eqb first second then [] else [newTextElement first]).
Proof.
  intros Hfresh. unfold deleteElement, addTextElement.
  cbn [Generator.textElements Generator.selectedElement Generator.selectedElementType].
  rewrite !filter_app', (filter_fresh (TextElement.id (newTextElement second)) _ Hfresh).
  cbn [List.filter isSelected]. unfold sameString at 2. rewrite bool_decide_eq_true_2 by done.
  cbn [negb]. rewrite app_nil_r. f_equal.
  destruct (N.eqb_spec first second) as [->|Hne].
  - unfold sameString. by rewrite bool_decide_eq_true_2.
  - destruct (sameString _ _) eqn:E; [|done].
    apply sameString_true, newTextElement_id in E. done.
Qed.

Lemma addTextElement_round_trip_witness :
  selectedTextElement (addTextElement 1700000000000 initialPage)
  = Some (newTextElement 1700000000000)
  /\ deleteElement (addTextElement 1700000000000 initialPage) = deselected initialPage.
Proof.
  apply (addTextElement_round_trip 1700000000000 initialPage). simpl. tauto.
Defined.

Lemma addTextElement_same_millisecond_witness :
  Generator.textElements
    (deleteElement (addTextElement 1700000000000 (addTextElement 1700000000000 initialPage)))
  = [].
Proof.
  apply (addTextElement_same_millisecond 1700000000000 1700000000000 initialPage).
  simpl. tauto.
Defined.

Lemma mergeText_positionUpdate x y el : mergeText el (positionUpdate x y) = moveTo x y el.
Proof. reflexivity. Qed.

Lemma moveTextElement_dragging element clientX clientY start state :
  moveTextElement element clientX clientY
    ({| Draggable.isDragging := true; Draggable.dragStart := start |}, state)
  = ({| Draggable.isDragging := true; Draggable.dragStart := start |},
     updateTextElement (TextElement.id element)
       (positionUpdate (Z.max 0 (clientX - Position.x start))
                       (Z.max 0 (clientY - Position.y start))) state).
Proof. reflexivity. Qed.

Lemma map_update_twice id x1 y1 x2 y2 (l : list TextElement.t) :
  List.map (fun el => if sameString (TextElement.id el) id
                      then mergeText el (positionUpdate x2 y2) else el)
    (List.map (fun el => if sameString (TextElement.id el) id
                         then mergeText el (positionUpdate x1 y1) else el) l)
  = List.map (fun el => if sameString (TextElement.id el) id
                        then mergeText el (positionUpdate x2 y2) else el) l.
Proof.
  rewrite List.map_map. apply List.map_ext. intros el.
  destruct (sameString (TextElement.id el) id) eqn:E; [|by rewrite E].
  cbn [mergeText positionUpdate TextUpdates.id spread TextElement.id]. by rewrite E.
Qed.

Lemma dragAlong_dragging element path clientX clientY start state :
  dragAlong element (path ++ [(clientX, clientY)])
    ({| Draggable.isDragging := true; Draggable.dragStart := start |}, state)
  = ({| Draggable.isDragging := true; Draggable.dragStart := start |},
     updateTextElement (TextElement.id element)
       (positionUpdate (Z.max 0 (clientX - Position.x start))
                       (Z.max 0 (clientY - Position.y start))) state).
Proof.
  unfold dragAlong. revert state. induction path as [|[x y] path IH]; intros state.
  - reflexivity.
  - cbn [app List.fold_left fst snd]. rewrite moveTextElement_dragging, IH.
    f_equal. unfold updateTextElement.
    cbn [Generator.textElements Generator.template Generator.imageElements
         Generator.selectedElement Generator.selectedElementType].
    f_equal. apply map_update_twice.
Qed.

(** X26.  Dragging a text.  After a press at [(downX, downY)] on
    [element] and any pointer moves ending at [(clientX, clientY)],
    every text with the id of [element] sits where [element] was plus
    the way of the pointer since the press, no coordinate below 0,
    whatever the path in between; all else of these texts, the other
    texts, their order and the images are as before, [element] is the
    selected text, and once the button is released a move changes
    nothing. *)
Theorem drag_follows_pointer (element : TextElement.t) (downX downY : Z)
    (path : list (Z * Z)) (clientX clientY : Z) (page : Dragging) :
  let pressed := pressTextElement element downX downY page in
  let moved := dragAlong element (path ++ [(clientX, clientY)]) pressed in
  Generator.textElements (snd moved)
  = List.map (dragged element downX downY clientX clientY) (Generator.textElements (snd page))
  /\ Forall (fun el => TextElement.id el = TextElement.id element ->
                       (0 <= Position.x (TextElement.position el))%Z
                       /\ (0 <= Position.y (TextElement.position el))%Z)
            (Generator.textElements (snd moved))
  /\ Generator.imageElements (snd moved) = Generator.imageElements (snd page)
  /\ Generator.selectedElement (snd moved) = Some (TextElement.id element)
  /\ Generator.selectedElementType (snd moved) = Some ElementType.text
  /\ forall x y, moveTextElement element x y (releaseTextElement moved)
                 = releaseTextElement moved.
Proof.
  intros pressed moved. subst pressed moved. destruct page as [drag state].
  unfold pressTextElement, handleMouseDown. cbn [fst snd].
  rewrite dragAlong_dragging. cbn [snd Position.x Position.y].
  assert (Hmap : Generator.textElements
            (updateTextElement (TextElement.id element)
               (positionUpdate
                  (Z.max 0 (clientX - (downX - Position.x (TextElement.position element))))
                  (Z.max 0 (clientY - (downY - Position.y (TextElement.position element)))))
               (onSelectElement (TextElement.id element) ElementType.text state))
          = List.map (dragged element downX downY clientX clientY)
                     (Generator.textElements state)).
  { cbn [updateTextElement onSelectElement Generator.textElements].
    apply List.map_ext. intros el. unfold dragged.
    destruct (sameString _ _); [|done]. rewrite mergeText_positionUpdate.
    f_equal; f_equal; lia. }
  split; [exact Hmap|]. split.
  { rewrite Hmap. apply List.Forall_forall. intros el Hin Hid.
    apply List.in_map_iff in Hin as (before & <- & _). unfold dragged in *.
    destruct (sameString _ _) eqn:E.
    - cbn. lia.
    - apply sameString_false in E. done. }
  repeat split.
Qed.

Lemma find_none_filter {A} (f : A -> bool) (l : list A) :
  List.find f l = None -> List.filter (fun a => negb (f a)) l = l.
Proof.
  induction l as [|a l IH]; [done|]. cbn. destruct (f a); [done|]. cbn. intros H.
  by rewrite IH.
Qed.

Lemma find_some_filter {A} (f : A -> bool) (l : list A) a :
  List.find f l = Some a -> ~ In a (List.filter (fun a => negb (f a)) l).
Proof.
  intros H Hin. apply List.find_some in H as [_ Hf].
  apply List.filter_In in Hin as [_ Hn]. by rewrite Hf in Hn.
Qed.

(** X27.  A download forgets that the selection is an image.  With an
    image selected (and no text of that id), [deleteElement] removes the
    image.  After [handleDownload] the same image is still the one the
    page shows as selected, but the selection now counts as a text, so
    [deleteElement] removes nothing and only clears the selection. *)
Theorem handleDownload_forgets_image_selection (state : Generator.t) (id : jsstring)
    (image : ImageElement.t) :
  Generator.selectedElement state = Some id ->
  Generator.selectedElementType state = Some ElementType.image ->
  id <> [] ->
  selectedTextElement state = None ->
  selectedImageElement state = Some image ->
  let after := handleDownload true state in
  ~ In image (Generator.imageElements (deleteElement state))
  /\ selectedTextElement after = None
  /\ selectedImageElement after = Some image
  /\ deleteElement after = deselected state.
Proof.
  intros Hsel Htype Hid Htext Himage after. subst after.
  unfold handleDownload. rewrite Hsel. destruct id as [|c id]; [done|].
  unfold selectedTextElement, selectedImageElement in *. rewrite Hsel in Htext, Himage.
  split.
  { unfold deleteElement. rewrite Htype, Hsel. cbn [Generator.imageElements].
    by apply (find_some_filter _ _ _ Himage). }
  split; [exact Htext|]. split; [exact Himage|].
  unfold deleteElement, onSelectElement, deselected.
  cbn [Generator.textElements Generator.selectedElement Generator.selectedElementType
       Generator.imageElements Generator.template].
  f_equal. by apply find_none_filter.
Qed.

Lemma handleDownload_forgets_image_selection_witness :
  ~ In sampleSignature
       (Generator.imageElements
          (deleteElement (addImageElement 1700000000000 (str "data:image/png;base64,AAAA")
                                          initialPage)))
  /\ Generator.imageElements
       (deleteElement
          (handleDownload true
             (addImageElement 1700000000000 (str "data:image/png;base64,AAAA") initialPage)))
     = [sampleSignature].
Proof.
  pose proof (handleDownload_forgets_image_selection
                (addImageElement 1700000000000 (str "data:image/png;base64,AAAA") initialPage)
                (ImageElement.id sampleSignature) sampleSignature
                eq_refl eq_refl ltac:(discriminate) eq_refl eq_refl) as (Hgone & _ & _ & Hkept).
  split; [exact Hgone|]. by rewrite Hkept.
Defined.

(** ** The failures of a run *)


Section Steps.

Variable engine : Engine.
Variable world : World.
Variable template : CertificateTemplate.t.
Variable textElements : list TextElement.t.
Variable imageElements : list ImageElement.t.

Local Abbreviation runEach' := (generateEach engine world template textElements imageElements).

Lemma textsOf_syntax_error recipient e :
  textsOf engine textElements recipient = Throws e ->
  exists source, e = ErrorObject (regexpSyntaxErrorMessage engine source).
Proof.
  intros H. apply textsOf_Throws in H as (before & element & after & texts & _ & _ & H).
  by eapply replacePlaceholders_throws.
Qed.

(** The loop over recipients that all get their frames goes on with the
    recipients behind them. *)
Lemma generateEach_framed onProgress before rest :
  forall i background loaded calls zip run,
    (forall j recipient, before !! j = Some recipient ->
                         framed engine world textElements (i + j) recipient) ->
    exists calls' zip' run',
      runEach' onProgress i (before ++ rest) background loaded (canvasWith template calls)
               zip run
      = runEach' onProgress (i + List.length before) rest background loaded
                 (canvasWith template calls') zip' run'.
Proof.
  induction before as [|recipient before IH]; intros i background loaded calls zip run Hframed.
  - exists calls, zip, run. cbn [app List.length]. by rewrite Nat.add_0_r.
  - destruct (Hframed 0 recipient eq_refl) as ((texts & Htexts) & Hblob).
    rewrite Nat.add_0_r in Hblob.
    cbn [app generateEach]. rewrite certificateOf_calls, Htexts. cbn [bindO].
    rewrite Hblob.
    edestruct (IH (S i)) as (calls' & zip' & run' & Heq).
    { intros j r Hj. replace (S i + j) with (i + S j) by lia. by apply Hframed. }
    exists calls', zip', run'. rewrite Heq. cbn [List.length]. by rewrite Nat.add_succ_r.
Qed.

(** What the loop settles with, read backwards: a rejection comes from
    the rendering or the encoding of the first recipient that does not
    get its frame, and the loop completes only when all get theirs. *)
Lemma generateEach_settles onProgress recipients :
  forall i background loaded calls zip run,
    match snd (runEach' onProgress i recipients background loaded
                        (canvasWith template calls) zip run) with
    | Returns _ =>
        forall j recipient, recipients !! j = Some recipient ->
                            framed engine world textElements (i + j) recipient
    | Throws e =>
        exists k recipient,
          recipients !! k = Some recipient
          /\ (forall j r, j < k -> recipients !! j = Some r ->
                          framed engine world textElements (i + j) r)
          /\ (textsOf engine textElements recipient = Throws e
              \/ ((exists texts, textsOf engine textElements recipient = Returns texts)
                  /\ toBlobIsNull world (i + k) = true
                  /\ e = ErrorObject (str "Failed to convert canvas to blob")))
    | Unmodelled => True
    end.
Proof.
  induction recipients as [|recipient rest IH]; intros i background loaded calls zip run.
  - cbn [generateEach snd]. intros j r Hj. done.
  - cbn [generateEach]. rewrite certificateOf_calls.
    destruct (textsOf engine textElements recipient) as [texts|e|] eqn:Htexts;
      cbn [bindO snd].
    + destruct (toBlobIsNull world i) eqn:Hblob; cbn [snd].
      * exists 0, recipient. rewrite Nat.add_0_r. split; [done|]. split; [lia|].
        right. split; [by exists texts | done].
      * specialize (IH (S i) background loaded
                       (calls ++ certificateCalls template background loaded textElements
                                                  texts)
                       (<[entryName recipient :=
                            canvasWith template
                              (calls ++ certificateCalls template background loaded
                                                        textElements texts)]> zip)
                       (emit onProgress
                          (update (startRecipient i (BatchRecipient.name recipient)) run))).
        destruct (snd _) as [zip'|e|].
        -- intros [|j] r Hj.
           ++ injection Hj as <-. rewrite Nat.add_0_r. split; [by exists texts | done].
           ++ replace (i + S j) with (S i + j) by lia. by apply IH.
        -- destruct IH as (k & r & Hk & Hbefore & Hfail).
           exists (S k), r. split; [done|]. split.
           ++ intros [|j] r' Hlt Hj.
              ** injection Hj as <-. rewrite Nat.add_0_r. split; [by exists texts | done].
              ** replace (i + S j) with (S i + j) by lia. apply Hbefore; [lia | done].
           ++ replace (i + S k) with (S i + k) by lia. exact Hfail.
        -- done.
    + exists 0, recipient. split; [done|]. split; [lia | by left].
    + done.
Qed.

Lemma generateBatch_settled onProgress recipients :
  BatchResult.settled
    (generateBatch engine world template textElements imageElements onProgress recipients)
  = match snd (tryGenerate engine world template textElements imageElements onProgress
                 recipients (canvasWith template [])
                 (emit onProgress {| Run.progress := initialEvent (List.length recipients);
                                     Run.emitted := [] |})) with
    | Returns _ => Returns tt
    | Throws e => Throws e
    | Unmodelled => Unmodelled
    end.
Proof.
  unfold generateBatch. fold (canvasWith template []).
  fold (initialEvent (List.length recipients)).
  by destruct (tryGenerate _ _ _ _ _ _ _ _ _) as [run [download|e|]].
Qed.

Lemma imagesLoad_loaded :
  imagesLoad world template imageElements = true ->
  loadImage world (CertificateTemplate.backgroundImage template)
  = Returns (CertificateTemplate.backgroundImage template)
  /\ loadImageElements world imageElements = Returns (loadedElements imageElements).
Proof.
  unfold imagesLoad. intros H. apply andb_true_iff in H as [Hbackground Himages].
  unfold loadImage, loadImageElements, loads in *.
  destruct (imageFailure world (CertificateTemplate.backgroundImage template)); [done|].
  by rewrite firstFailure_none.
Qed.

Lemma generateBatch_settled_loop onProgress recipients :
  imagesLoad world template imageElements = true ->
  exists run,
    BatchResult.settled
      (generateBatch engine world template textElements imageElements onProgress recipients)
    = match snd (runEach' onProgress 0 recipients
                          (CertificateTemplate.backgroundImage template)
                          (loadedElements imageElements) (canvasWith template []) ∅ run) with
      | Returns _ =>
          match generateAsyncFailure world with
          | Some e => Throws e
          | None => Returns tt
          end
      | Throws e => Throws e
      | Unmodelled => Unmodelled
      end.
Proof.
  intros Himages.
  exists (emit onProgress {| Run.progress := initialEvent (List.length recipients);
                             Run.emitted := [] |}).
  rewrite generateBatch_settled. unfold tryGenerate.
  destruct (imagesLoad_loaded Himages) as [-> ->].
  destruct (runEach' _ _ _ _ _ _ _ _) as [run [zip|e|]]; cbn [snd]; [|done|done].
  by destruct (generateAsyncFailure world).
Qed.


(** The failure a step that fails first makes the run settle with. *)
Lemma generateBatch_step_fails onProgress recipients step :
  failsFirst engine world template textElements imageElements recipients step ->
  exists e,
    failureOf engine world template textElements imageElements recipients step e
    /\ BatchResult.settled
         (generateBatch engine world template textElements imageElements onProgress
                        recipients) = Throws e.
Proof.
  destruct step as [|index|index|]; cbn [failsFirst failureOf].
  - intros Hfails. rewrite generateBatch_settled. unfold tryGenerate, loadImage.
    unfold imagesLoad, loads in Hfails.
    destruct (imageFailure world (CertificateTemplate.backgroundImage template))
      as [time|] eqn:Hbackground.
    + eexists. split; [|reflexivity].
      exists (CertificateTemplate.backgroundImage template).
      unfold loads. rewrite Hbackground. split; [done|]. split; [by left | done].
    + cbn [andb] in Hfails. unfold loadImageElements.
      pose proof (firstFailure_some world imageElements None) as Hfirst.
      destruct (firstFailure world imageElements None) as [[time src]|].
      * destruct Hfirst as [Hnone | (element & Hin & -> & Helement)]; [done|].
        eexists. split; [|reflexivity].
        exists (ImageElement.src element). unfold loads. rewrite Helement.
        split; [done|]. split; [|done]. right. by exists element.
      * destruct Hfirst as [_ Hall]. unfold loads in Hall. congruence.
  - intros ((Himages & Hbefore) & recipient & e & Hlookup & Htexts).
    exists e. split.
    { destruct (textsOf_syntax_error _ _ Htexts) as [source Hsource].
      by exists recipient, source. }
    destruct (generateBatch_settled_loop onProgress recipients Himages) as [run0 ->].
    rewrite <- (take_drop_middle recipients index recipient Hlookup).
    edestruct (generateEach_framed onProgress (take index recipients)
                 (recipient :: drop (S index) recipients) 0) as (calls & zip & run & ->).
    { intros j r Hj. apply Hbefore.
      - apply lookup_lt_Some in Hj. rewrite length_take in Hj. lia.
      - apply lookup_take_Some in Hj. tauto. }
    cbn [generateEach]. by rewrite certificateOf_calls, Htexts.
  - intros ((Himages & Hbefore) & recipient & texts & Hlookup & Htexts & Hblob).
    eexists. split; [reflexivity|].
    destruct (generateBatch_settled_loop onProgress recipients Himages) as [run0 ->].
    rewrite <- (take_drop_middle recipients index recipient Hlookup).
    edestruct (generateEach_framed onProgress (take index recipients)
                 (recipient :: drop (S index) recipients) 0) as (calls & zip & run & ->).
    { intros j r Hj. apply Hbefore.
      - apply lookup_lt_Some in Hj. rewrite length_take in Hj. lia.
      - apply lookup_take_Some in Hj. tauto. }
    cbn [generateEach]. rewrite certificateOf_calls, Htexts. cbn [bindO Nat.add].
    rewrite length_take_le by (apply lookup_lt_Some in Hlookup; lia).
    by rewrite Hblob.
  - intros ((Himages & Hbefore) & Harchive).
    destruct (generateAsyncFailure world) as [e|] eqn:He; [|done].
    exists e. split; [done|].
    destruct (generateBatch_settled_loop onProgress recipients Himages) as [run0 ->].
    rewrite <- (app_nil_r recipients).
    edestruct (generateEach_framed onProgress recipients [] 0) as (calls & zip & run & ->).
    { intros j r Hj. apply Hbefore; [|done]. by apply lookup_lt_Some in Hj. }
    cbn [generateEach]. by rewrite He.
Qed.

(** A run rejects only when one of the steps fails, with the failure of
    the first step to fail. *)
Lemma generateBatch_rejection_step onProgress recipients e :
  BatchResult.settled
    (generateBatch engine world template textElements imageElements onProgress recipients)
  = Throws e ->
  exists step,
    failsFirst engine world template textElements imageElements recipients step
    /\ failureOf engine world template textElements imageElements recipients step e.
Proof.
  destruct (imagesLoad world template imageElements) eqn:Himages.
  - destruct (generateBatch_settled_loop onProgress recipients Himages) as [run0 ->].
    pose proof (generateEach_settles onProgress recipients 0
                  (CertificateTemplate.backgroundImage template)
                  (loadedElements imageElements) [] ∅ run0) as Hloop.
    destruct (snd _) as [zip|e'|]; [| |done].
    + destruct (generateAsyncFailure world) as [e'|] eqn:Harchive; [|done].
      intros [= <-]. exists CompressArchive. cbn [failsFirst failureOf].
      split; [|done]. split; [|by rewrite Harchive]. split; [done|].
      intros j recipient _ Hj. by apply (Hloop j recipient).
    + intros [= <-]. destruct Hloop as (k & recipient & Hk & Hbefore & Hfail).
      assert (Hreaches : reaches engine world template textElements imageElements
                                 recipients k) by (split; [done | exact Hbefore]).
      destruct Hfail as [Htexts | ((texts & Htexts) & Hblob & ->)].
      * exists (RenderFrame k). cbn [failsFirst failureOf]. split.
        -- split; [done|]. by exists recipient, e'.
        -- destruct (textsOf_syntax_error _ _ Htexts) as [source Hsource].
           by exists recipient, source.
      * exists (EncodeFrame k). cbn [failsFirst failureOf]. split; [|done].
        split; [done|]. by exists recipient, texts.
  - intros Hsettled. exists LoadImages. cbn [failsFirst]. split; [done|].
    destruct (generateBatch_step_fails onProgress recipients LoadImages Himages)
      as (e' & Hfailure & Hsettled').
    rewrite Hsettled in Hsettled'. by injection Hsettled' as ->.
Qed.

End Steps.



